(** * chat-canvas-template: the resilience layer of the research agent

    A shallow embedding of the TypeScript services of [agent-js]:
    the safety filter ([validation/safetyFilter.ts]), the response cache
    ([services/cacheManager.ts]), the token validator
    ([utils/tokenValidator.ts]), the LLM gateway ([services/llmGateway.ts]),
    the model router (the class [ModelRouter]), the conversation manager
    (the class [ConversationManager]) and the feature flags (the class
    [FeatureFlags]).

    JavaScript strings are modelled as lists of 8-bit code units
    ([list ascii], the code units U+0000..U+00FF); regular expressions are
    given a backtracking semantics with the priorities of ECMAScript, and
    [RegExp] objects carry their mutable [lastIndex]. *)

From Stdlib Require Import ZArith NArith List Ascii String Bool Lia Sorted Permutation.
From stdpp Require Import gmap strings list sorting.
Import ListNotations.

Local Open Scope list_scope.
Local Open Scope bool_scope.

(** ** JavaScript strings *)

Module JS.

Definition jsstring := list ascii.

Definition str (s : string) : jsstring := list_ascii_of_string s.

Definition code (c : ascii) : N := N_of_ascii c.

Definition between (lo hi : N) (c : ascii) : bool :=
  (lo <=? code c)%N && (code c <=? hi)%N.

(** [String.prototype.toLowerCase] on the code units below 256: the ASCII
    capitals and the Latin-1 capitals (all of U+00C0..U+00DE but the
    multiplication sign) move 32 up. *)
Definition toLowerChar (c : ascii) : ascii :=
  if between 65 90 c || (between 192 222 c && negb (code c =? 215)%N)
  then ascii_of_N (code c + 32) else c.

Definition toUpperChar (c : ascii) : ascii :=
  if between 97 122 c || (between 224 254 c && negb (code c =? 247)%N)
  then ascii_of_N (code c - 32) else c.

Definition toLowerCase (s : jsstring) : jsstring := map toLowerChar s.

(** WhiteSpace and LineTerminator code units below 256: TAB, LF, VT, FF,
    CR, SP and NBSP.  The same set is what [\s] matches. *)
Definition isWhiteSpace (c : ascii) : bool :=
  between 9 13 c || (code c =? 32)%N || (code c =? 160)%N.

(** The code units of a text, last first. *)
Definition reverse (s : jsstring) : jsstring := rev_append s [].

Fixpoint trimStart (s : jsstring) : jsstring :=
  match s with
  | c :: t => if isWhiteSpace c then trimStart t else s
  | [] => []
  end.

Definition trimEnd (s : jsstring) : jsstring := reverse (trimStart (reverse s)).

Definition trim (s : jsstring) : jsstring := trimEnd (trimStart s).

Definition blank (s : jsstring) : Prop := Forall (fun c => isWhiteSpace c = true) s.

(** A text that does not begin with white space. *)
Definition tight (s : jsstring) : Prop :=
  match s with c :: _ => isWhiteSpace c = false | [] => True end.

Definition eqc (a b : ascii) : bool := (code a =? code b)%N.

Fixpoint startsWith (s p : jsstring) : bool :=
  match p, s with
  | [], _ => true
  | a :: p', b :: s' => eqc a b && startsWith s' p'
  | _ :: _, [] => false
  end.

(** [s.includes(needle)] *)
Fixpoint includes (s needle : jsstring) : bool :=
  startsWith s needle ||
  match s with
  | [] => false
  | _ :: t => includes t needle
  end.

(** [s.substring(0, n)] *)
Definition substring0 (n : nat) (s : jsstring) : jsstring := firstn n s.

(** [parts.join(sep)] *)
Fixpoint join (sep : jsstring) (parts : list jsstring) : jsstring :=
  match parts with
  | [] => []
  | [p] => p
  | p :: rest => p ++ sep ++ join sep rest
  end.

(** [s.split(sep)] for a non-empty separator string: the pieces between
    the successive, non-overlapping occurrences of [sep], found from the
    left.  [skip] counts the code units of an occurrence still to be
    passed over, [acc] is the current piece, reversed. *)
Fixpoint split_go (sep : jsstring) (s : jsstring) (skip : nat) (acc : jsstring)
  : list jsstring :=
  match s with
  | [] => [reverse acc]
  | c :: t =>
      match skip with
      | S k => split_go sep t k acc
      | O =>
          if startsWith s sep
          then reverse acc :: split_go sep t (length sep - 1) []
          else split_go sep t 0 (c :: acc)
      end
  end.

Definition split (sep : jsstring) (s : jsstring) : list jsstring :=
  split_go sep s 0 [].

(** Decimal rendering of a number, as template literals do for
    non-negative integers. *)
Fixpoint digits_go (fuel : nat) (n : N) (acc : jsstring) : jsstring :=
  match fuel with
  | O => acc
  | S f =>
      let d := ascii_of_N (48 + n mod 10) in
      if (n <? 10)%N then d :: acc else digits_go f (n / 10)%N (d :: acc)
  end.

Definition showN (n : N) : jsstring := digits_go (S (N.to_nat (N.log2 n))) n [].

Definition showNat (n : nat) : jsstring := showN (N.of_nat n).

Definition showZ (z : Z) : jsstring :=
  if (z <? 0)%Z then "-"%char :: showN (Z.to_N (- z)) else showN (Z.to_N z).

Definition isDigit (c : ascii) : bool := between 48 57 c.

Definition digitValue (c : ascii) : Z := Z.of_N (code c) - 48.

(** The value of the longest prefix of decimal digits; [None] is NaN. *)
Fixpoint digitsValue (s : jsstring) (acc : option Z) : option Z :=
  match s with
  | c :: t =>
      if isDigit c
      then digitsValue t (Some (10 * default 0%Z acc + digitValue c)%Z)
      else acc
  | [] => acc
  end.

(** The value of a run of digits read after the value [a]. *)
Definition readDigits (ds : jsstring) (a : Z) : Z :=
  fold_left (fun a d => 10 * a + digitValue d)%Z ds a.

(** [parseInt(s)] for decimal text: white space is skipped, a sign is
    read, then the digits; what follows them is ignored.  (The prefix
    [0x] of hexadecimal text is not modelled.) *)
Definition parseInt (s : jsstring) : option Z :=
  match trimStart s with
  | c :: t =>
      if eqc c "-" then Z.opp <$> digitsValue t None
      else if eqc c "+" then digitsValue t None
      else digitsValue (c :: t) None
  | [] => None
  end.

End JS.
Export JS.


(** ** Regular expressions

    The patterns of the sources use literals, character classes, [\b],
    groups, alternation and greedy quantifiers.  [ends] lists, in the
    order in which the backtracking matcher of ECMAScript tries them,
    the positions at which a match that starts at a given position may
    end; the match the engine reports is the first of them. *)

Module Regex.

Inductive regex : Type :=
| Eps : regex
| Cls : list (ascii * ascii) -> regex   (* a class, as a list of ranges *)
| Cat : regex -> regex -> regex
| Alt : regex -> regex -> regex
| Star : regex -> regex                 (* greedy *)
| WordB : regex.                        (* \b *)

Definition in_ranges (cs : list (ascii * ascii)) (c : ascii) : bool :=
  existsb (fun r => between (code (fst r)) (code (snd r)) c) cs.

(** With the [i] flag a code unit matches a class when one of its case
    variants is in it (Canonicalize compares upper-cased code units). *)
Definition in_class (ci : bool) (cs : list (ascii * ascii)) (c : ascii) : bool :=
  in_ranges cs c ||
  (ci && (in_ranges cs (toUpperChar c) || in_ranges cs (toLowerChar c))).

Definition isWordChar (c : ascii) : bool :=
  between 48 57 c || between 65 90 c || between 97 122 c || (code c =? 95)%N.

(** A position in the subject: the code unit before it and what follows. *)
Definition ctx : Type := option ascii * jsstring.

Definition wordBefore (c : ctx) : bool :=
  match fst c with Some a => isWordChar a | None => false end.

Definition wordAfter (c : ctx) : bool :=
  match snd c with a :: _ => isWordChar a | [] => false end.

Definition remaining (c : ctx) : nat := length (snd c).

(** Iterations of a starred pattern; an iteration that consumes nothing
    is rejected, as by the RepeatMatcher of the standard. *)
Fixpoint star_ends (step : ctx -> list ctx) (fuel : nat) (c : ctx) : list ctx :=
  match fuel with
  | O => [c]
  | S f =>
      flat_map (fun c' => if remaining c' <? remaining c
                          then star_ends step f c' else [])
               (step c) ++ [c]
  end.

Fixpoint ends (ci : bool) (r : regex) : ctx -> list ctx :=
  match r with
  | Eps => fun c => [c]
  | Cls cs => fun c =>
      match snd c with
      | a :: t => if in_class ci cs a then [(Some a, t)] else []
      | [] => []
      end
  | Cat r1 r2 => fun c => flat_map (ends ci r2) (ends ci r1 c)
  | Alt r1 r2 => fun c => ends ci r1 c ++ ends ci r2 c
  | Star r1 => fun c => star_ends (ends ci r1) (remaining c) c
  | WordB => fun c => if xorb (wordBefore c) (wordAfter c) then [c] else []
  end.

(** Length of the match at a position, if there is one. *)
Definition match_at (ci : bool) (r : regex) (c : ctx) : option nat :=
  match ends ci r c with
  | c' :: _ => Some (remaining c - remaining c')
  | [] => None
  end.

(** Leftmost match at or after a position: its index and its length. *)
Fixpoint search (ci : bool) (r : regex) (prev : option ascii) (rest : jsstring)
    (i : nat) : option (nat * nat) :=
  match match_at ci r (prev, rest) with
  | Some n => Some (i, n)
  | None =>
      match rest with
      | [] => None
      | a :: t => search ci r (Some a) t (S i)
      end
  end.

Definition ctx_at (s : jsstring) (i : nat) : ctx :=
  (last (firstn i s), skipn i s).

(** *** Pattern syntax *)

Definition chr (a : ascii) : regex := Cls [(a, a)].

Fixpoint lit_go (s : jsstring) : regex :=
  match s with
  | [] => Eps
  | [a] => chr a
  | a :: t => Cat (chr a) (lit_go t)
  end.

Definition lit (s : string) : regex := lit_go (str s).

Definition plus (r : regex) : regex := Cat r (Star r).
Definition opt (r : regex) : regex := Alt r Eps.

Fixpoint rep (n : nat) (r : regex) : regex :=
  match n with
  | O => Eps
  | 1 => r
  | S k => Cat r (rep k r)
  end.

(** [r{n,}] and [r{0,2}] *)
Definition atLeast (n : nat) (r : regex) : regex := Cat (rep n r) (Star r).
Definition upTo2 (r : regex) : regex := opt (Cat r (opt r)).

Fixpoint alts (rs : list regex) : regex :=
  match rs with
  | [] => Cls []
  | [r] => r
  | r :: rest => Alt r (alts rest)
  end.

Fixpoint cats (rs : list regex) : regex :=
  match rs with
  | [] => Eps
  | [r] => r
  | r :: rest => Cat r (cats rest)
  end.

Definition digit : regex := Cls [("0", "9")]%char.          (* \d *)
Definition space : regex :=                                  (* \s *)
  Cls [("009", "013"); (" ", " "); ("160", "160")]%char.
Definition dot : regex :=                                    (* . *)
  Cls [("000", "009"); ("011", "012"); ("014", "255")]%char.

(** *** RegExp objects *)

Record RegExp : Type := mkRegExp {
  source : regex;
  ignoreCase : bool;
  global : bool;
  lastIndex : nat
}.

Definition setLastIndex (re : RegExp) (i : nat) : RegExp :=
  {| source := source re; ignoreCase := ignoreCase re;
     global := global re; lastIndex := i |}.

(** [re.exec(s)] (RegExpBuiltinExec): a global expression starts at its
    [lastIndex], leaves the end of the match there on success and 0 on
    failure; a non-global one starts at 0 and does not touch it.  The
    result is the index and length of the match. *)
Definition exec (re : RegExp) (s : jsstring) : option (nat * nat) * RegExp :=
  let start := if global re then lastIndex re else 0 in
  if length s <? start
  then (None, if global re then setLastIndex re 0 else re)
  else
    match search (ignoreCase re) (source re) (fst (ctx_at s start))
                 (snd (ctx_at s start)) start with
    | Some (i, n) =>
        (Some (i, n), if global re then setLastIndex re (i + n) else re)
    | None => (None, if global re then setLastIndex re 0 else re)
    end.

(** [re.test(s)] is [re.exec(s) !== null]. *)
Definition test (re : RegExp) (s : jsstring) : bool * RegExp :=
  match exec re s with
  | (Some _, re') => (true, re')
  | (None, re') => (false, re')
  end.

(** All the matches of a global expression, from the left, each search
    resuming where the last match ended (one further after an empty
    match): the iteration that [String.prototype.match] and
    [String.prototype.replace] share. *)
Fixpoint matches_go (ci : bool) (r : regex) (prev : option ascii)
    (rest : jsstring) (skip : nat) : list jsstring :=
  match skip with
  | S k =>
      match rest with
      | [] => []
      | a :: t => matches_go ci r (Some a) t k
      end
  | O =>
      match match_at ci r (prev, rest) with
      | Some n =>
          firstn n rest ::
          match rest with
          | [] => []
          | a :: t => matches_go ci r (Some a) t (n - 1)
          end
      | None =>
          match rest with
          | [] => []
          | a :: t => matches_go ci r (Some a) t 0
          end
      end
  end.

(** [s.match(re)] for a global [re]: [None] is [null].  [lastIndex] is
    set to 0 first and is 0 again at the end. *)
Definition matchAll (re : RegExp) (s : jsstring) : option (list jsstring) * RegExp :=
  match matches_go (ignoreCase re) (source re) None s 0 with
  | [] => (None, setLastIndex re 0)
  | ms => (Some ms, setLastIndex re 0)
  end.

Fixpoint replace_go (ci : bool) (r : regex) (by_ : jsstring)
    (prev : option ascii) (rest : jsstring) (skip : nat) : jsstring :=
  match skip with
  | S k =>
      match rest with
      | [] => []
      | a :: t => replace_go ci r by_ (Some a) t k
      end
  | O =>
      match match_at ci r (prev, rest) with
      | Some n =>
          by_ ++
          match rest with
          | [] => []
          | a :: t =>
              match n with
              | O => a :: replace_go ci r by_ (Some a) t 0
              | S k => replace_go ci r by_ (Some a) t k
              end
          end
      | None =>
          match rest with
          | [] => []
          | a :: t => a :: replace_go ci r by_ (Some a) t 0
          end
      end
  end.

(** [s.replace(re, by)] for a global [re] and a replacement without [$]
    patterns: every match is replaced. *)
Definition replaceAll (re : RegExp) (s : jsstring) (by_ : jsstring)
  : jsstring * RegExp :=
  (replace_go (ignoreCase re) (source re) by_ None s 0, setLastIndex re 0).

(** [s.split(re)]: a separator match that is empty at the start of the
    current piece is passed over; the text after the last separator is
    the last piece. *)
Fixpoint splitre_go (ci : bool) (r : regex) (prev : option ascii)
    (rest : jsstring) (skip : nat) (acc : jsstring) : list jsstring :=
  match rest with
  | [] => [reverse acc]
  | a :: t =>
      match skip with
      | S k => splitre_go ci r (Some a) t k acc
      | O =>
          match match_at ci r (prev, rest) with
          | Some (S k) => reverse acc :: splitre_go ci r (Some a) t k []
          | Some O =>
              match acc with
              | [] => splitre_go ci r (Some a) t 0 [a]
              | _ => reverse acc :: splitre_go ci r (Some a) t 0 [a]
              end
          | None => splitre_go ci r (Some a) t 0 (a :: acc)
          end
      end
  end.

Definition splitRegExp (re : RegExp) (s : jsstring) : list jsstring :=
  match s with
  | [] => match match_at (ignoreCase re) (source re) (None, []) with
          | Some _ => []
          | None => [[]]
          end
  | _ => splitre_go (ignoreCase re) (source re) None s 0 []
  end.

(** A regular-expression literal: a fresh object, [lastIndex] 0. *)
Definition literal (r : regex) (ci g : bool) : RegExp :=
  {| source := r; ignoreCase := ci; global := g; lastIndex := 0 |}.

End Regex.
Export Regex.

(** ** validation/safetyFilter.ts *)

Module Safety.

Inductive IssueType : Type :=
| prompt_injection | toxicity | pii | length_limit | encoding.

Inductive Severity : Type := low | medium | high.

Record ContentIssue : Type := mkIssue {
  type : IssueType;
  severity : Severity;
  description : jsstring;
  position : option nat
}.

Record ValidationResult : Type := mkResult {
  isValid : bool;
  issues : list jsstring;
  sanitized : jsstring;
  overall : Severity;          (* the field [severity] of the result *)
  blocked : bool
}.

Definition isHigh (s : Severity) : bool :=
  match s with high => true | _ => false end.
Definition isMedium (s : Severity) : bool :=
  match s with medium => true | _ => false end.
Definition isInjection (t : IssueType) : bool :=
  match t with prompt_injection => true | _ => false end.

Definition typeName (t : IssueType) : jsstring :=
  match t with
  | prompt_injection => str "prompt_injection"
  | toxicity => str "toxicity"
  | pii => str "pii"
  | length_limit => str "length"
  | encoding => str "encoding"
  end.

Definition MAX_INPUT_LENGTH : nat := 100 * 100.

(** The [SafetyFilter] object: the two tables of [RegExp] objects are
    created once, with the filter, and shared by all its calls. *)
Record SafetyFilter : Type := mkFilter {
  PII_PATTERNS : list RegExp;
  INJECTION_PATTERNS : list RegExp
}.

Definition alnum : list (ascii * ascii) :=
  [("A", "Z"); ("a", "z"); ("0", "9")]%char.

Definition one (s : string) : list (ascii * ascii) :=
  map (fun a => (a, a)) (str s).

(** /ignore\s+(previous|all)\s+instructions/i, the instruction-override
    phrase *)
Definition ignoreInstructions : regex :=
  cats [lit "ignore"; plus space; Alt (lit "previous") (lit "all");
        plus space; lit "instructions"].

Definition newFilter : SafetyFilter :=
  {| PII_PATTERNS :=
       [ (* /\b\d{3}-\d{2}-\d{4}\b/g *)
         literal (cats [WordB; rep 3 digit; lit "-"; rep 2 digit; lit "-";
                        rep 4 digit; WordB]) false true;
         (* /\b\d{16}\b/g *)
         literal (cats [WordB; rep 16 digit; WordB]) false true;
         (* /\b[A-Za-z0-9._%+-]+@[A-Za-z0-9.-]+\.[A-Z|a-z]{2,}\b/g *)
         literal (cats [WordB; plus (Cls (alnum ++ one "._%+-")); lit "@";
                        plus (Cls (alnum ++ one ".-")); lit ".";
                        atLeast 2 (Cls ([("A", "Z"); ("|", "|"); ("a", "z")]%char));
                        WordB]) false true;
         (* /\b\d{3}-\d{3}-\d{4}\b/g *)
         literal (cats [WordB; rep 3 digit; lit "-"; rep 3 digit; lit "-";
                        rep 4 digit; WordB]) false true ];
     INJECTION_PATTERNS :=
       [ literal ignoreInstructions true false;
         (* /you\s+are\s+now\s+a\s+different/i *)
         literal (cats [lit "you"; plus space; lit "are"; plus space;
                        lit "now"; plus space; lit "a"; plus space;
                        lit "different"]) true false;
         (* /pretend\s+to\s+be/i *)
         literal (cats [lit "pretend"; plus space; lit "to"; plus space;
                        lit "be"]) true false;
         (* /system\s*:\s*forget/i *)
         literal (cats [lit "system"; Star space; lit ":"; Star space;
                        lit "forget"]) true false;
         (* /\\x[0-9a-f]{2}/i *)
         literal (cats [lit "\x"; rep 2 (Cls [("0", "9"); ("a", "f")]%char)])
                 true false;
         (* /<script|javascript:|data:/i *)
         literal (alts [lit "<script"; lit "javascript:"; lit "data:"])
                 true false;
         (* /\{\{.*\}\}/g *)
         literal (cats [lit "{{"; Star dot; lit "}}"]) false true ] |}.

Definition TOXIC_KEYWORDS : list jsstring :=
  map str ["hate"; "violence"; "harm"; "illegal"; "exploit";
           "discriminat"; "threat"; "harass"; "abuse"]%string.

(** [test] on a regular-expression literal written in place. *)
Definition testLit (r : regex) (ci : bool) (s : jsstring) : bool :=
  fst (test (literal r ci false) s).

(** The loop of [checkPromptInjection] over [INJECTION_PATTERNS]. *)
Fixpoint execAll (ps : list RegExp) (input : jsstring)
  : list ContentIssue * list RegExp :=
  match ps with
  | [] => ([], [])
  | p :: rest =>
      let '(m, p') := exec p input in
      let '(found, rest') := execAll rest input in
      (match m with
       | Some (i, _) =>
           mkIssue prompt_injection high
                   (str "Potential prompt injection detected") (Some i) :: found
       | None => found
       end, p' :: rest')
  end.

Definition checkPromptInjection (f : SafetyFilter) (input : jsstring)
  : list ContentIssue * SafetyFilter :=
  let '(found, ps) := execAll (INJECTION_PATTERNS f) input in
  let roles :=
    (* /assistant\s*:\s*|system\s*:\s*|user\s*:\s*/i *)
    if testLit (alts [cats [lit "assistant"; Star space; lit ":"; Star space];
                      cats [lit "system"; Star space; lit ":"; Star space];
                      cats [lit "user"; Star space; lit ":"; Star space]])
               true input
    then [mkIssue prompt_injection medium
                  (str "Role confusion attempt detected") None]
    else [] in
  let manipulation :=
    if testLit (alts [lit "forget"; lit "ignore"; lit "bypass"; lit "override"])
               true input &&
       testLit (alts [lit "instruction"; lit "rule"; lit "guideline";
                      lit "prompt"]) true input
    then [mkIssue prompt_injection high
                  (str "Instruction manipulation attempt detected") None]
    else [] in
  (found ++ roles ++ manipulation,
   {| PII_PATTERNS := PII_PATTERNS f; INJECTION_PATTERNS := ps |}).

Definition checkToxicity (input : jsstring) : list ContentIssue :=
  let inputLower := toLowerCase input in
  let keywords :=
    flat_map (fun keyword =>
                if includes inputLower keyword
                then [mkIssue toxicity medium
                        (str "Potentially toxic content detected: " ++ keyword)
                        None]
                else [])
             TOXIC_KEYWORDS in
  let profanityCount :=
    (* /\b(damn|hell|shit|fuck|bitch)\b/g *)
    match fst (matchAll
                 (literal (cats [WordB;
                                 alts [lit "damn"; lit "hell"; lit "shit";
                                       lit "fuck"; lit "bitch"];
                                 WordB]) false true) inputLower) with
    | Some ms => length ms
    | None => 0
    end in
  let profanity :=
    if 3 <? profanityCount
    then [mkIssue toxicity medium (str "High profanity content detected") None]
    else [] in
  let violent :=
    if testLit (cats [WordB;
                      alts [lit "kill"; lit "murder"; lit "die"; lit "death";
                            lit "hurt"; lit "pain"; lit "blood"];
                      WordB]) true input &&
       negb (testLit (cats [WordB;
                            alts [lit "game"; lit "movie"; lit "book";
                                  lit "fiction"; lit "story"];
                            WordB]) true input)
    then [mkIssue toxicity high (str "Violent language detected") None]
    else [] in
  keywords ++ profanity ++ violent.

(** The loop of [checkPII]: [input.match(pattern)] for each pattern. *)
Fixpoint matchEach (ps : list RegExp) (input : jsstring)
  : list ContentIssue * list RegExp :=
  match ps with
  | [] => ([], [])
  | p :: rest =>
      let '(m, p') := matchAll p input in
      let '(found, rest') := matchEach rest input in
      (match m with
       | Some ms =>
           mkIssue pii medium
                   (str "PII detected: " ++ showNat (length ms) ++
                    str " instance(s)") None :: found
       | None => found
       end, p' :: rest')
  end.

Definition checkPII (f : SafetyFilter) (input : jsstring)
  : list ContentIssue * SafetyFilter :=
  let '(found, ps) := matchEach (PII_PATTERNS f) input in
  (found, {| PII_PATTERNS := ps; INJECTION_PATTERNS := INJECTION_PATTERNS f |}).

Definition hexDigit : regex := Cls [("0", "9"); ("a", "f")]%char.

Definition checkEncoding (input : jsstring) : list ContentIssue :=
  (* /(%[0-9a-f]{2})+/i *)
  (if testLit (plus (cats [lit "%"; rep 2 hexDigit])) true input
   then [mkIssue encoding medium (str "URL encoding detected") None]
   else []) ++
  (* /[A-Za-z0-9+\/]{20,}={0,2}/ *)
  (if testLit (cats [atLeast 20 (Cls (alnum ++ one "+/")); upTo2 (lit "=")])
              false input
   then [mkIssue encoding low (str "Base64 encoding detected") None]
   else []).

(** [sanitized.replace(pattern, '[REDACTED]')] for each PII pattern; used
    by [sanitizeInput] and by [redactPII]. *)
Fixpoint replaceEach (ps : list RegExp) (s : jsstring) : jsstring * list RegExp :=
  match ps with
  | [] => (s, [])
  | p :: rest =>
      let '(s', p') := replaceAll p s (str "[REDACTED]") in
      let '(s'', rest') := replaceEach rest s' in
      (s'', p' :: rest')
  end.

Definition replaceLit (r : regex) (ci : bool) (s by_ : jsstring) : jsstring :=
  fst (replaceAll (literal r ci true) s by_).

(** /\s+/g, then [trim] *)
Definition collapseSpaces (s : jsstring) : jsstring :=
  trim (replaceLit (plus space) false s (str " ")).

(** /[<>{}]/g *)
Definition stripBrackets (s : jsstring) : jsstring :=
  replaceLit (Cls (one "<>{}")) false s [].

Definition sanitizeInput (f : SafetyFilter) (input : jsstring)
  : jsstring * SafetyFilter :=
  let '(s1, ps) := replaceEach (PII_PATTERNS f) input in
  (stripBrackets (collapseSpaces s1),
   {| PII_PATTERNS := ps; INJECTION_PATTERNS := INJECTION_PATTERNS f |}).

Definition calculateOverallSeverity (found : list ContentIssue) : Severity :=
  if existsb (fun i => isHigh (severity i)) found then high
  else if existsb (fun i => isMedium (severity i)) found then medium
  else low.

(** The predicate of [issues.some(...)] in [validateInput]. *)
Definition blocks (i : ContentIssue) : bool :=
  isHigh (severity i) || (isInjection (type i) && isMedium (severity i)).

(** The issues [validateInput] collects, in the order of its checks. *)
Definition collectIssues (f : SafetyFilter) (input : jsstring)
  : list ContentIssue * SafetyFilter :=
  let tooLong :=
    if MAX_INPUT_LENGTH <? length input
    then [mkIssue length_limit medium
                  (str "Input exceeds maximum length of " ++
                   showNat MAX_INPUT_LENGTH ++ str " characters") None]
    else [] in
  let '(injectionIssues, f1) := checkPromptInjection f input in
  let toxicityIssues := checkToxicity input in
  let '(piiIssues, f2) := checkPII f1 input in
  let encodingIssues := checkEncoding input in
  (tooLong ++ injectionIssues ++ toxicityIssues ++ piiIssues ++ encodingIssues,
   f2).

Definition truncated (input : jsstring) : jsstring :=
  if MAX_INPUT_LENGTH <? length input
  then substring0 MAX_INPUT_LENGTH input else input.

Definition validateInput (f : SafetyFilter) (input : jsstring)
  : ValidationResult * SafetyFilter :=
  let '(found, f1) := collectIssues f input in
  let isBlocked := existsb blocks found in
  let '(clean, f2) :=
    if isBlocked then (truncated input, f1)
    else sanitizeInput f1 (truncated input) in
  ({| isValid := negb isBlocked && (length found =? 0);
      issues := map (fun i => typeName (type i) ++ str ": " ++ description i)
                    found;
      sanitized := if isBlocked then [] else clean;
      overall := calculateOverallSeverity found;
      blocked := isBlocked |}, f2).

Definition containsToxicity (output : jsstring) : bool :=
  let outputLower := toLowerCase output in
  existsb (fun keyword => includes outputLower keyword) TOXIC_KEYWORDS.

(** [PII_PATTERNS.some(pattern => pattern.test(output))]: the patterns
    after the first that matches are not tested. *)
Fixpoint someTest (ps : list RegExp) (output : jsstring) : bool * list RegExp :=
  match ps with
  | [] => (false, [])
  | p :: rest =>
      let '(b, p') := test p output in
      if b then (true, p' :: rest)
      else let '(b', rest') := someTest rest output in (b', p' :: rest')
  end.

Definition containsPII (f : SafetyFilter) (output : jsstring)
  : bool * SafetyFilter :=
  let '(b, ps) := someTest (PII_PATTERNS f) output in
  (b, {| PII_PATTERNS := ps; INJECTION_PATTERNS := INJECTION_PATTERNS f |}).

Definition redactPII (f : SafetyFilter) (output : jsstring)
  : jsstring * SafetyFilter :=
  let '(s, ps) := replaceEach (PII_PATTERNS f) output in
  (s, {| PII_PATTERNS := ps; INJECTION_PATTERNS := INJECTION_PATTERNS f |}).

(** [_\s] *)
Definition underscoreOrSpace : regex :=
  Cls [("_", "_"); ("009", "013"); (" ", " "); ("160", "160")]%char.

(** /openai|anthropic|claude|gpt-/i *)
Definition providerPattern : regex :=
  alts [lit "openai"; lit "anthropic"; lit "claude"; lit "gpt-"].
(** /api[_\s]?key|token|secret/i *)
Definition keyPattern : regex :=
  alts [cats [lit "api"; opt underscoreOrSpace; lit "key"];
        lit "token"; lit "secret"].
(** /error|exception|stack[_\s]?trace/i *)
Definition errorPattern : regex :=
  alts [lit "error"; lit "exception";
        cats [lit "stack"; opt underscoreOrSpace; lit "trace"]].
(** /localhost|127\.0\.0\.1|internal/i *)
Definition addressPattern : regex :=
  alts [lit "localhost"; lit "127.0.0.1"; lit "internal"].

Definition containsSystemInfo (output : jsstring) : bool :=
  existsb (fun r => testLit r true output)
          [providerPattern; keyPattern; errorPattern; addressPattern].

Definition redactSystemInfo (output : jsstring) : jsstring :=
  (* /openai|gpt-\d/gi *)
  let r1 := replaceLit (alts [lit "openai"; cats [lit "gpt-"; digit]]) true
                       output (str "the AI system") in
  (* /anthropic|claude/gi *)
  let r2 := replaceLit (alts [lit "anthropic"; lit "claude"]) true
                       r1 (str "the AI assistant") in
  (* /api[_\s]?key|token|secret/gi *)
  let r3 := replaceLit keyPattern true r2 (str "[SYSTEM INFO]") in
  (* /localhost|127\.0\.0\.1/gi *)
  replaceLit (alts [lit "localhost"; lit "127.0.0.1"]) true
             r3 (str "[INTERNAL ADDRESS]").

Definition apology : jsstring :=
  str "I apologize, but I can't provide that response. Let me try again with a different approach.".

Definition validateOutput (f : SafetyFilter) (output : jsstring)
  : jsstring * SafetyFilter :=
  if containsToxicity output then (apology, f)
  else
    let '(hasPII, f1) := containsPII f output in
    if hasPII then redactPII f1 output
    else if containsSystemInfo output then (redactSystemInfo output, f1)
    else (output, f1).

(** The closure returned by [createStreamFilter], applied to one chunk
    ([buffer] is empty again after every chunk). *)
Definition streamFilter (f : SafetyFilter) (chunk : jsstring)
  : jsstring * SafetyFilter :=
  let '(hasPII, f1) := containsPII f chunk in
  if hasPII || containsSystemInfo chunk
  then redactPII f1 (redactSystemInfo chunk)
  else (chunk, f1).

(** What the calls of a filter leave unchanged in its [RegExp] objects:
    pattern and flags. *)
Definition shape (p : RegExp) : regex * bool * bool :=
  (source p, ignoreCase p, global p).

Definition sameTables (f g : SafetyFilter) : Prop :=
  map shape (PII_PATTERNS f) = map shape (PII_PATTERNS g) /\
  map shape (INJECTION_PATTERNS f) = map shape (INJECTION_PATTERNS g).

(** The states a filter can be in: a new filter, after any calls. *)
Inductive reachable : SafetyFilter -> Prop :=
| reach_new : reachable newFilter
| reach_input f x : reachable f -> reachable (snd (validateInput f x))
| reach_output f x : reachable f -> reachable (snd (validateOutput f x))
| reach_stream f x : reachable f -> reachable (snd (streamFilter f x)).

(** The provider names that must not reach the end user occur in a
    text. *)
Definition namesProvider (text : jsstring) : bool :=
  testLit providerPattern true text.

(** *** The state that the calls of a filter leave behind *)

(** The template pattern of [INJECTION_PATTERNS], the only one of them
    with the flag [g], and the six before it. *)
Definition templatePattern : regex := cats [lit "{{"; Star dot; lit "}}"].

Definition templateExpression : RegExp := literal templatePattern false true.

Definition plainInjections : list RegExp :=
  firstn 6 (INJECTION_PATTERNS newFilter).

(** The expressions of a table are at rest: their [lastIndex] is 0. *)
Definition atRest (ps : list RegExp) : Prop :=
  Forall (fun p => lastIndex p = 0%nat) ps.

(** A filter that has been used: after the call of [validateInput] with
    a template expression. *)
Definition usedFilter : SafetyFilter :=
  snd (validateInput newFilter (str "{{x}}")).

(** *** What the sanitizer makes of a text *)





End Safety.


(** ** services/cacheManager.ts *)

(** [createHash('sha256')] of Node's [crypto]: SHA-256 (FIPS 180-4) on
    32-bit words kept in [N]. *)
Module SHA256.

Definition mask32 : N := 0xffffffff.
Definition w32 (x : N) : N := N.land x mask32.
Definition add32 (x y : N) : N := w32 (x + y).
Definition rotr (n x : N) : N := N.lor (N.shiftr x n) (w32 (N.shiftl x (32 - n))).
Definition not32 (x : N) : N := N.lxor x mask32.

Definition Ch (x y z : N) : N := N.lxor (N.land x y) (N.land (not32 x) z).
Definition Maj (x y z : N) : N :=
  N.lxor (N.lxor (N.land x y) (N.land x z)) (N.land y z).
Definition Sigma0 (x : N) : N := N.lxor (N.lxor (rotr 2 x) (rotr 13 x)) (rotr 22 x).
Definition Sigma1 (x : N) : N := N.lxor (N.lxor (rotr 6 x) (rotr 11 x)) (rotr 25 x).
Definition sigma0 (x : N) : N := N.lxor (N.lxor (rotr 7 x) (rotr 18 x)) (N.shiftr x 3).
Definition sigma1 (x : N) : N := N.lxor (N.lxor (rotr 17 x) (rotr 19 x)) (N.shiftr x 10).

(** The constants are taken from the first primes: the first 32 bits of
    the fractional part of the cube root of each of the first 64 primes
    for the rounds, and of the square root of each of the first 8 for
    the initial hash value. *)
Definition isPrime (n : N) : bool :=
  forallb (fun d => negb (n mod d =? 0)%N)
          (map N.of_nat (seq 2 (N.to_nat n - 2))).

Definition primes : list N :=
  List.filter isPrime (map N.of_nat (seq 2 310)).

(** The integer cube root, one bit after the other. *)
Fixpoint cbrt_go (bit : nat) (n r : N) : N :=
  match bit with
  | O => r
  | S b =>
      let c := (r + 2 ^ N.of_nat b)%N in
      cbrt_go b n (if (c * c * c <=? n)%N then c else r)
  end.

Definition fractionOfCbrt (p : N) : N := w32 (cbrt_go 40 (N.shiftl p 96) 0).
Definition fractionOfSqrt (p : N) : N := w32 (N.sqrt (N.shiftl p 64)).

Definition K : list N := Eval vm_compute in map fractionOfCbrt primes.

Definition H0 : list N := Eval vm_compute in map fractionOfSqrt (firstn 8 primes).

(** Big-endian bytes of a number, [n] of them. *)
Fixpoint be_bytes (n : nat) (x : N) : list N :=
  match n with
  | O => []
  | S k => N.land (N.shiftr x (8 * N.of_nat k)) 0xff :: be_bytes k x
  end.

(** The padded message: a [1] bit, zeros up to 56 modulo 64 bytes, and
    the length in bits on 64 bits. *)
Definition pad (msg : list N) : list N :=
  let len := length msg in
  let zeros := (119 - len mod 64) mod 64 in
  msg ++ [0x80%N] ++ repeat 0%N zeros ++ be_bytes 8 (8 * N.of_nat len).

Fixpoint be_word (bs : list N) (acc : N) : N :=
  match bs with
  | [] => acc
  | b :: t => be_word t (N.lor (N.shiftl acc 8) b)
  end.

(** The words of the message, four bytes each. *)
Fixpoint words (fuel : nat) (bs : list N) : list N :=
  match fuel, bs with
  | S f, _ :: _ => be_word (firstn 4 bs) 0 :: words f (skipn 4 bs)
  | _, _ => []
  end.

(** The message schedule, from the window of the last sixteen words. *)
Fixpoint schedule (n : nat) (win : list N) : list N :=
  match n with
  | O => []
  | S k =>
      let w := fun i => nth i win 0%N in
      let next := add32 (add32 (sigma1 (w 14)) (w 9)) (add32 (sigma0 (w 1)) (w 0)) in
      w 0 :: schedule k (skipn 1 win ++ [next])
  end.

Definition round (st : list N) (kw : N * N) : list N :=
  match st with
  | [a; b; c; d; e; f; g; h] =>
      let t1 := add32 (add32 (add32 h (Sigma1 e)) (add32 (Ch e f g) (fst kw))) (snd kw) in
      let t2 := add32 (Sigma0 a) (Maj a b c) in
      [add32 t1 t2; a; b; c; add32 d t1; e; f; g]
  | _ => st
  end.

Definition compress (h : list N) (block : list N) : list N :=
  let w := schedule 64 block in
  let out := fold_left round (combine K w) h in
  map (fun p => add32 (fst p) (snd p)) (combine h out).

Fixpoint blocks (fuel : nat) (ws : list N) (h : list N) : list N :=
  match fuel, ws with
  | S f, _ :: _ => blocks f (skipn 16 ws) (compress h (firstn 16 ws))
  | _, _ => h
  end.

Definition digest (msg : list N) : list N :=
  let padded := pad msg in
  let ws := words (length padded) padded in
  flat_map (be_bytes 4) (blocks (length ws) ws H0).

Definition hexDigitOf (d : N) : ascii :=
  if (d <? 10)%N then ascii_of_N (48 + d) else ascii_of_N (87 + d).

(** [digest('hex')] *)
Definition hex (bytes : list N) : jsstring :=
  flat_map (fun b => [hexDigitOf (N.shiftr b 4); hexDigitOf (N.land b 0xf)]) bytes.

(** [update(text)] takes the UTF-8 encoding of the string; the code
    units from 128 on take two bytes. *)
Definition utf8 (s : jsstring) : list N :=
  flat_map (fun c =>
              let n := code c in
              if (n <? 128)%N then [n]
              else [N.lor 0xc0 (N.shiftr n 6); N.lor 0x80 (N.land n 0x3f)]) s.

Definition sha256hex (s : jsstring) : jsstring := hex (digest (utf8 s)).

End SHA256.

Module Cache.

Definition CACHE_PREFIX : jsstring := str "research_cache".

Definition hashContent (content : jsstring) : jsstring :=
  substring0 16 (SHA256.sha256hex (trim (toLowerCase content))).

Definition generateCacheKey (type content : jsstring) : jsstring :=
  CACHE_PREFIX ++ str ":" ++ type ++ str ":" ++ hashContent content.

(** The key of [cacheLLMResponse] and [getCachedLLMResponse]: the
    request is serialized as [`${model}:${prompt}`]. *)
Definition llmCacheKey (prompt model : jsstring) : jsstring :=
  generateCacheKey (str "llm") (model ++ str ":" ++ prompt).

(** Two texts that differ only by letter case and white space: equal
    once lower-cased and with all white space taken out. *)
Definition dropSpaces (s : jsstring) : jsstring :=
  List.filter (fun c => negb (isWhiteSpace c)) s.

Definition sameUpToCaseAndSpace (a b : jsstring) : Prop :=
  dropSpaces (toLowerCase a) = dropSpaces (toLowerCase b).

(** Two texts of the same length that differ by letter case only. *)
Definition caseVariant (a b : jsstring) : Prop :=
  Forall2 (fun x y => toLowerChar x = toLowerChar y) a b.

(** *** The cache in its store *)

Local Open Scope Z_scope.

Definition DEFAULT_TTL : Z := 3600.

(** The object that a cache entry holds as JSON text; each writer has
    its own fields. *)
Inductive CacheData : Type :=
| SearchData (response : jsstring) (timestamp : Z) (query : jsstring)
| LLMData (prompt response model : jsstring) (timestamp : Z)
| ResourceData (url content : jsstring) (timestamp : Z)
| ReportData (topic section content : jsstring) (timestamp : Z).

(** The fields that the readers take out of the parsed object; a field
    that is not there is [undefined], here [None]. *)
Definition responseOf (d : CacheData) : option jsstring :=
  match d with
  | SearchData r _ _ | LLMData _ r _ _ => Some r
  | ResourceData _ _ _ | ReportData _ _ _ _ => None
  end.

Definition contentOf (d : CacheData) : option jsstring :=
  match d with
  | ResourceData _ c _ | ReportData _ _ c _ => Some c
  | SearchData _ _ _ | LLMData _ _ _ _ => None
  end.

Definition timestampOf (d : CacheData) : Z :=
  match d with
  | SearchData _ t _ | LLMData _ _ _ t | ResourceData _ _ t
  | ReportData _ _ _ t => t
  end.

(** An entry of the Redis store, with the time at which it expires. *)
Record entry : Type := mkEntry {
  data : CacheData;
  expiresAt : Z
}.

Definition store : Type := gmap (list ascii) entry.

(** The entries that have not expired at time [now]: what the commands
    of Redis see. *)
Definition live (now : Z) (m : store) : store :=
  filter (fun kv => now < expiresAt (snd kv)) m.

(** [redis.setEx(key, ttl, text)], with [ttl] in seconds; Redis refuses
    a time to live that is not positive ([None]). *)
Definition setEx (m : store) (now : Z) (key : list ascii) (ttl : Z)
    (d : CacheData) : option store :=
  if ttl <=? 0 then None
  else Some (<[key := {| data := d; expiresAt := now + ttl * 1000 |}]> m).

Record CacheOptions : Type := mkOptions {
  ttl : option Z;
  prefix : option jsstring
}.

(** [options.ttl || this.DEFAULT_TTL] and [options.prefix || 'search'] *)
Definition ttlOf (options : CacheOptions) : Z :=
  match ttl options with
  | Some 0 | None => DEFAULT_TTL
  | Some t => t
  end.

Definition prefixOf (options : CacheOptions) : jsstring :=
  match prefix options with
  | Some (c :: p) => c :: p
  | _ => str "search"
  end.

(** [cacheResponse(query, response, options)] at time [now]; when Redis
    refuses the command the exception is caught and nothing is stored. *)
Definition cacheResponse (m : store) (query response : jsstring)
    (options : CacheOptions) (now : Z) : store :=
  let cacheKey := generateCacheKey (prefixOf options) query in
  default m (setEx m now cacheKey (ttlOf options)
                   (SearchData response now (substring0 100 query))).

(** The readers: the entry under the key, if it is there and younger
    than [maxAge] milliseconds; an entry that is older is deleted. *)
Definition readEntry (m : store) (cacheKey : list ascii) (maxAge now : Z)
  : option CacheData * store :=
  match live now m !! cacheKey with
  | Some e =>
      if now - timestampOf (data e) <? maxAge then (Some (data e), m)
      else (None, delete cacheKey m)
  | None => (None, m)
  end.

(** [getCachedResponse(searchQuery)] at time [now]: the response, or
    [None] for [null] (and for a response that is [undefined]). *)
Definition getCachedResponse (m : store) (searchQuery : jsstring) (now : Z)
  : option jsstring * store :=
  let '(d, m') := readEntry m (generateCacheKey (str "search") searchQuery)
                            3600000 now in
  (d ≫= responseOf, m').

Definition cacheLLMResponse (m : store) (prompt response model : jsstring)
    (now : Z) : store :=
  default m (setEx m now (llmCacheKey prompt model) 86400
                   (LLMData (substring0 200 prompt) response model now)).

Definition getCachedLLMResponse (m : store) (prompt model : jsstring) (now : Z)
  : option jsstring * store :=
  let '(d, m') := readEntry m (llmCacheKey prompt model) 86400000 now in
  (d ≫= responseOf, m').

Definition cacheResourceContent (m : store) (url content : jsstring) (now : Z)
  : store :=
  default m (setEx m now (generateCacheKey (str "resource") url) 21600
                   (ResourceData url content now)).

Definition getCachedResourceContent (m : store) (url : jsstring) (now : Z)
  : option jsstring * store :=
  let '(d, m') := readEntry m (generateCacheKey (str "resource") url)
                            21600000 now in
  (d ≫= contentOf, m').

Definition cacheReportSection (m : store) (topic section content : jsstring)
    (now : Z) : store :=
  default m (setEx m now
                   (generateCacheKey (str "report") (topic ++ str ":" ++ section))
                   7200 (ReportData topic section content now)).

(** [redis.keys(prefix + '*')], for a prefix without the special
    characters of Redis patterns. *)
Definition keysWithPrefix (m : store) (p : jsstring) : list (list ascii) :=
  List.filter (fun k => startsWith k p) (map fst (map_to_list m)).

(** [clearCache(type)] at time [now]: the number of entries deleted and
    the store afterwards; without a type, or with the empty one, all the
    entries of the cache go.  The pattern of [redis.keys] ends in a star
    and is read as a prefix: the type is taken without the special
    characters of a pattern of Redis. *)
Definition clearCache (m : store) (type : option jsstring) (now : Z)
  : nat * store :=
  let pattern :=
    match type with
    | Some (c :: t) => CACHE_PREFIX ++ str ":" ++ (c :: t) ++ str ":"
    | _ => CACHE_PREFIX ++ str ":"
    end in
  let keys := keysWithPrefix (live now m) pattern in
  (length keys, fold_right delete m keys).

End Cache.

(** ** utils/tokenValidator.ts *)

Module Token.

Local Open Scope Z_scope.

Inductive outcome (A : Type) : Type :=
| Returns : A -> outcome A
| Throws : jsstring -> outcome A.
Arguments Returns {A} _.
Arguments Throws {A} _.

Record TokenValidationResult : Type := mkTokenResult {
  isValid : bool;
  tokenCount : Z;
  chunks : list jsstring;
  warnings : list jsstring
}.

Definition MAX_TOKENS : Z := 28000.
Definition OVERLAP_TOKENS : Z := 500.

Definition contextTooLarge : jsstring :=
  str "Context too large, cannot chunk effectively".

Definition LF : jsstring := ["010"%char].
Definition paragraphBreak : jsstring := LF ++ LF.



Definition nonEmpty (s : jsstring) : bool :=
  match s with [] => false | _ => true end.

(** The state of the loop of [intelligentChunk]. *)
Record chunking : Type := mkChunking {
  done : list jsstring;          (* [chunks] *)
  currentChunk : jsstring;
  currentTokens : Z
}.

(** /[.!?]+/ *)
Definition sentenceEnd : RegExp := literal (plus (Cls (Safety.one ".!?"))) false false.

Definition sentencesOf (paragraph : jsstring) : list jsstring :=
  List.filter (fun s => nonEmpty (trim s)) (splitRegExp sentenceEnd paragraph).

Section Estimate.

(** [encode(text).length] of the package gpt-3-encoder, which is not
    part of the repository: the number of tokens of a text, or [None]
    when [encode] throws. *)
Variable encode : jsstring -> option nat.

(** [Math.ceil(text.length / 4)] is the fallback. *)
Definition estimateTokens (text : jsstring) : Z :=
  match encode text with
  | Some n => Z.of_nat n
  | None => (Z.of_nat (length text) + 3) / 4
  end.

Definition addSentence (availableTokens : Z) (st : chunking) (sentence : jsstring)
  : chunking :=
  let sentenceTokens := estimateTokens sentence in
  if availableTokens <? currentTokens st + sentenceTokens
  then {| done := if nonEmpty (currentChunk st)
                  then done st ++ [trim (currentChunk st)] else done st;
          currentChunk := sentence ++ str ".";
          currentTokens := sentenceTokens |}
  else {| done := done st;
          currentChunk := currentChunk st ++
                          (if nonEmpty (currentChunk st) then str " " else []) ++
                          sentence ++ str ".";
          currentTokens := currentTokens st + sentenceTokens |}.

Definition flush (st : chunking) : chunking :=
  if nonEmpty (currentChunk st)
  then {| done := done st ++ [trim (currentChunk st)];
          currentChunk := []; currentTokens := 0 |}
  else st.

Definition addParagraph (availableTokens : Z) (st : chunking) (paragraph : jsstring)
  : chunking :=
  let paragraphTokens := estimateTokens paragraph in
  if availableTokens <? paragraphTokens
  then fold_left (addSentence availableTokens) (sentencesOf paragraph) (flush st)
  else if availableTokens <? currentTokens st + paragraphTokens
  then {| done := done st ++ [trim (currentChunk st)];
          currentChunk := paragraph;
          currentTokens := paragraphTokens |}
  else {| done := done st;
          currentChunk := currentChunk st ++
                          (if nonEmpty (currentChunk st) then paragraphBreak else []) ++
                          paragraph;
          currentTokens := currentTokens st + paragraphTokens |}.

Definition availableFor (context : list jsstring) : Z :=
  MAX_TOKENS - estimateTokens (join LF context) - OVERLAP_TOKENS.

Definition intelligentChunk (content : jsstring) (context : list jsstring)
  : outcome (list jsstring) :=
  let availableTokens := availableFor context in
  if availableTokens <=? 0 then Throws contextTooLarge
  else
    let paragraphs := split paragraphBreak content in
    let st := fold_left (addParagraph availableTokens) paragraphs
                        {| done := []; currentChunk := []; currentTokens := 0 |} in
    let all := if nonEmpty (trim (currentChunk st))
               then done st ++ [trim (currentChunk st)] else done st in
    Returns (match all with [] => [content] | _ => all end).

Definition validateAndChunk (content : jsstring) (context : list jsstring)
  : outcome TokenValidationResult :=
  let fullText := content ++ LF ++ join LF context in
  let totalTokens := estimateTokens fullText in
  if totalTokens <=? MAX_TOKENS
  then Returns {| isValid := true; tokenCount := totalTokens;
                  chunks := [content]; warnings := [] |}
  else
    match intelligentChunk content context with
    | Throws e => Throws e
    | Returns cs =>
        Returns {| isValid := false; tokenCount := totalTokens;
                   chunks := cs;
                   warnings := [str "Content exceeds " ++ showZ MAX_TOKENS ++
                                str " tokens (" ++ showZ totalTokens ++
                                str "). Chunking required."] |}
    end.

(** What the loop puts into the chunks for one paragraph: the paragraph
    itself when it is within the capacity, its sentences otherwise. *)
Definition piecesOf (availableTokens : Z) (paragraph : jsstring) : list jsstring :=
  if availableTokens <? estimateTokens paragraph
  then sentencesOf paragraph else [paragraph].

End Estimate.

(** A tokenizer that always throws: every estimate is the fallback of
    the source, four characters a token. *)
Definition noEncoder : jsstring -> option nat := fun _ => None.

(** [x] occurs in [c]. *)
Definition occursIn (x c : jsstring) : Prop := exists u v, c = u ++ x ++ v.

(** A piece of the content is kept by a state of the loop: it occurs,
    trimmed, in a finished chunk, or as it is in the current chunk. *)
Definition kept (st : chunking) (x : jsstring) : Prop :=
  (exists c, In c (done st) /\ occursIn (trim x) c) \/
  occursIn x (currentChunk st).

(** The texts [xs] occur in [s] one after the other, in this order and
    without overlap. *)
Inductive threaded : list jsstring -> jsstring -> Prop :=
| threaded_nil s : threaded [] s
| threaded_cons x xs u rest :
    threaded xs rest -> threaded (x :: xs) (u ++ x ++ rest).

(** A state of the loop of [intelligentChunk] has the pieces [xs] in it:
    the first of them run, trimmed, through the finished chunks and the
    others through the current chunk. *)
Definition holdsPieces (st : chunking) (xs : list jsstring) : Prop :=
  exists ys zs, xs = ys ++ zs /\
                threaded (map trim ys) (concat (done st)) /\
                threaded zs (currentChunk st).

Definition chars (n : N) (c : ascii) : jsstring := repeat c (N.to_nat n).

(** An over-budget call: a context of 108,000 characters (27,000
    tokens, which leaves a chunk capacity of 500 tokens) and a content of
    one paragraph with two sentences of 2,100 characters each. *)
Definition longContext : list jsstring := [chars 108000 "x"].
Definition twoSentences : jsstring :=
  chars 2100 "a" ++ str "! " ++ chars 2100 "b" ++ str "?".

(** *** Messages *)

Section Messages.

Variable encode : jsstring -> option nat.

(** [validateMessage(message, systemPrompt)] *)
Definition validateMessage (message systemPrompt : jsstring) : bool :=
  estimateTokens encode (message ++ systemPrompt) <=? MAX_TOKENS.

End Messages.

(** A text without white space at its ends. *)
Definition trimmed (s : jsstring) : Prop := trim s = s.

End Token.

(** ** services/llmGateway.ts *)

Module Gateway.

Import Token.

Local Open Scope Z_scope.

(** A provider; [instance], the client of the provider's API, is the
    environment and does not appear.  [costPerToken] is kept in
    billionths of a dollar. *)
Record LLMProvider : Type := mkProvider {
  name : jsstring;
  model : jsstring;
  priority : Z;
  maxTokens : Z;
  costPerToken : Z
}.

Record LLMResponse : Type := mkResponse {
  content : jsstring;
  provider : jsstring;
  responseModel : jsstring;       (* the field [model] of the response *)
  tokensUsed : Z;
  cost : Z;
  duration : Z
}.

Record LLMGateway : Type := mkGateway {
  providers : list LLMProvider;
  healthStatus : gmap (list ascii) bool;
  lastHealthCheck : gmap (list ascii) Z
}.

Definition HEALTH_CHECK_INTERVAL : Z := 300000.

(** [`${provider.name}-${provider.model}`] *)
Definition keyOf (p : LLMProvider) : list ascii := name p ++ str "-" ++ model p.

(** [providers.sort((a, b) => a.priority - b.priority)]: the sort of
    arrays is stable. *)
Fixpoint insertByPriority (p : LLMProvider) (ps : list LLMProvider)
  : list LLMProvider :=
  match ps with
  | [] => [p]
  | q :: rest =>
      if priority q <? priority p then q :: insertByPriority p rest
      else p :: ps
  end.

Definition sortByPriority (ps : list LLMProvider) : list LLMProvider :=
  fold_right insertByPriority [] ps.

Definition gpt4o : LLMProvider :=
  mkProvider (str "openai") (str "gpt-4o") 1 30000 30000.
Definition gpt35 : LLMProvider :=
  mkProvider (str "openai") (str "gpt-3.5-turbo") 3 16000 2000.
Definition claude : LLMProvider :=
  mkProvider (str "anthropic") (str "claude-3-5-sonnet-20240620") 2 200000 15000.
Definition gemini : LLMProvider :=
  mkProvider (str "google") (str "gemini-1.5-pro") 4 1000000 7500.

(** The constructor and [initializeProviders]; the arguments say which
    of OPENAI_API_KEY, ANTHROPIC_API_KEY and GOOGLE_API_KEY are set. *)
Definition newGateway (openaiKey anthropicKey googleKey : bool) : LLMGateway :=
  let pushed :=
    (if openaiKey then [gpt4o; gpt35] else []) ++
    (if anthropicKey then [claude] else []) ++
    (if googleKey then [gemini] else []) in
  let sorted := sortByPriority pushed in
  {| providers := sorted;
     healthStatus :=
       fold_left (fun m p => <[keyOf p := true]> m) sorted ∅;
     lastHealthCheck :=
       fold_left (fun m p => <[keyOf p := 0]> m) sorted ∅ |}.

(** [healthStatus.get(key)] as a condition: a missing entry is falsy. *)
Definition isHealthy (health : gmap (list ascii) bool) (p : LLMProvider) : bool :=
  default false (health !! keyOf p).

(** [lastHealthCheck.get(key) || 0] *)
Definition lastCheck (checks : gmap (list ascii) Z) (p : LLMProvider) : Z :=
  default 0 (checks !! keyOf p).

(** The filter of [getAvailableProviders]; its callback re-enables a
    provider whose last failure is more than the interval ago. *)
Fixpoint filterAvailable (now : Z) (checks : gmap (list ascii) Z)
    (ps : list LLMProvider) (health : gmap (list ascii) bool)
  : list LLMProvider * gmap (list ascii) bool :=
  match ps with
  | [] => ([], health)
  | p :: rest =>
      if negb (isHealthy health p) && (HEALTH_CHECK_INTERVAL <? now - lastCheck checks p)
      then let '(kept, health') :=
             filterAvailable now checks rest (<[keyOf p := true]> health) in
           (p :: kept, health')
      else let '(kept, health') := filterAvailable now checks rest health in
           (if isHealthy health p then p :: kept else kept, health')
  end.

Definition getAvailableProviders (g : LLMGateway) (now : Z)
  : list LLMProvider * LLMGateway :=
  let '(kept, health) :=
    filterAvailable now (lastHealthCheck g) (providers g) (healthStatus g) in
  (kept, {| providers := providers g; healthStatus := health;
            lastHealthCheck := lastHealthCheck g |}).

(** What a call of a provider does, with the readings of the clock
    around it: a reply, or an exception caught at some time. *)
Inductive attempt : Type :=
| Replied (text : jsstring) (startTime endTime : Z)
| Failed (caughtAt : Z).

(** [Math.ceil(totalText.length / 4)] *)
Definition estimateTokensUsed (messages : list jsstring) (response : jsstring) : Z :=
  (Z.of_nat (length (join (str " ") messages ++ response)) + 3) / 4.

Definition calculateCost (p : LLMProvider) (messages : list jsstring)
    (response : jsstring) : Z :=
  estimateTokensUsed messages response * costPerToken p.

Definition responseOf (p : LLMProvider) (messages : list jsstring)
    (text : jsstring) (startTime endTime : Z) : LLMResponse :=
  {| content := text; provider := name p; responseModel := model p;
     tokensUsed := estimateTokensUsed messages text;
     cost := calculateCost p messages text;
     duration := endTime - startTime |}.

Definition allFailed : jsstring := str "All LLM providers failed".

(** What one call of [generateResponse] does: its result, the providers
    it has called, in order, and the gateway afterwards. *)
Record invocation : Type := mkInvocation {
  result : outcome LLMResponse;
  attempts : list LLMProvider;
  after : LLMGateway
}.

(** The loop of [generateResponse] over the available providers. *)
Fixpoint tryProviders (call : LLMProvider -> attempt) (messages : list jsstring)
    (ps : list LLMProvider) (g : LLMGateway) : invocation :=
  match ps with
  | [] => {| result := Throws allFailed; attempts := []; after := g |}
  | p :: rest =>
      match call p with
      | Replied text startTime endTime =>
          {| result := Returns (responseOf p messages text startTime endTime);
             attempts := [p];
             after := {| providers := providers g;
                         healthStatus := <[keyOf p := true]> (healthStatus g);
                         lastHealthCheck := lastHealthCheck g |} |}
      | Failed caughtAt =>
          let g' := {| providers := providers g;
                       healthStatus := <[keyOf p := false]> (healthStatus g);
                       lastHealthCheck := <[keyOf p := caughtAt]> (lastHealthCheck g) |} in
          let r := tryProviders call messages rest g' in
          {| result := result r; attempts := p :: attempts r; after := after r |}
      end
  end.

(** [generateResponse(messages)], called at time [now] in a world where
    the providers answer as [call] says, when nothing else touches the
    gateway while the call waits for its providers.  The calls of one
    gateway can overlap, for [generateResponse] is asynchronous: [step]
    below has the gateway event by event, and this function is the run of
    the events of one call with no event of another call in between. *)
Definition generateResponse (g : LLMGateway) (messages : list jsstring)
    (now : Z) (call : LLMProvider -> attempt) : invocation :=
  let '(available, g1) := getAvailableProviders g now in
  tryProviders call messages available g1.

(** A series of calls of [generateResponse] that do not overlap: each
    has returned or thrown when the next one starts. *)
Fixpoint generateResponses (g : LLMGateway) (messages : list jsstring)
    (calls : list (Z * (LLMProvider -> attempt))) : list invocation :=
  match calls with
  | [] => []
  | (now, call) :: rest =>
      let r := generateResponse g messages now call in
      r :: generateResponses (after r) messages rest
  end.

(** The gateway after such a series of calls. *)
Definition afterAll (g : LLMGateway) (messages : list jsstring)
    (calls : list (Z * (LLMProvider -> attempt))) : LLMGateway :=
  fold_left (fun g c => after (generateResponse g messages (fst c) (snd c))) calls g.

Definition failed (a : attempt) : bool :=
  match a with Failed _ => true | Replied _ _ _ => false end.

(** [A], which ranks after the providers [higher] and before the
    providers [lower], is marked unhealthy since [tA]. *)
Definition down (A : LLMProvider) (tA : Z) (higher lower : list LLMProvider)
    (g : LLMGateway) : Prop :=
  providers g = higher ++ A :: lower /\
  healthStatus g !! keyOf A = Some false /\
  lastHealthCheck g !! keyOf A = Some tA.

(** Two worlds for the examples: the provider of priority 1 fails at
    time 1005 and the others reply; and every provider fails. *)
Definition primaryDown (p : LLMProvider) : attempt :=
  if priority p =? 1 then Failed 1005 else Replied (str "hi") 1006 1010.
Definition allDown (p : LLMProvider) : attempt := Failed 5001.

(** A gateway with all three keys set, after a call at time 1000 in
    which gpt-4o has failed and Claude has replied. *)
Definition secondGateway : LLMGateway :=
  after (generateResponse (newGateway true true true) [str "q"] 1000 primaryDown).

(** A world in which Claude fails at time 2005 and the others reply. *)
Definition claudeDown (p : LLMProvider) : attempt :=
  if priority p =? 2 then Failed 2005 else Replied (str "hi") 2006 2010.

(** *** Calls that overlap

    [generateResponse] runs from one [await] to the next without
    interruption: from its start to the call of the first available
    provider, and from the reply or the exception of a provider to the
    return, to the call of the next provider or to the final error.  In
    between, other calls of the same gateway run. *)

Inductive event : Type :=
| Starts (id : nat) (messages : list jsstring) (now : Z)
    (* a call of [generateResponse] begins *)
| Settles (id : nat) (a : attempt).
    (* the provider that call [id] waits for replies or throws *)

(** What a step lets the world see. *)
Inductive note : Type :=
| Calls (id : nat) (p : LLMProvider)
| Returned (id : nat) (response : LLMResponse)
| Threw (id : nat) (error : jsstring).

(** The gateway and the calls that wait: for each its messages and the
    providers it has still to go through, the first being the one it
    waits for. *)
Record world : Type := mkWorld {
  gateway : LLMGateway;
  pending : gmap nat (list jsstring * list LLMProvider)
}.

Definition step (w : world) (e : event) : world * list note :=
  match e with
  | Starts id messages now =>
      let '(available, g1) := getAvailableProviders (gateway w) now in
      match available with
      | [] => ({| gateway := g1; pending := pending w |}, [Threw id allFailed])
      | p :: rest =>
          ({| gateway := g1;
              pending := <[id := (messages, p :: rest)]> (pending w) |},
           [Calls id p])
      end
  | Settles id a =>
      match pending w !! id with
      | Some (messages, p :: rest) =>
          let g := gateway w in
          match a with
          | Replied text startTime endTime =>
              ({| gateway :=
                    {| providers := providers g;
                       healthStatus := <[keyOf p := true]> (healthStatus g);
                       lastHealthCheck := lastHealthCheck g |};
                  pending := delete id (pending w) |},
               [Returned id (responseOf p messages text startTime endTime)])
          | Failed caughtAt =>
              let g' :=
                {| providers := providers g;
                   healthStatus := <[keyOf p := false]> (healthStatus g);
                   lastHealthCheck := <[keyOf p := caughtAt]> (lastHealthCheck g) |} in
              match rest with
              | [] => ({| gateway := g'; pending := delete id (pending w) |},
                       [Threw id allFailed])
              | q :: _ =>
                  ({| gateway := g';
                      pending := <[id := (messages, rest)]> (pending w) |},
                   [Calls id q])
              end
          end
      | _ => (w, [])          (* no call [id] is waiting *)
      end
  end.

Fixpoint run (w : world) (events : list event) : world * list note :=
  match events with
  | [] => (w, [])
  | e :: rest =>
      let '(w1, seen) := step w e in
      let '(w2, later) := run w1 rest in
      (w2, seen ++ later)
  end.

(** The events of one call that nothing interrupts, in a world where
    the providers answer as [call] says. *)
Definition eventsOf (id : nat) (g : LLMGateway) (messages : list jsstring)
    (now : Z) (call : LLMProvider -> attempt) : list event :=
  Starts id messages now ::
  map (fun p => Settles id (call p)) (attempts (generateResponse g messages now call)).

Definition endOf (id : nat) (r : invocation) : note :=
  match result r with
  | Returns response => Returned id response
  | Throws error => Threw id error
  end.

(** Two calls that overlap: call 1 starts at time 1000 and waits for
    gpt-4o; call 2 starts at 1001, gpt-4o throws for it at 1005 and
    Claude replies; then gpt-4o replies to call 1; call 3 starts at 2000. *)
Definition overlapping : list event :=
  [Starts 1 [str "q"] 1000;
   Starts 2 [str "q"] 1001;
   Settles 2 (Failed 1005);
   Settles 2 (Replied (str "hi") 1006 1010);
   Settles 1 (Replied (str "late") 1000 1020);
   Starts 3 [str "q"] 2000].

(** *** Health and choice of a provider *)

(** [getProviderHealth()]: the record of the providers' health, by key;
    [healthStatus.get(key) || false]. *)
Definition getProviderHealth (g : LLMGateway) : gmap (list ascii) bool :=
  fold_left (fun health p => <[keyOf p := isHealthy (healthStatus g) p]> health)
            (providers g) ∅.

(** The tasks of [getBestProvider]; [otherTask] is any other value, for
    which the [switch] takes its default branch. *)
Inductive Task : Type :=
| summarization | search | writing | analysis | otherTask.

(** [available.sort((a, b) => a.costPerToken - b.costPerToken)]: the
    sort of arrays is stable. *)
Fixpoint insertByCost (p : LLMProvider) (ps : list LLMProvider)
  : list LLMProvider :=
  match ps with
  | [] => [p]
  | q :: rest =>
      if costPerToken q <? costPerToken p then q :: insertByCost p rest
      else p :: ps
  end.

Definition sortByCost (ps : list LLMProvider) : list LLMProvider :=
  fold_right insertByCost [] ps.

(** [p.model.includes('gpt-4') || p.model.includes('claude-3')] *)
Definition mostCapable (p : LLMProvider) : bool :=
  includes (model p) (str "gpt-4") || includes (model p) (str "claude-3").

(** [p.model.includes('gpt-3.5') || p.model.includes('claude')] *)
Definition balanced (p : LLMProvider) : bool :=
  includes (model p) (str "gpt-3.5") || includes (model p) (str "claude").

(** [getBestProvider(task)] at time [now]: [None] is [null]. *)
Definition getBestProvider (g : LLMGateway) (task : Task) (now : Z)
  : option LLMProvider * LLMGateway :=
  let '(available, g1) := getAvailableProviders g now in
  (match available with
   | [] => None
   | first :: _ =>
       match task with
       | search => head (sortByCost available)
       | analysis | writing =>
           Some (default first (List.find mostCapable available))
       | summarization =>
           Some (default first (List.find balanced available))
       | otherTask => Some first
       end
   end, g1).

(** A provider is taken at time [now]: it is healthy, or its last
    failure is more than the interval ago. *)
Definition takenAt (now : Z) (g : LLMGateway) (p : LLMProvider) : bool :=
  isHealthy (healthStatus g) p ||
  (HEALTH_CHECK_INTERVAL <? now - lastCheck (lastHealthCheck g) p).

End Gateway.

(** ** services/modelRouter.ts *)

Module Router.

Import Token Gateway.

Local Open Scope Z_scope.

Inductive Complexity : Type := lowComplexity | mediumComplexity | highComplexity.

Inductive TaskType : Type :=
| summarizationTask | searchTask | writingTask | analysisTask | generalTask.

Definition complexityName (c : Complexity) : jsstring :=
  match c with
  | lowComplexity => str "low"
  | mediumComplexity => str "medium"
  | highComplexity => str "high"
  end.

Definition taskTypeName (t : TaskType) : jsstring :=
  match t with
  | summarizationTask => str "summarization"
  | searchTask => str "search"
  | writingTask => str "writing"
  | analysisTask => str "analysis"
  | generalTask => str "general"
  end.

(** The analysis of a task.  [estimatedCost] is kept in millionths of a
    dollar: the source multiplies the tokens by 0.00002 and by a cost
    multiplier that is a number of tenths. *)
Record TaskAnalysis : Type := mkAnalysis {
  complexity : Complexity;
  taskType : TaskType;
  estimatedTokens : Z;
  estimatedCost : Z;
  recommendedModel : jsstring;
  reasoning : jsstring
}.

Record ModelSelection : Type := mkSelection {
  provider : LLMProvider;
  selectionReasoning : jsstring;       (* the field [reasoning] *)
  selectionCost : Z;                   (* the field [estimatedCost] *)
  fallbackOptions : list LLMProvider
}.

Definition identifyTaskType (task input : jsstring) : TaskType :=
  let taskLower := toLowerCase task in
  let inputLower := toLowerCase input in
  if includes taskLower (str "search") || includes taskLower (str "find") ||
     includes inputLower (str "search for") ||
     includes inputLower (str "find information")
  then searchTask
  else if includes taskLower (str "write") || includes taskLower (str "create") ||
          includes taskLower (str "generate") || includes inputLower (str "write a")
  then writingTask
  else if includes taskLower (str "analyze") || includes taskLower (str "analysis") ||
          includes taskLower (str "compare") ||
          includes inputLower (str "what does this mean")
  then analysisTask
  else if includes taskLower (str "summary") || includes taskLower (str "summarize") ||
          includes inputLower (str "summarize") ||
          includes inputLower (str "brief overview")
  then summarizationTask
  else generalTask.

(** [context?.join(' ')], the empty text when there is no context. *)
Definition joined (context : option (list jsstring)) : jsstring :=
  match context with
  | Some parts => join (str " ") parts
  | None => []
  end.

(** The four patterns of [complexPatterns], each [/\b(...)\b/i]. *)
Definition wordOf (words : list string) : regex :=
  cats [WordB; alts (map lit words); WordB].

Definition complexPatterns : list regex :=
  [ wordOf ["analyze"; "analysis"; "compare"; "contrast"; "evaluate"]%string;
    wordOf ["complex"; "complicated"; "intricate"; "sophisticated"]%string;
    wordOf ["multiple"; "various"; "several"; "different"]%string;
    wordOf ["detailed"; "comprehensive"; "thorough"; "in-depth"]%string ].

Definition patternMatches (input : jsstring) : Z :=
  fold_left (fun count pattern =>
               count + (if Safety.testLit pattern true input then 1 else 0))
            complexPatterns 0.

Definition lengthScore (input : jsstring) : Z :=
  let inputLength := Z.of_nat (length input) in
  if inputLength <? 200 then 1 else if inputLength <? 1000 then 2 else 3.

Definition contextScore (context : option (list jsstring)) : Z :=
  let contextLength := Z.of_nat (length (joined context)) in
  if 2000 <? contextLength then 2 else if 500 <? contextLength then 1 else 0.

Definition taskScore (t : TaskType) : Z :=
  match t with
  | searchTask => 1
  | summarizationTask => 2
  | writingTask => 3
  | analysisTask => 4
  | generalTask => 2
  end.

Definition complexityScore (input : jsstring) (t : TaskType)
    (context : option (list jsstring)) : Z :=
  lengthScore input + contextScore context + taskScore t + patternMatches input.

Definition estimateComplexity (input : jsstring) (t : TaskType)
    (context : option (list jsstring)) : Complexity :=
  let score := complexityScore input t context in
  if score <=? 4 then lowComplexity
  else if score <=? 7 then mediumComplexity
  else highComplexity.

Definition isLow (c : Complexity) : bool :=
  match c with lowComplexity => true | _ => false end.
Definition isHighComplexity (c : Complexity) : bool :=
  match c with highComplexity => true | _ => false end.

Definition gpt35Model : jsstring := str "gpt-3.5-turbo".
Definition gpt4oModel : jsstring := str "gpt-4o".
Definition claudeModel : jsstring := str "claude-3-5-sonnet-20240620".

(** [generateRecommendation]: the model, the reasoning and the cost
    multiplier in tenths. *)
Definition recommendation (t : TaskType) (c : Complexity)
  : jsstring * jsstring * Z :=
  match t with
  | searchTask =>
      (if isLow c then gpt35Model else gpt4oModel,
       str "Search queries benefit from fast, cost-effective models",
       if isLow c then 1 else 5)
  | summarizationTask =>
      if isLow c
      then (gpt35Model, str "Simple summarization works well with GPT-3.5", 2)
      else (claudeModel,
            str "Complex summarization benefits from Claude's comprehension", 3)
  | writingTask =>
      if isHighComplexity c
      then (gpt4oModel, str "High-quality writing requires GPT-4's creativity", 8)
      else (claudeModel, str "Claude excels at structured writing tasks", 4)
  | analysisTask =>
      (if isHighComplexity c then gpt4oModel else claudeModel,
       str "Analysis tasks require the most capable models", 9)
  | generalTask =>
      (if isLow c then gpt35Model else gpt4oModel,
       str "General tasks use balanced model selection", 5)
  end.

Section Estimate.

Variable encode : jsstring -> option nat.

Definition analyzeTask (task input : jsstring) (context : option (list jsstring))
  : TaskAnalysis :=
  let t := identifyTaskType task input in
  let c := estimateComplexity input t context in
  let tokens := estimateTokens encode (input ++ joined context) in
  let '(model, why, tenths) := recommendation t c in
  {| complexity := c; taskType := t; estimatedTokens := tokens;
     estimatedCost := tokens * 2 * tenths;
     recommendedModel := model; reasoning := why |}.

End Estimate.

(** [p.model === analysis.recommendedModel] *)
Definition hasModel (m : jsstring) (p : LLMProvider) : bool :=
  bool_decide (Gateway.model p = m).

(** [p.model.includes('gpt-4') || p.model.includes('claude')] *)
Definition creative (p : LLMProvider) : bool :=
  includes (Gateway.model p) (str "gpt-4") || includes (Gateway.model p) (str "claude").

(** [p.model.includes('claude') || p.model.includes('gpt-3.5')] *)
Definition balancedChoice (p : LLMProvider) : bool :=
  includes (Gateway.model p) (str "claude") || includes (Gateway.model p) (str "gpt-3.5").

(** [getBestProviderForTask(analysis)] on the providers that the
    gateway says are available. *)
Definition bestOf (available : list LLMProvider) (analysis : TaskAnalysis)
  : option LLMProvider :=
  match available with
  | [] => None
  | first :: _ =>
      match List.find (hasModel (recommendedModel analysis)) available with
      | Some preferred => Some preferred
      | None =>
          match taskType analysis with
          | searchTask => head (sortByCost available)
          | analysisTask => Some (default first (List.find mostCapable available))
          | writingTask => Some (default first (List.find creative available))
          | summarizationTask =>
              Some (default first (List.find balancedChoice available))
          | generalTask => Some first
          end
      end
  end.

(** [calculateSuitability(provider, analysis)]; the cost of a token is
    in billionths of a dollar, so that 0.00001 is 10,000. *)
Definition calculateSuitability (p : LLMProvider) (analysis : TaskAnalysis) : Z :=
  let m := Gateway.model p in
  let base :=
    if includes m (str "gpt-4") then 5
    else if includes m (str "claude-3") then 4
    else if includes m (str "gpt-3.5") then 3
    else 2 in
  let bonus :=
    match taskType analysis with
    | searchTask => if costPerToken p <? 10000 then 3 else 0
    | analysisTask =>
        if includes m (str "gpt-4") || includes m (str "claude-3") then 3 else 0
    | writingTask =>
        (if includes m (str "gpt-4") then 2 else 0) +
        (if includes m (str "claude") then 2 else 0)
    | _ => 0
    end in
  let high :=
    if isHighComplexity (complexity analysis) && (50000 <? maxTokens p)
    then 2 else 0 in
  let low :=
    if isLow (complexity analysis) && (costPerToken p <? 10000) then 1 else 0 in
  base + bonus + high + low.

(** [sort((a, b) => suitabilityB - suitabilityA)]: the most suitable
    first; the sort of arrays is stable. *)
Fixpoint insertBySuitability (analysis : TaskAnalysis) (p : LLMProvider)
    (ps : list LLMProvider) : list LLMProvider :=
  match ps with
  | [] => [p]
  | q :: rest =>
      if calculateSuitability p analysis <? calculateSuitability q analysis
      then q :: insertBySuitability analysis p rest
      else p :: ps
  end.

Definition sortBySuitability (analysis : TaskAnalysis) (ps : list LLMProvider)
  : list LLMProvider :=
  fold_right (insertBySuitability analysis) [] ps.

(** The more suitable comes first. *)
Definition moreSuitable (a : TaskAnalysis) (p q : LLMProvider) : Prop :=
  calculateSuitability q a <= calculateSuitability p a.

#[global] Instance LLMProvider_eq_dec : EqDecision LLMProvider.
Proof. solve_decision. Defined.

(** [getFallbackOptions(selected, analysis)] on the providers that the
    gateway says are available; the providers of a gateway are objects
    of their own, so that [p !== selected] is [p <> selected]. *)
Definition fallbacksOf (available : list LLMProvider) (selected : LLMProvider)
    (analysis : TaskAnalysis) : list LLMProvider :=
  firstn 2 (sortBySuitability analysis
              (List.filter (fun p => negb (bool_decide (p = selected))) available)).

Section Select.

Variable encode : jsstring -> option nat.

(** [selectModel(task, input, context)]; the gateway is asked for its
    available providers twice, at the times [now1] and [now2]. *)
Definition selectModel (g : LLMGateway) (task input : jsstring)
    (context : option (list jsstring)) (now1 now2 : Z)
  : option ModelSelection * LLMGateway :=
  let analysis := analyzeTask encode task input context in
  let '(available, g1) := getAvailableProviders g now1 in
  match bestOf available analysis with
  | None => (None, g1)
  | Some p =>
      let '(available2, g2) := getAvailableProviders g1 now2 in
      (Some {| provider := p;
               selectionReasoning :=
                 str "Selected " ++ name p ++ str ":" ++ Gateway.model p ++
                 str " for " ++ taskTypeName (taskType analysis) ++
                 str " task with " ++ complexityName (complexity analysis) ++
                 str " complexity. " ++ reasoning analysis;
               selectionCost := estimatedCost analysis;
               fallbackOptions := fallbacksOf available2 p analysis |}, g2)
  end.

End Select.

End Router.


(** ** The conversation manager ([ConversationManager]) *)

Module Checkpoint.

Local Open Scope Z_scope.

Record AgentState : Type := mkState {
  model : option jsstring;
  research_question : jsstring;
  report : jsstring;
  resources : list jsstring;        (* the [content] of each resource *)
  messages : list jsstring          (* the [content] of each message *)
}.

Record ConversationCheckpoint : Type := mkCheckpoint {
  state : AgentState;
  timestamp : Z;
  tools : list jsstring;
  context : list jsstring;
  version : jsstring;
  modelUsed : jsstring;
  totalTokens : Z
}.

(** What the store holds under a key: the JSON text of a checkpoint, or
    the name of a key. *)
Inductive stored : Type :=
| Json (c : ConversationCheckpoint)
| Text (s : jsstring).

(** An entry of the Redis store, with the time at which it expires. *)
Record entry : Type := mkEntry {
  value : stored;
  expiresAt : Z
}.

Definition CHECKPOINT_TTL : Z := 3600.
Definition MAX_CHECKPOINTS : nat := 10.

(** The entries that have not expired at time [now]. *)
Definition live (now : Z) (m : gmap (list ascii) entry) : gmap (list ascii) entry :=
  filter (fun kv => now < expiresAt (snd kv)) m.

(** [redis.setEx(key, ttl, value)], with [ttl] in seconds. *)
Definition setEx (m : gmap (list ascii) entry) (now : Z) (key : list ascii)
    (ttl : Z) (v : stored) : gmap (list ascii) entry :=
  <[key := {| value := v; expiresAt := now + ttl * 1000 |}]> m.

(** [redis.keys(prefix + '*')], for a prefix without the special
    characters of Redis patterns: the keys that begin with it, in the
    order in which the store lists them. *)
Definition keysWithPrefix (m : gmap (list ascii) entry) (prefix : jsstring)
  : list (list ascii) :=
  List.filter (fun k => startsWith k prefix) (map fst (map_to_list m)).

(** [redis.del(keys)] *)
Definition del (m : gmap (list ascii) entry) (ks : list (list ascii))
  : gmap (list ascii) entry :=
  fold_right delete m ks.

(** [`checkpoint:${threadId}:`], and the key of the checkpoint written
    at time [t]. *)
Definition prefixOf (threadId : jsstring) : jsstring :=
  str "checkpoint:" ++ threadId ++ str ":".
Definition keyAt (threadId : jsstring) (t : Z) : list ascii :=
  prefixOf threadId ++ showZ t.
Definition latestKey (threadId : jsstring) : list ascii :=
  str "latest:" ++ threadId.

(** [parseInt(key.split(':')[2])]; [None] is NaN. *)
Definition timestampOf (key : list ascii) : option Z :=
  match nth_error (split (str ":") key) 2 with
  | Some field => parseInt field
  | None => None
  end.

(** The comparator [(a, b) => timestampB - timestampA]; a NaN counts as 0
    in the sort. *)
Definition compareKeys (a b : list ascii) : Z :=
  match timestampOf a, timestampOf b with
  | Some ta, Some tb => tb - ta
  | _, _ => 0
  end.

(** [keys.sort(compare)]: the sort of arrays is stable. *)
Fixpoint insertKey (k : list ascii) (sorted : list (list ascii))
  : list (list ascii) :=
  match sorted with
  | [] => [k]
  | j :: rest =>
      if 0 <? compareKeys k j then j :: insertKey k rest else k :: sorted
  end.

Definition sortKeys (ks : list (list ascii)) : list (list ascii) :=
  fold_right insertKey [] ks.

Definition cleanupOldCheckpoints (m : gmap (list ascii) entry)
    (threadId : jsstring) : gmap (list ascii) entry :=
  let keys := keysWithPrefix m (prefixOf threadId) in
  if (MAX_CHECKPOINTS <? length keys)%nat
  then del m (skipn MAX_CHECKPOINTS (sortKeys keys))
  else m.

Definition extractAvailableTools (s : AgentState) : list jsstring :=
  map str ["Search"; "WriteReport"; "WriteResearchQuestion"; "DeleteResources"]%string.

Definition estimateStateTokens (s : AgentState) : Z :=
  let content := join (str " ")
                      ([research_question s; report s] ++ resources s ++ messages s) in
  (Z.of_nat (length content) + 3) / 4.

(** [state.messages.slice(-10)] *)
Definition recentMessages (s : AgentState) : list jsstring :=
  skipn (length (messages s) - 10) (messages s).

(** The checkpoint that [saveCheckpoint] builds; [state.model ||
    'unknown']: a model that is missing or the empty text is falsy. *)
Definition checkpointOf (s : AgentState) (now : Z) : ConversationCheckpoint :=
  {| state := s; timestamp := now;
     tools := extractAvailableTools s;
     context := recentMessages s;
     version := str "1.0";
     modelUsed := match model s with
                  | Some (c :: m) => c :: m
                  | _ => str "unknown"
                  end;
     totalTokens := estimateStateTokens s |}.

(** [saveCheckpoint(threadId, state)] on a store that answers (no
    exception is caught); the call is taken at one instant: both readings
    of [Date.now()] are [now], and the store is seen as it is then. *)
Definition saveCheckpoint (m : gmap (list ascii) entry) (threadId : jsstring)
    (s : AgentState) (now : Z) : gmap (list ascii) entry :=
  let checkpointKey := keyAt threadId now in
  let m1 := setEx (live now m) now checkpointKey CHECKPOINT_TTL
                  (Json (checkpointOf s now)) in
  let m2 := setEx m1 now (latestKey threadId) CHECKPOINT_TTL (Text checkpointKey) in
  cleanupOldCheckpoints m2 threadId.

(** A series of checkpoints, each with its thread and the time at which
    it is written. *)
Definition saveCheckpoints (m : gmap (list ascii) entry) (s : AgentState)
    (writes : list (jsstring * Z)) : gmap (list ascii) entry :=
  fold_left (fun m w => saveCheckpoint m (fst w) s (snd w)) writes m.

(** The checkpoints of a thread in the store at time [now]. *)
Definition checkpointsOf (m : gmap (list ascii) entry) (threadId : jsstring)
    (now : Z) : list (list ascii) :=
  keysWithPrefix (live now m) (prefixOf threadId).

(** [getLastCheckpoint(threadId)] at time [now] *)
Definition getLastCheckpoint (m : gmap (list ascii) entry) (threadId : jsstring)
    (now : Z) : option ConversationCheckpoint :=
  match live now m !! latestKey threadId with
  | Some {| value := Text latest |} =>
      match live now m !! latest with
      | Some {| value := Json c |} => Some c
      | _ => None
      end
  | _ => None
  end.

(** A thread identifier without [:] and without the special characters
    of Redis patterns. *)
Definition plainId (threadId : jsstring) : Prop :=
  Forall (fun c => ~ In c (str ":*?[\")) threadId.

Definition TTL_MS : Z := CHECKPOINT_TTL * 1000.

(** The times of the checkpoints kept after a write at time [t], latest
    first, from those kept before it. *)
Definition keptAfter (kept : list Z) (t : Z) : list Z :=
  firstn MAX_CHECKPOINTS (t :: List.filter (fun u => t <? u + TTL_MS) kept).

(** Times that grow, each one later than the one before. *)
Definition increasing (times : list Z) : Prop := StronglySorted Z.lt times.

Definition sameThread (T U : jsstring) : bool :=
  if List.list_eq_dec ascii_dec T U then true else false.

(** The times of the writes of a thread in a series. *)
Definition timesOf (threadId : jsstring) (writes : list (jsstring * Z)) : list Z :=
  map snd (List.filter (fun w => sameThread (fst w) threadId) writes).

(** The time of the last write of a series. *)
Definition lastOf (writes : list (jsstring * Z)) : Z :=
  List.last (map snd writes) 0.

(** The writes of a thread that are among its [MAX_CHECKPOINTS] latest
    and less than the time to live before the last write of the series,
    latest first. *)
Definition latestLive (threadId : jsstring) (writes : list (jsstring * Z))
  : list Z :=
  firstn MAX_CHECKPOINTS
         (List.filter (fun u => lastOf writes <? u + TTL_MS)
                      (rev (timesOf threadId writes))).

(** The times kept for a thread after one write of a series: a write of
    another thread only lets the expired checkpoints go. *)
Definition keptStep (threadId : jsstring) (kept : list Z) (w : jsstring * Z)
  : list Z :=
  if sameThread (fst w) threadId then keptAfter kept (snd w)
  else List.filter (fun u => snd w <? u + TTL_MS) kept.

(** Sorting times, latest first. *)
Fixpoint insertDesc (t : Z) (sorted : list Z) : list Z :=
  match sorted with
  | [] => [t]
  | u :: rest => if 0 <? u - t then u :: insertDesc t rest else t :: sorted
  end.

Definition sortDesc (ts : list Z) : list Z := fold_right insertDesc [] ts.

(** A text without [:]. *)
Definition colonFree (s : jsstring) : Prop := Forall (fun c => eqc ":" c = false) s.

(** Later first. *)
Definition laterFirst (a b : Z) : Prop := b <= a.

(** Times that fall, each one earlier than the one before. *)
Definition falling (l : list Z) : Prop := StronglySorted (fun a b => b < a) l.

(** The checkpoints of a thread in a store are those written at the
    times [L], each with its time to live. *)
Definition holds (threadId : jsstring) (m : gmap (list ascii) entry)
    (L : list Z) : Prop :=
  (forall k, startsWith k (prefixOf threadId) = true -> is_Some (m !! k) ->
             exists u, In u L /\ k = keyAt threadId u) /\
  (forall u, In u L ->
             exists v, m !! keyAt threadId u =
                       Some {| value := v; expiresAt := u + TTL_MS |}).

Definition emptyState : AgentState :=
  {| model := None; research_question := []; report := [];
     resources := []; messages := [] |}.

Definition threadOne : jsstring := str "thread-1".
Definition threadTwo : jsstring := str "thread-2".

(** Eleven checkpoints of one thread, one every ten minutes. *)
Definition everyTenMinutes : list (jsstring * Z) :=
  map (fun i => (threadOne, i * 600000)) [1; 2; 3; 4; 5; 6; 7; 8; 9; 10; 11].

(** Eleven checkpoints of each of two threads, one a second, in turn. *)
Definition inTurn : list (jsstring * Z) :=
  flat_map (fun i => [(threadOne, i * 1000); (threadTwo, i * 1000 + 500)])
           [1; 2; 3; 4; 5; 6; 7; 8; 9; 10; 11].

(** *** Reading the checkpoints back, and recovery *)

(** A series of checkpoints, each with its thread, the state that is
    saved and the time at which it is written. *)
Definition saveAll (m : gmap (list ascii) entry)
    (writes : list (jsstring * AgentState * Z)) : gmap (list ascii) entry :=
  fold_left (fun m w => saveCheckpoint m (fst (fst w)) (snd (fst w)) (snd w))
            writes m.

(** The threads and times of such a series. *)
Definition stamps (writes : list (jsstring * AgentState * Z))
  : list (jsstring * Z) :=
  map (fun w => (fst (fst w), snd w)) writes.

(** The writes of a thread in a series, and the last of them. *)
Definition writesOf (threadId : jsstring)
    (writes : list (jsstring * AgentState * Z)) : list (AgentState * Z) :=
  map (fun w => (snd (fst w), snd w))
      (List.filter (fun w => sameThread (fst (fst w)) threadId) writes).

Definition lastWrite (threadId : jsstring)
    (writes : list (jsstring * AgentState * Z)) : option (AgentState * Z) :=
  List.last (map Some (writesOf threadId writes)) None.

(** [checkpoints.sort((a, b) => b.timestamp - a.timestamp)] *)
Fixpoint insertCheckpoint (c : ConversationCheckpoint)
    (sorted : list ConversationCheckpoint) : list ConversationCheckpoint :=
  match sorted with
  | [] => [c]
  | d :: rest =>
      if 0 <? timestamp d - timestamp c then d :: insertCheckpoint c rest
      else c :: sorted
  end.

Definition sortCheckpoints (cs : list ConversationCheckpoint)
  : list ConversationCheckpoint :=
  fold_right insertCheckpoint [] cs.

(** The loop of [getConversationHistory]: [redis.get] of every key, and
    [JSON.parse] of what is there; [None] when [JSON.parse] throws (the
    name of a key is not a JSON text). *)
Fixpoint readCheckpoints (m : gmap (list ascii) entry) (keys : list (list ascii))
  : option (list ConversationCheckpoint) :=
  match keys with
  | [] => Some []
  | k :: rest =>
      match m !! k with
      | Some {| value := Json c |} => cons c <$> readCheckpoints m rest
      | Some {| value := Text _ |} => None
      | None => readCheckpoints m rest
      end
  end.

(** [getConversationHistory(threadId)] at time [now]; an exception is
    caught and gives the empty history. *)
Definition getConversationHistory (m : gmap (list ascii) entry)
    (threadId : jsstring) (now : Z) : list ConversationCheckpoint :=
  match readCheckpoints (live now m) (checkpointsOf m threadId now) with
  | Some cs => sortCheckpoints cs
  | None => []
  end.

(** [createFreshState()]; the argument is the variable DEFAULT_MODEL of
    the environment. *)
Definition createFreshState (defaultModel : option jsstring) : AgentState :=
  {| model := Some (match defaultModel with
                    | Some (c :: d) => c :: d
                    | _ => str "openai"
                    end);
     research_question := []; report := []; resources := []; messages := [] |}.

(** An [Error]: its message and its stack. *)
Record Error : Type := mkError {
  message : jsstring;
  stack : option jsstring
}.

(** An entry of the Redis list [recovery_logs]. *)
Record RecoveryLog : Type := mkRecoveryLog {
  logThreadId : jsstring;
  logError : jsstring;
  checkpointTimestamp : Z;
  recoveryTimestamp : Z;
  logStack : option jsstring
}.

(** [logRecovery]: [lPush], then [lTrim('recovery_logs', 0, 99)]. *)
Definition logRecovery (logs : list RecoveryLog) (threadId : jsstring)
    (error : Error) (checkpointTime now : Z) : list RecoveryLog :=
  firstn 100 ({| logThreadId := threadId; logError := message error;
                 checkpointTimestamp := checkpointTime;
                 recoveryTimestamp := now; logStack := stack error |} :: logs).

(** The content of the system message that a recovery adds. *)
Definition recoveryNotice (error : Error) : jsstring :=
  str "Recovered from error: " ++ message error ++
  str ". Continuing conversation...".

(** [recoverFromError(threadId, error)] at time [now], with the list
    [recovery_logs] before and after. *)
Definition recoverFromError (m : gmap (list ascii) entry)
    (logs : list RecoveryLog) (threadId : jsstring) (error : Error) (now : Z)
  : option AgentState * list RecoveryLog :=
  match getLastCheckpoint m threadId now with
  | None => (None, logs)
  | Some checkpoint =>
      (Some {| model := model (state checkpoint);
               research_question := research_question (state checkpoint);
               report := report (state checkpoint);
               resources := resources (state checkpoint);
               messages := context checkpoint ++ [recoveryNotice error] |},
       logRecovery logs threadId error (timestamp checkpoint) now)
  end.

(** A series of recoveries, each with the store as it is when the call
    is made. *)
Definition recoverAll (logs : list RecoveryLog)
    (calls : list (gmap (list ascii) entry * jsstring * Error * Z))
  : list RecoveryLog :=
  fold_left (fun l c =>
               snd (recoverFromError (fst (fst (fst c))) l (snd (fst (fst c)))
                                     (snd (fst c)) (snd c)))
            calls logs.

(** [getRecoveryStats()]: [lRange('recovery_logs', 0, -1)], its length
    and its first ten entries. *)
Definition getRecoveryStats (logs : list RecoveryLog) : nat * list RecoveryLog :=
  (length logs, firstn 10 logs).

(** The checkpoints of a thread in a store are those of writes of a
    series, each with the state and the time of its write. *)
Definition recorded (threadId : jsstring)
    (writes : list (jsstring * AgentState * Z))
    (m : gmap (list ascii) entry) : Prop :=
  forall (k : list ascii) (e : entry),
    startsWith k (prefixOf threadId) = true -> m !! k = Some e ->
    exists s t, In (threadId, s, t) writes /\ k = keyAt threadId t /\
                e = {| value := Json (checkpointOf s t);
                       expiresAt := t + TTL_MS |}.

(** What the store holds under the key of the latest checkpoint of a
    thread after a series of writes of which the last is at time [b]. *)
Definition latestEntry (threadId : jsstring)
    (writes : list (jsstring * AgentState * Z)) (b : Z) : option entry :=
  match lastWrite threadId writes with
  | Some (_, t) =>
      if b <? t + TTL_MS
      then Some {| value := Text (keyAt threadId t); expiresAt := t + TTL_MS |}
      else None
  | None => None
  end.

(** The writes of a thread of which the checkpoints are there at time
    [now]: those of its ten latest that are less than the time to live
    old, latest first. *)
Definition recentWrites (threadId : jsstring)
    (writes : list (jsstring * AgentState * Z)) (now : Z)
  : list (AgentState * Z) :=
  List.filter (fun w => now <? snd w + TTL_MS)
              (firstn MAX_CHECKPOINTS (rev (writesOf threadId writes))).

(** The conditions under which a series of writes is read back: plain
    thread identifiers, a store without checkpoints of the thread at
    first, writes at growing times, none of them after the reading. *)
Definition readable (T : jsstring) (m0 : gmap (list ascii) entry)
    (writes : list (jsstring * AgentState * Z)) (now : Z) : Prop :=
  plainId T /\
  Forall (fun w => plainId (fst (fst w))) writes /\
  (forall k : list ascii, startsWith k (prefixOf T) = true -> m0 !! k = None) /\
  m0 !! latestKey T = None /\
  increasing (map snd writes) /\
  Forall (fun w => 0 <= snd w <= now) writes /\
  0 <= now.

(** The entries that a series of recoveries adds to [recovery_logs], in
    the order of the calls: one for each call that finds a checkpoint. *)
Definition recoveryEntries
    (calls : list (gmap (list ascii) entry * jsstring * Error * Z))
  : list RecoveryLog :=
  flat_map (fun c =>
              match getLastCheckpoint (fst (fst (fst c))) (snd (fst (fst c)))
                                      (snd c) with
              | Some checkpoint =>
                  [{| logThreadId := snd (fst (fst c));
                      logError := message (snd (fst c));
                      checkpointTimestamp := timestamp checkpoint;
                      recoveryTimestamp := snd c;
                      logStack := stack (snd (fst c)) |}]
              | None => []
              end) calls.

(** Three states of a conversation, and three writes of two threads. *)
Definition talk (question : string) (said : list string) : AgentState :=
  {| model := Some (str "openai"); research_question := str question;
     report := []; resources := []; messages := map str said |}.

Definition threeWrites : list (jsstring * AgentState * Z) :=
  [(threadOne, talk "tides" ["hello"], 1000);
   (threadTwo, talk "moons" ["hi"], 2000);
   (threadOne, talk "tides" ["hello"; "why are there tides?"], 3000)].

Definition timeout : Error :=
  {| message := str "timeout"; stack := None |}.

End Checkpoint.

(** ** The class [FeatureFlags] *)

Module Flags.

Local Open Scope Z_scope.

Record DateRange : Type := mkDateRange {
  rangeStart : Z;
  rangeEnd : Z
}.

Record Conditions : Type := mkConditions {
  userIds : option (list jsstring);
  environments : option (list jsstring);
  dateRange : option DateRange
}.

Record FeatureFlag : Type := mkFlag {
  name : jsstring;
  enabled : bool;
  description : jsstring;
  rolloutPercentage : Z;
  conditions : option Conditions;
  created : Z;
  lastModified : Z
}.

Record FeatureFlagEvaluation : Type := mkEvaluation {
  flagName : jsstring;
  isOn : bool;                         (* the field [enabled] *)
  reason : jsstring;
  rolloutBucket : option Z
}.

(** ToInt32: the value of a number as a signed integer of 32 bits. *)
Definition toInt32 (x : Z) : Z := (x + 2 ^ 31) mod 2 ^ 32 - 2 ^ 31.

(** One turn of the loop of [simpleHash]:
    [hash = ((hash << 5) - hash) + char; hash = hash & hash]. *)
Definition hashStep (hash : Z) (c : ascii) : Z :=
  toInt32 (toInt32 (hash * 32) - hash + Z.of_N (code c)).

Definition simpleHash (s : jsstring) : Z := Z.abs (fold_left hashStep s 0).

(** A text as a condition: the empty text is falsy, as [undefined]. *)
Definition truthy (s : option jsstring) : option jsstring :=
  match s with
  | Some (c :: t) => Some (c :: t)
  | _ => None
  end.

(** [getUserBucket(flagName, userId)] *)
Definition getUserBucket (flag : jsstring) (userId : option jsstring) : Z :=
  let identifier := default (str "anonymous") (truthy userId) in
  simpleHash (flag ++ str ":" ++ identifier) mod 100.

(** [list.includes(text)] *)
Definition listed (x : jsstring) (l : list jsstring) : bool :=
  bool_decide (x ∈ l).

(** The conditions of a flag, as [evaluateFlag] checks them; [env] is
    the variable NODE_ENV. *)
Definition currentEnv (env : option jsstring) : jsstring :=
  default (str "development") (truthy env).

Definition environmentAllows (flag : FeatureFlag) (env : option jsstring) : bool :=
  match conditions flag ≫= environments with
  | Some allowed => listed (currentEnv env) allowed
  | None => true
  end.

Definition dateAllows (flag : FeatureFlag) (now : Z) : bool :=
  match conditions flag ≫= dateRange with
  | Some range => negb ((now <? rangeStart range) || (rangeEnd range <? now))
  | None => true
  end.

Definition whitelisted (flag : FeatureFlag) (userId : option jsstring) : bool :=
  match conditions flag ≫= userIds, truthy userId with
  | Some ids, Some user => listed user ids
  | _, _ => false
  end.

(** [evaluateFlag(flagName, userId)] at time [now]; [localCache] is the
    local cache as [ensureCacheUpdated] leaves it, at the lookup of the
    flag.  The percentage of a rollout is taken as a whole number. *)
Definition evaluateFlag (localCache : gmap (list ascii) FeatureFlag)
    (env : option jsstring) (now : Z) (flag : jsstring)
    (userId : option jsstring) : FeatureFlagEvaluation :=
  match localCache !! flag with
  | None => mkEvaluation flag false (str "Flag not found") None
  | Some f =>
      if negb (enabled f)
      then mkEvaluation flag false (str "Flag globally disabled") None
      else if negb (environmentAllows f env)
      then mkEvaluation flag false
             (str "Environment " ++ currentEnv env ++ str " not in allowed list")
             None
      else if negb (dateAllows f now)
      then mkEvaluation flag false (str "Outside of date range") None
      else if whitelisted f userId
      then mkEvaluation flag true (str "User in whitelist") None
      else if rolloutPercentage f <? 100
      then
        let bucket := getUserBucket flag userId in
        let on := bucket <? rolloutPercentage f in
        mkEvaluation flag on
          ((if on then str "User in rollout (bucket "
            else str "User not in rollout (bucket ") ++
           showZ bucket ++ str "/" ++ showZ (rolloutPercentage f) ++ str ")")
          (Some bucket)
      else mkEvaluation flag true (str "Flag fully enabled") None
  end.

(** [isEnabled(flagName, userId)] *)
Definition isEnabled (localCache : gmap (list ascii) FeatureFlag)
    (env : option jsstring) (now : Z) (flag : jsstring)
    (userId : option jsstring) : bool :=
  isOn (evaluateFlag localCache env now flag userId).

(** A flag with another percentage of rollout. *)
Definition withRollout (f : FeatureFlag) (percentage : Z) : FeatureFlag :=
  {| name := name f; enabled := enabled f; description := description f;
     rolloutPercentage := percentage; conditions := conditions f;
     created := created f; lastModified := lastModified f |}.

(** The flag [enable_model_routing] of the defaults, at fifty per cent,
    and a flag at nought per cent for two users. *)
Definition modelRouting : FeatureFlag :=
  {| name := str "enable_model_routing"; enabled := true;
     description := str "Enable smart model routing";
     rolloutPercentage := 50; conditions := None;
     created := 0; lastModified := 0 |}.


End Flags.


(** ** Strings: [split] and [join], [trim] *)

Module StringFacts.

Lemma reverse_rev (s : jsstring) : reverse s = rev s.
Proof. unfold reverse. rewrite rev_append_rev. apply app_nil_r. Qed.

Lemma eqc_eq a b : eqc a b = true -> a = b.
Proof.
  unfold eqc, code. intros H. apply N.eqb_eq in H.
  rewrite <- (ascii_N_embedding a), <- (ascii_N_embedding b). congruence.
Qed.

Lemma eqc_refl a : eqc a a = true.
Proof. unfold eqc. apply N.eqb_refl. Qed.

Lemma startsWith_app p s : startsWith (p ++ s) p = true.
Proof.
  induction p as [|a p IH]; [destruct s; reflexivity|].
  cbn. rewrite eqc_refl. exact IH.
Qed.

Lemma startsWith_inv s p : startsWith s p = true -> exists s', s = p ++ s'.
Proof.
  revert s. induction p as [|a p IH]; intros s H.
  - exists s. reflexivity.
  - destruct s as [|b s]; [discriminate|]. cbn in H.
    apply andb_true_iff in H as [Hab Hp]. apply eqc_eq in Hab. subst b.
    destruct (IH s Hp) as [s' ->]. exists s'. reflexivity.
Qed.

Lemma split_go_skip sep u s acc :
  s <> [] \/ u = [] ->
  split_go sep (u ++ s) (length u) acc = split_go sep s 0 acc.
Proof.
  induction u as [|a u IH]; intros H; [reflexivity|].
  destruct H as [H|H]; [|discriminate]. cbn. apply IH. left. exact H.
Qed.

Lemma split_go_skip_all sep u acc :
  split_go sep u (length u) acc = [reverse acc].
Proof.
  induction u as [|a u IH]; [reflexivity|]. cbn. exact IH.
Qed.

Lemma split_go_nonempty sep s k acc : split_go sep s k acc <> [].
Proof.
  revert k acc. induction s as [|a s IH]; intros k acc; [discriminate|].
  cbn [split_go]. destruct k; [|apply IH].
  destruct (startsWith (a :: s) sep); [discriminate | apply IH].
Qed.

Lemma join_cons sep p rest :
  rest <> [] -> join sep (p :: rest) = p ++ sep ++ join sep rest.
Proof. destruct rest; [congruence | reflexivity]. Qed.

Lemma join_split_go sep n :
  sep <> [] ->
  forall s acc, length s <= n ->
    join sep (split_go sep s 0 acc) = rev acc ++ s.
Proof.
  intros Hsep. induction n as [|n IH]; intros s acc Hn.
  - destruct s; [|cbn in Hn; lia]. cbn. rewrite reverse_rev, app_nil_r. reflexivity.
  - destruct s as [|a t].
    + cbn. rewrite reverse_rev, app_nil_r. reflexivity.
    + cbn [split_go]. destruct (startsWith (a :: t) sep) eqn:E.
      * apply startsWith_inv in E as [s' E].
        destruct sep as [|b sep']; [congruence|].
        cbn in E. injection E as -> ->.
        cbn [length]. rewrite Nat.sub_succ, Nat.sub_0_r.
        rewrite join_cons by apply split_go_nonempty.
        rewrite reverse_rev. f_equal.
        destruct s' as [|c s''].
        -- rewrite app_nil_r, split_go_skip_all. cbn. rewrite !app_nil_r. reflexivity.
        -- rewrite split_go_skip by (left; discriminate).
           rewrite IH.
           ++ reflexivity.
           ++ cbn in Hn. rewrite length_app in Hn. cbn in *. lia.
      * rewrite IH by (cbn in Hn; lia). cbn [rev].
        rewrite <- app_assoc. reflexivity.
Qed.

(** A text is its pieces joined by the separator again. *)
Lemma join_split sep s : sep <> [] -> join sep (split sep s) = s.
Proof.
  intros H. unfold split. rewrite (join_split_go sep (length s) H s []); auto.
Qed.

Lemma blank_rev s : blank s -> blank (rev s).
Proof.
  unfold blank. intros H. apply List.Forall_forall. intros c Hc.
  apply in_rev in Hc. rewrite List.Forall_forall in H. auto.
Qed.

Lemma trimStart_blank_app p s : blank p -> trimStart (p ++ s) = trimStart s.
Proof.
  induction 1 as [|c t Hc _ IH]; [reflexivity|]. cbn. rewrite Hc. exact IH.
Qed.

Lemma trimStart_blank p : blank p -> trimStart p = [].
Proof.
  intros H. rewrite <- (app_nil_r p). rewrite trimStart_blank_app; trivial.
Qed.

Lemma trimStart_tight s : tight s -> trimStart s = s.
Proof. destruct s as [|c t]; [reflexivity|]. cbn. intros ->. reflexivity. Qed.

Lemma trimStart_is_tight s : tight (trimStart s).
Proof.
  induction s as [|c t IH]; [exact I|]. cbn.
  destruct (isWhiteSpace c) eqn:E; [exact IH | exact E].
Qed.

Lemma trimStart_split s : exists w, blank w /\ s = w ++ trimStart s.
Proof.
  induction s as [|c t [w [Hw IH]]].
  - exists []. split; [constructor | reflexivity].
  - cbn. destruct (isWhiteSpace c) eqn:E.
    + exists (c :: w). split; [constructor; assumption|]. cbn. congruence.
    + exists []. split; [constructor | reflexivity].
Qed.

Lemma tight_app s v : tight s -> s <> [] -> tight (s ++ v).
Proof. destruct s; [congruence | auto]. Qed.

Lemma trimStart_app_tight u y : tight y -> trimStart (u ++ y) = trimStart u ++ y.
Proof.
  intros Hy. induction u as [|c t IH]; [apply trimStart_tight, Hy|].
  cbn. destruct (isWhiteSpace c); [exact IH | reflexivity].
Qed.

Lemma trimEnd_rev s : trimEnd s = rev (trimStart (rev s)).
Proof. unfold trimEnd. rewrite !reverse_rev. reflexivity. Qed.

Lemma trimEnd_app_blank s q : blank q -> trimEnd (s ++ q) = trimEnd s.
Proof.
  intros H. rewrite !trimEnd_rev, rev_app_distr.
  rewrite trimStart_blank_app; [reflexivity | apply blank_rev, H].
Qed.

Lemma trimEnd_app_tight y v : tight (rev y) -> trimEnd (y ++ v) = y ++ trimEnd v.
Proof.
  intros Hy. rewrite !trimEnd_rev, rev_app_distr.
  rewrite trimStart_app_tight by exact Hy.
  rewrite rev_app_distr, rev_involutive. reflexivity.
Qed.

Lemma trimEnd_split s : exists w, blank w /\ s = trimEnd s ++ w /\ tight (rev (trimEnd s)).
Proof.
  destruct (trimStart_split (rev s)) as [w [Hw E]].
  exists (rev w). split; [apply blank_rev, Hw|]. rewrite trimEnd_rev. split.
  - rewrite <- rev_app_distr, <- E, rev_involutive. reflexivity.
  - rewrite rev_involutive. apply trimStart_is_tight.
Qed.

Lemma trim_app_blank s q : blank q -> trim (s ++ q) = trim s.
Proof.
  intros H. unfold trim. induction s as [|c t IH].
  - cbn [app]. rewrite trimStart_blank; trivial.
  - cbn [app trimStart]. destruct (isWhiteSpace c); [exact IH|].
    apply (trimEnd_app_blank (c :: t) q H).
Qed.

(** White space around a text does not survive [trim]. *)
Lemma trim_padding p s q : blank p -> blank q -> trim (p ++ s ++ q) = trim s.
Proof.
  intros Hp Hq. rewrite app_assoc, trim_app_blank by exact Hq.
  unfold trim. rewrite trimStart_blank_app; trivial.
Qed.

(** A text is its trimmed form between two runs of white space, and the
    trimmed form neither begins nor ends with white space. *)
Lemma trim_split s :
  exists w1 w2, blank w1 /\ blank w2 /\ s = w1 ++ trim s ++ w2 /\
                tight (trim s) /\ tight (rev (trim s)).
Proof.
  destruct (trimStart_split s) as [w1 [H1 E1]].
  destruct (trimEnd_split (trimStart s)) as [w2 [H2 [E2 T2]]].
  exists w1, w2. unfold trim. repeat split; trivial.
  - rewrite <- E2. exact E1.
  - pose proof (trimStart_is_tight s) as T. rewrite E2 in T.
    destruct (trimEnd (trimStart s)); [exact I | exact T].
Qed.

Lemma tight_rev_app a y : tight (rev y) -> y <> [] -> tight (rev (a ++ y)).
Proof.
  intros Hy Hne. rewrite rev_app_distr. apply tight_app; trivial.
  intros E. apply Hne. apply (f_equal (@rev ascii)) in E.
  rewrite rev_involutive in E. exact E.
Qed.

End StringFacts.

(** ** Decimal text: [parseInt] reads what a template literal writes *)

Module DecimalFacts.
Import StringFacts.

Local Open Scope Z_scope.

Lemma isDigit_of n : (n < 10)%N -> isDigit (ascii_of_N (48 + n)) = true.
Proof.
  intros H. unfold isDigit, between, code.
  rewrite N_ascii_embedding by lia.
  apply andb_true_iff. split; apply N.leb_le; lia.
Qed.

Lemma digitValue_of n : (n < 10)%N -> digitValue (ascii_of_N (48 + n)) = Z.of_N n.
Proof.
  intros H. unfold digitValue, code. rewrite N_ascii_embedding by lia. lia.
Qed.

Lemma digits_go_spec fuel : forall n acc,
  (n < 2 ^ N.of_nat fuel)%N -> (0 < fuel)%nat ->
  exists ds, digits_go fuel n acc = ds ++ acc /\ ds <> [] /\
             Forall (fun c => isDigit c = true) ds /\
             forall a, readDigits ds a = a * 10 ^ Z.of_nat (length ds) + Z.of_N n.
Proof.
  induction fuel as [|f IH]; intros n acc Hn Hf; [lia|].
  cbn [digits_go].
  assert (Hd : (n mod 10 < 10)%N) by (apply N.mod_lt; lia).
  destruct (n <? 10)%N eqn:E.
  - apply N.ltb_lt in E. rewrite N.mod_small by exact E.
    exists [ascii_of_N (48 + n)]. repeat split.
    + discriminate.
    + constructor; [apply isDigit_of, E | constructor].
    + intros a. cbn. rewrite digitValue_of by exact E. lia.
  - apply N.ltb_ge in E.
    rewrite Nat2N.inj_succ, N.pow_succ_r' in Hn.
    destruct (IH (n / 10)%N (ascii_of_N (48 + n mod 10) :: acc)) as (ds & E1 & E2 & E3 & E4).
    { apply N.Div0.div_lt_upper_bound. lia. }
    { destruct f; [cbn in Hn; lia | lia]. }
    exists (ds ++ [ascii_of_N (48 + n mod 10)]). repeat split.
    + rewrite E1, <- app_assoc. reflexivity.
    + destruct ds; discriminate.
    + apply Forall_app. split; [exact E3|].
      constructor; [apply isDigit_of, Hd | constructor].
    + intros a. unfold readDigits in *. rewrite fold_left_app. cbn [fold_left].
      rewrite E4, digitValue_of by exact Hd.
      rewrite length_app. cbn [length].
      rewrite Nat2Z.inj_add, Z.pow_add_r by lia.
      rewrite N2Z.inj_mod, N2Z.inj_div.
      pose proof (Z.div_mod (Z.of_N n) 10 ltac:(lia)). cbn. lia.
Qed.

Lemma showN_spec n :
  exists ds, showN n = ds /\ ds <> [] /\ Forall (fun c => isDigit c = true) ds /\
             readDigits ds 0 = Z.of_N n.
Proof.
  unfold showN.
  destruct (digits_go_spec (S (N.to_nat (N.log2 n))) n []) as (ds & E1 & E2 & E3 & E4).
  - rewrite Nat2N.inj_succ, N2Nat.id.
    destruct n as [|p]; [cbn; lia|]. apply N.log2_spec. lia.
  - lia.
  - exists ds. rewrite E1, app_nil_r. repeat split; trivial;
      try (rewrite E4; lia).
Qed.

Lemma digitsValue_digits ds : forall acc rest,
  Forall (fun c => isDigit c = true) ds -> ds <> [] ->
  digitsValue (ds ++ rest) acc =
  digitsValue rest (Some (readDigits ds (default 0 acc))).
Proof.
  induction ds as [|d ds IH]; intros acc rest Hd Hne; [congruence|].
  apply Forall_cons_iff in Hd as [Hd Hds]. cbn [app digitsValue]. rewrite Hd.
  destruct ds as [|d' ds'].
  - reflexivity.
  - rewrite IH by (trivial; discriminate). reflexivity.
Qed.

Lemma digit_plain c :
  isDigit c = true ->
  isWhiteSpace c = false /\ eqc c "-" = false /\ eqc c "+" = false /\ eqc ":" c = false.
Proof.
  destruct c as [[] [] [] [] [] [] [] []]; vm_compute; intros H;
    try discriminate H; auto.
Qed.

(** [parseInt] reads back what [showZ] writes for a time. *)
Lemma parseInt_showZ t : 0 <= t -> parseInt (showZ t) = Some t.
Proof.
  intros Ht. unfold showZ. replace (t <? 0) with false by (symmetry; apply Z.ltb_ge; lia).
  destruct (showN_spec (Z.to_N t)) as (ds & -> & Hne & Hd & Hv).
  destruct ds as [|d ds]; [congruence|]. unfold parseInt.
  pose proof Hd as Hd'. apply Forall_cons_iff in Hd' as [Hd0 _].
  destruct (digit_plain d Hd0) as (W & M & P & _).
  cbn [trimStart]. rewrite W, M, P.
  rewrite <- (app_nil_r (d :: ds)), digitsValue_digits by trivial.
  cbn [digitsValue default]. rewrite Hv. f_equal. lia.
Qed.

Lemma showZ_digits t : 0 <= t -> Forall (fun c => isDigit c = true) (showZ t).
Proof.
  intros Ht. unfold showZ. replace (t <? 0) with false by (symmetry; apply Z.ltb_ge; lia).
  destruct (showN_spec (Z.to_N t)) as (ds & -> & _ & Hd & _). exact Hd.
Qed.

End DecimalFacts.
(** ** The safety filter: what its calls can change

    The calls of a filter only ever move the [lastIndex] of its [RegExp]
    objects; their patterns and flags stay those of [newFilter]. *)

Module SafetyFacts.
Import Safety StringFacts.

Lemma shape_exec p s : shape (snd (exec p s)) = shape p.
Proof.
  unfold exec.
  destruct (length s <? _); [destruct (global p); reflexivity|].
  destruct (search _ _ _ _ _) as [[i n]|]; destruct (global p); reflexivity.
Qed.

Lemma shape_test p s : shape (snd (test p s)) = shape p.
Proof.
  unfold test. pose proof (shape_exec p s) as H.
  destruct (exec p s) as [[m|] p']; exact H.
Qed.

Lemma shape_matchAll p s : shape (snd (matchAll p s)) = shape p.
Proof. unfold matchAll. destruct (matches_go _ _ _ _ _); reflexivity. Qed.

Lemma shapes_execAll ps s : map shape (snd (execAll ps s)) = map shape ps.
Proof.
  induction ps as [|p ps IH]; [reflexivity|]. simpl.
  pose proof (shape_exec p s) as Hp.
  destruct (exec p s) as [m p']. destruct (execAll ps s) as [found rest'].
  cbn [snd map] in *. congruence.
Qed.

Lemma shapes_matchEach ps s : map shape (snd (matchEach ps s)) = map shape ps.
Proof.
  induction ps as [|p ps IH]; [reflexivity|]. simpl.
  pose proof (shape_matchAll p s) as Hp.
  destruct (matchAll p s) as [m p']. destruct (matchEach ps s) as [found rest'].
  cbn [snd map] in *. congruence.
Qed.

Lemma shapes_replaceEach ps s : map shape (snd (replaceEach ps s)) = map shape ps.
Proof.
  revert s. induction ps as [|p ps IH]; intros s; [reflexivity|].
  cbn [replaceEach]. unfold replaceAll at 1.
  specialize (IH (replace_go (ignoreCase p) (source p) (str "[REDACTED]") None s 0)).
  destruct (replaceEach ps _) as [s'' rest']. cbn [snd map] in *.
  rewrite IH. reflexivity.
Qed.

Lemma shapes_someTest ps s : map shape (snd (someTest ps s)) = map shape ps.
Proof.
  induction ps as [|p ps IH]; [reflexivity|]. simpl.
  pose proof (shape_test p s) as Hp.
  destruct (test p s) as [b p']. destruct b; cbn [snd map] in *; [congruence|].
  destruct (someTest ps s) as [b' rest']. cbn [snd map] in *. congruence.
Qed.


Lemma sameTables_refl f : sameTables f f.
Proof. split; reflexivity. Qed.

Lemma sameTables_trans f g h : sameTables f g -> sameTables g h -> sameTables f h.
Proof. intros [A B] [C D]. split; congruence. Qed.

Lemma sameTables_checkPromptInjection f x :
  sameTables (snd (checkPromptInjection f x)) f.
Proof.
  unfold checkPromptInjection. pose proof (shapes_execAll (INJECTION_PATTERNS f) x) as H.
  destruct (execAll _ _) as [found ps]. split; [reflexivity | exact H].
Qed.

Lemma sameTables_checkPII f x : sameTables (snd (checkPII f x)) f.
Proof.
  unfold checkPII. pose proof (shapes_matchEach (PII_PATTERNS f) x) as H.
  destruct (matchEach _ _) as [found ps]. split; [exact H | reflexivity].
Qed.

Lemma sameTables_sanitizeInput f x : sameTables (snd (sanitizeInput f x)) f.
Proof.
  unfold sanitizeInput. pose proof (shapes_replaceEach (PII_PATTERNS f) x) as H.
  destruct (replaceEach _ _) as [s1 ps]. split; [exact H | reflexivity].
Qed.

Lemma sameTables_containsPII f x : sameTables (snd (containsPII f x)) f.
Proof.
  unfold containsPII. pose proof (shapes_someTest (PII_PATTERNS f) x) as H.
  destruct (someTest _ _) as [b ps]. split; [exact H | reflexivity].
Qed.

Lemma sameTables_redactPII f x : sameTables (snd (redactPII f x)) f.
Proof.
  unfold redactPII. pose proof (shapes_replaceEach (PII_PATTERNS f) x) as H.
  destruct (replaceEach _ _) as [s1 ps]. split; [exact H | reflexivity].
Qed.

Lemma sameTables_collectIssues f x : sameTables (snd (collectIssues f x)) f.
Proof.
  unfold collectIssues.
  pose proof (sameTables_checkPromptInjection f x) as H1.
  destruct (checkPromptInjection f x) as [inj f1].
  pose proof (sameTables_checkPII f1 x) as H2.
  destruct (checkPII f1 x) as [pi f2]. simpl in *.
  eapply sameTables_trans; eassumption.
Qed.

Lemma sameTables_validateInput f x : sameTables (snd (validateInput f x)) f.
Proof.
  unfold validateInput.
  pose proof (sameTables_collectIssues f x) as H1.
  destruct (collectIssues f x) as [found f1].
  destruct (existsb blocks found); [exact H1|].
  pose proof (sameTables_sanitizeInput f1 (truncated x)) as H2.
  destruct (sanitizeInput f1 _) as [clean f2]. simpl in *.
  eapply sameTables_trans; eassumption.
Qed.

Lemma sameTables_validateOutput f x : sameTables (snd (validateOutput f x)) f.
Proof.
  unfold validateOutput.
  destruct (containsToxicity x); [apply sameTables_refl|].
  pose proof (sameTables_containsPII f x) as H1.
  destruct (containsPII f x) as [b f1]. simpl in *.
  destruct b.
  - eapply sameTables_trans; [apply sameTables_redactPII | exact H1].
  - destruct (containsSystemInfo x); exact H1.
Qed.

Lemma sameTables_streamFilter f x : sameTables (snd (streamFilter f x)) f.
Proof.
  unfold streamFilter.
  pose proof (sameTables_containsPII f x) as H1.
  destruct (containsPII f x) as [b f1]. simpl in *.
  destruct (b || containsSystemInfo x).
  - eapply sameTables_trans; [apply sameTables_redactPII | exact H1].
  - exact H1.
Qed.

Lemma reachable_sameTables f : reachable f -> sameTables f newFilter.
Proof.
  induction 1 as [|f x _ IH|f x _ IH|f x _ IH].
  - apply sameTables_refl.
  - eapply sameTables_trans; [apply sameTables_validateInput | exact IH].
  - eapply sameTables_trans; [apply sameTables_validateOutput | exact IH].
  - eapply sameTables_trans; [apply sameTables_streamFilter | exact IH].
Qed.



(** A non-global expression is always applied from the start of the text. *)
Lemma exec_not_global p s :
  global p = false ->
  fst (exec p s) = search (ignoreCase p) (source p) None s 0.
Proof.
  intros Hg. unfold exec. rewrite Hg. simpl.
  destruct (search _ _ _ _ _) as [[i n]|]; reflexivity.
Qed.





(** C1.  [validateOutput] returns through the PII branch without the
    redaction of system information: a text with a provider name and a
    social-security number comes back with the number replaced and the
    provider name still in it, while the stream filter, which applies both
    redactions, removes the name from the same text. *)
Theorem validateOutput_leaks_provider :
  let out := fst (validateOutput newFilter (str "openai 123-45-6789")) in
  out = str "openai [REDACTED]" /\
  namesProvider out = true /\
  fst (streamFilter newFilter (str "openai 123-45-6789")) =
    str "the AI system [REDACTED]".
Proof. vm_compute. repeat split; reflexivity. Qed.

(** C9.  Two calls of [validateInput] with the same text on the same
    filter: the template pattern of [INJECTION_PATTERNS] is global, so the
    first call leaves its [lastIndex] behind the match and the second call
    starts its search there; the first call blocks the text, the second
    passes it. *)
Theorem validateInput_not_repeatable :
  let first := validateInput newFilter (str "{{x}}") in
  let second := validateInput (snd first) (str "{{x}}") in
  blocked (fst first) = true /\ sanitized (fst first) = [] /\
  blocked (fst second) = false /\ sanitized (fst second) = str "x" /\
  isValid (fst second) = true.
Proof. vm_compute. repeat split; reflexivity. Qed.

(** *** The PII patterns are at rest between the calls *)

Lemma setLastIndex_rest (ps : list RegExp) :
  atRest (map (fun p => setLastIndex p 0) ps).
Proof. induction ps as [|p ps IH]; constructor; [reflexivity | exact IH]. Qed.

Lemma snd_matchEach (ps : list RegExp) (s : jsstring) :
  snd (matchEach ps s) = map (fun p => setLastIndex p 0) ps.
Proof.
  induction ps as [|p ps IH]; [reflexivity|]. cbn [matchEach map].
  unfold matchAll at 1.
  destruct (matchEach ps s) as [found rest']. cbn [snd] in IH. subst rest'.
  destruct (matches_go _ _ _ _ _); reflexivity.
Qed.

Lemma snd_replaceEach (ps : list RegExp) : forall s : jsstring,
  snd (replaceEach ps s) = map (fun p => setLastIndex p 0) ps.
Proof.
  induction ps as [|p ps IH]; intros s; [reflexivity|]. cbn [replaceEach map].
  unfold replaceAll at 1.
  specialize (IH (replace_go (ignoreCase p) (source p) (str "[REDACTED]") None s 0)).
  destruct (replaceEach ps _) as [s'' rest']. cbn [snd] in *. subst rest'.
  reflexivity.
Qed.

Lemma exec_rest (p : RegExp) (s : jsstring) :
  lastIndex p = 0%nat -> fst (exec p s) = None -> lastIndex (snd (exec p s)) = 0%nat.
Proof.
  intros H0. unfold exec.
  destruct (length s <? _); [destruct (global p); intros _; cbn; trivial|].
  destruct (search _ _ _ _ _) as [[i n]|]; [discriminate|].
  destruct (global p); intros _; cbn; trivial.
Qed.

Lemma test_rest (p : RegExp) (s : jsstring) :
  lastIndex p = 0%nat -> fst (test p s) = false -> lastIndex (snd (test p s)) = 0%nat.
Proof.
  intros H0. unfold test. pose proof (exec_rest p s H0) as H.
  destruct (exec p s) as [[m|] p']; cbn [fst snd] in *; [discriminate|].
  intros _. apply H. reflexivity.
Qed.

Lemma someTest_rest (ps : list RegExp) (s : jsstring) :
  atRest ps -> fst (someTest ps s) = false -> atRest (snd (someTest ps s)).
Proof.
  induction 1 as [|p ps Hp Hps IH]; [constructor|]. cbn [someTest].
  pose proof (test_rest p s Hp) as Ht.
  destruct (test p s) as [b p']. cbn [fst snd] in Ht. destruct b; [discriminate|].
  destruct (someTest ps s) as [b' rest']. cbn [fst snd] in *.
  intros E. constructor; [apply Ht; reflexivity | apply IH, E].
Qed.

Lemma PII_checkPromptInjection (f : SafetyFilter) (x : jsstring) :
  PII_PATTERNS (snd (checkPromptInjection f x)) = PII_PATTERNS f.
Proof.
  unfold checkPromptInjection. destruct (execAll _ _) as [found ps]. reflexivity.
Qed.

Lemma rest_validateInput (f : SafetyFilter) (x : jsstring) :
  atRest (PII_PATTERNS (snd (validateInput f x))).
Proof.
  unfold validateInput, collectIssues.
  destruct (checkPromptInjection f x) as [inj f1].
  unfold checkPII. pose proof (snd_matchEach (PII_PATTERNS f1) x) as Hm.
  destruct (matchEach (PII_PATTERNS f1) x) as [found ps]. cbn [snd] in Hm.
  destruct (existsb blocks _).
  - cbn [snd PII_PATTERNS]. rewrite Hm. apply setLastIndex_rest.
  - unfold sanitizeInput. cbn [PII_PATTERNS].
    pose proof (snd_replaceEach ps (truncated x)) as Hr.
    destruct (replaceEach ps (truncated x)) as [s1 qs]. cbn [snd PII_PATTERNS] in *.
    rewrite Hr. apply setLastIndex_rest.
Qed.

Lemma rest_redactPII (f : SafetyFilter) (x : jsstring) :
  atRest (PII_PATTERNS (snd (redactPII f x))).
Proof.
  unfold redactPII. pose proof (snd_replaceEach (PII_PATTERNS f) x) as Hr.
  destruct (replaceEach (PII_PATTERNS f) x) as [s qs]. cbn [snd PII_PATTERNS] in *.
  rewrite Hr. apply setLastIndex_rest.
Qed.

Lemma rest_containsPII (f : SafetyFilter) (x : jsstring) :
  atRest (PII_PATTERNS f) -> fst (containsPII f x) = false ->
  atRest (PII_PATTERNS (snd (containsPII f x))).
Proof.
  unfold containsPII. intros H. pose proof (someTest_rest (PII_PATTERNS f) x H) as Hs.
  destruct (someTest (PII_PATTERNS f) x) as [b ps]. exact Hs.
Qed.

Lemma rest_validateOutput (f : SafetyFilter) (x : jsstring) :
  atRest (PII_PATTERNS f) -> atRest (PII_PATTERNS (snd (validateOutput f x))).
Proof.
  intros H. unfold validateOutput. destruct (containsToxicity x); [exact H|].
  pose proof (rest_containsPII f x H) as Hc.
  destruct (containsPII f x) as [hasPII f1]. cbn [fst snd] in Hc.
  destruct hasPII; [apply rest_redactPII|].
  destruct (containsSystemInfo x); apply Hc; reflexivity.
Qed.

Lemma rest_streamFilter (f : SafetyFilter) (x : jsstring) :
  atRest (PII_PATTERNS f) -> atRest (PII_PATTERNS (snd (streamFilter f x))).
Proof.
  intros H. unfold streamFilter.
  pose proof (rest_containsPII f x H) as Hc.
  destruct (containsPII f x) as [hasPII f1]. cbn [fst snd] in Hc.
  destruct hasPII; [apply rest_redactPII|]. cbn [orb].
  destruct (containsSystemInfo x); [apply rest_redactPII|]. apply Hc. reflexivity.
Qed.

Lemma reachable_rest (f : SafetyFilter) : reachable f -> atRest (PII_PATTERNS f).
Proof.
  induction 1 as [|f x _ IH|f x _ IH|f x _ IH].
  - repeat constructor.
  - apply rest_validateInput.
  - apply rest_validateOutput, IH.
  - apply rest_streamFilter, IH.
Qed.

Lemma shape_rest_eq (ps qs : list RegExp) :
  map shape ps = map shape qs -> atRest ps -> atRest qs -> ps = qs.
Proof.
  revert qs. induction ps as [|p ps IH]; intros [|q qs] Hs Hp Hq;
    try discriminate; [reflexivity|].
  apply Forall_cons_iff in Hp as [Hp Hps]. apply Forall_cons_iff in Hq as [Hq Hqs].
  cbn [map] in Hs. injection Hs as Hsrc Hci Hg Hrest.
  f_equal; [|apply IH; assumption].
  destruct p, q. cbn in *. congruence.
Qed.

Lemma reachable_PII (f : SafetyFilter) :
  reachable f -> PII_PATTERNS f = PII_PATTERNS newFilter.
Proof.
  intros H. apply shape_rest_eq.
  - apply (reachable_sameTables f H).
  - apply reachable_rest, H.
  - repeat constructor.
Qed.

Lemma validateOutput_PII (f g : SafetyFilter) (x : jsstring) :
  PII_PATTERNS f = PII_PATTERNS g ->
  fst (validateOutput f x) = fst (validateOutput g x).
Proof.
  intros E. unfold validateOutput, containsPII, redactPII. rewrite E.
  destruct (containsToxicity x); [reflexivity|].
  destruct (someTest (PII_PATTERNS g) x) as [b ps]. destruct b.
  - cbn [PII_PATTERNS]. destruct (replaceEach ps x). reflexivity.
  - destruct (containsSystemInfo x); reflexivity.
Qed.

Lemma streamFilter_PII (f g : SafetyFilter) (x : jsstring) :
  PII_PATTERNS f = PII_PATTERNS g ->
  fst (streamFilter f x) = fst (streamFilter g x).
Proof.
  intros E. unfold streamFilter, containsPII, redactPII. rewrite E.
  destruct (someTest (PII_PATTERNS g) x) as [b ps].
  destruct (b || containsSystemInfo x); [|reflexivity].
  cbn [PII_PATTERNS]. destruct (replaceEach ps _). reflexivity.
Qed.

(** The checks of the output do not depend on the calls made before:
    between the calls every PII pattern has its [lastIndex] back at 0,
    so that [validateOutput] and the stream filter, after any calls of
    the filter, return for a text what a new filter returns for it. *)
Theorem validateOutput_repeatable (f : SafetyFilter) (x : jsstring) :
  reachable f ->
  PII_PATTERNS f = PII_PATTERNS newFilter /\
  fst (validateOutput f x) = fst (validateOutput newFilter x) /\
  fst (streamFilter f x) = fst (streamFilter newFilter x).
Proof.
  intros H. pose proof (reachable_PII f H) as E.
  split; [exact E|]. split; [apply validateOutput_PII, E | apply streamFilter_PII, E].
Qed.

Lemma validateOutput_repeatable_witness :
  fst (validateOutput (snd (validateOutput newFilter (str "call 555-123-4567")))
                      (str "call 555-123-4567")) =
  fst (validateOutput newFilter (str "call 555-123-4567")).
Proof.
  apply (validateOutput_repeatable
           (snd (validateOutput newFilter (str "call 555-123-4567")))
           (str "call 555-123-4567")).
  apply reach_output, reach_new.
Defined.

(** *** The injection patterns between the calls *)

Lemma exec_plain (p : RegExp) (s : jsstring) :
  global p = false -> snd (exec p s) = p.
Proof.
  intros Hg. unfold exec. rewrite Hg.
  destruct (length s <? 0); [reflexivity|].
  destruct (search _ _ _ _ _) as [[i n]|]; reflexivity.
Qed.

Lemma execAll_app (ps qs : list RegExp) (s : jsstring) :
  execAll (ps ++ qs) s =
  (fst (execAll ps s) ++ fst (execAll qs s), snd (execAll ps s) ++ snd (execAll qs s)).
Proof.
  induction ps as [|p ps IH]; cbn [app execAll].
  - destruct (execAll qs s). reflexivity.
  - destruct (exec p s) as [m p']. rewrite IH.
    destruct (execAll ps s) as [found rest'], (execAll qs s) as [found' rest''].
    cbn [fst snd]. destruct m as [[i n]|]; reflexivity.
Qed.

Lemma execAll_plain (ps : list RegExp) (s : jsstring) :
  Forall (fun p => global p = false) ps -> snd (execAll ps s) = ps.
Proof.
  induction 1 as [|p ps Hp _ IH]; [reflexivity|]. cbn [execAll].
  pose proof (exec_plain p s Hp) as E.
  destruct (exec p s) as [m p']. destruct (execAll ps s) as [found rest'].
  cbn [snd] in *. congruence.
Qed.

Lemma plainInjections_plain : Forall (fun p => global p = false) plainInjections.
Proof. repeat constructor. Qed.

Lemma exec_global_snd (p : RegExp) (s : jsstring) :
  global p = true -> exists n, snd (exec p s) = setLastIndex p n.
Proof.
  intros Hg. unfold exec. rewrite Hg.
  destruct (length s <? lastIndex p); [exists 0%nat; reflexivity|].
  destruct (search _ _ _ _ _) as [[i n]|]; eexists; reflexivity.
Qed.

Lemma INJECTION_validateInput (f : SafetyFilter) (x : jsstring) :
  INJECTION_PATTERNS (snd (validateInput f x)) =
  snd (execAll (INJECTION_PATTERNS f) x).
Proof.
  unfold validateInput, collectIssues, checkPromptInjection, checkPII.
  destruct (execAll (INJECTION_PATTERNS f) x) as [found ps].
  cbn [PII_PATTERNS INJECTION_PATTERNS].
  destruct (matchEach (PII_PATTERNS f) x) as [found' qs].
  destruct (existsb blocks _); [reflexivity|].
  unfold sanitizeInput. cbn [PII_PATTERNS INJECTION_PATTERNS].
  destruct (replaceEach qs (truncated x)). reflexivity.
Qed.

Lemma INJECTION_validateOutput (f : SafetyFilter) (x : jsstring) :
  INJECTION_PATTERNS (snd (validateOutput f x)) = INJECTION_PATTERNS f.
Proof.
  unfold validateOutput, containsPII, redactPII.
  destruct (containsToxicity x); [reflexivity|].
  destruct (someTest (PII_PATTERNS f) x) as [b ps]. destruct b.
  - cbn [PII_PATTERNS INJECTION_PATTERNS]. destruct (replaceEach ps x). reflexivity.
  - destruct (containsSystemInfo x); reflexivity.
Qed.

Lemma INJECTION_streamFilter (f : SafetyFilter) (x : jsstring) :
  INJECTION_PATTERNS (snd (streamFilter f x)) = INJECTION_PATTERNS f.
Proof.
  unfold streamFilter, containsPII, redactPII.
  destruct (someTest (PII_PATTERNS f) x) as [b ps].
  destruct (b || containsSystemInfo x); [|reflexivity].
  cbn [PII_PATTERNS INJECTION_PATTERNS]. destruct (replaceEach ps _). reflexivity.
Qed.

(** After any calls, the injection patterns are those of a new filter
    but for the [lastIndex] of the template expression. *)
Lemma reachable_INJECTION (f : SafetyFilter) :
  reachable f ->
  exists n, INJECTION_PATTERNS f = plainInjections ++ [setLastIndex templateExpression n].
Proof.
  induction 1 as [|f x _ [n IH]|f x _ IH|f x _ IH].
  - exists 0%nat. reflexivity.
  - rewrite INJECTION_validateInput, IH, execAll_app. cbn [snd].
    rewrite (execAll_plain _ _ plainInjections_plain).
    cbn [execAll].
    destruct (exec_global_snd (setLastIndex templateExpression n) x eq_refl) as [k Hk].
    destruct (exec (setLastIndex templateExpression n) x) as [m p'].
    cbn [snd] in *. subst p'. exists k. reflexivity.
  - rewrite INJECTION_validateOutput. exact IH.
  - rewrite INJECTION_streamFilter. exact IH.
Qed.

(** *** A text without a template expression *)

Lemma search_None_step (ci : bool) (r : regex) (prev : option ascii)
    (a : ascii) (t : jsstring) (i : nat) :
  search ci r prev (a :: t) i = None -> search ci r (Some a) t (S i) = None.
Proof.
  intros H. cbn [search] in H.
  destruct (match_at _ _ _); [discriminate H | exact H].
Qed.

Lemma search_None_index (ci : bool) (r : regex) (rest : jsstring) :
  forall (prev : option ascii) (i j : nat),
    search ci r prev rest i = None -> search ci r prev rest j = None.
Proof.
  induction rest as [|a t IH]; intros prev i j H; cbn [search] in *.
  - destruct (match_at _ _ _); [discriminate H | reflexivity].
  - destruct (match_at _ _ _); [discriminate H|].
    exact (IH _ _ _ H).
Qed.

Lemma search_None_later (ci : bool) (r : regex) (n : nat) :
  forall (s : jsstring) (prev : option ascii) (i j : nat),
    (n <= length s)%nat ->
    search ci r prev s i = None ->
    search ci r (match n with O => prev | S _ => last (firstn n s) end)
           (skipn n s) j = None.
Proof.
  induction n as [|n IH]; intros s prev i j Hn H.
  - cbn [skipn]. exact (search_None_index ci r s prev i j H).
  - destruct s as [|a t]; [cbn in Hn; lia|]. cbn [length] in Hn.
    apply search_None_step in H.
    specialize (IH t (Some a) (S i) j ltac:(lia) H). cbn [skipn firstn].
    destruct n as [|n]; [exact IH|].
    destruct t as [|b t]; [cbn in Hn; lia|].
    cbn [firstn] in *. exact IH.
Qed.

Lemma testLit_false (r : regex) (ci : bool) (s : jsstring) :
  testLit r ci s = false -> search ci r None s 0 = None.
Proof.
  unfold testLit, test. intros H.
  pose proof (exec_not_global (literal r ci false) s eq_refl) as E.
  destruct (exec (literal r ci false) s) as [[m|] p']; cbn [fst] in *;
    [discriminate | symmetry; exact E].
Qed.

(** On a text without a template expression, the template expression
    finds nothing wherever its search starts, and is at rest after it. *)
Lemma exec_template_free (x : jsstring) (n : nat) :
  testLit templatePattern false x = false ->
  exec (setLastIndex templateExpression n) x = (None, templateExpression).
Proof.
  intros H. apply testLit_false in H. unfold exec.
  cbn [global lastIndex setLastIndex templateExpression literal ignoreCase source].
  destruct (length x <? n) eqn:E; [reflexivity|].
  apply Nat.ltb_ge in E. unfold ctx_at. cbn [fst snd].
  assert (S0 : search false templatePattern (last (firstn n x)) (skipn n x) n = None).
  { pose proof (search_None_later false templatePattern n x None 0%nat n E H) as G.
    destruct n; [exact G | exact G]. }
  rewrite S0. reflexivity.
Qed.

Lemma checkPromptInjection_template_free (f : SafetyFilter) (x : jsstring) :
  reachable f -> testLit templatePattern false x = false ->
  checkPromptInjection f x = checkPromptInjection newFilter x /\
  snd (checkPromptInjection f x) = newFilter.
Proof.
  intros Hr Hx. destruct (reachable_INJECTION f Hr) as [n Hn].
  pose proof (reachable_PII f Hr) as Hp.
  assert (E : forall k, execAll (plainInjections ++ [setLastIndex templateExpression k]) x
                        = (fst (execAll plainInjections x), INJECTION_PATTERNS newFilter)).
  { intros k. rewrite execAll_app, (execAll_plain _ _ plainInjections_plain).
    cbn [execAll]. rewrite (exec_template_free x k Hx). cbn [fst snd].
    rewrite app_nil_r. reflexivity. }
  assert (E0 : execAll (INJECTION_PATTERNS newFilter) x
               = (fst (execAll plainInjections x), INJECTION_PATTERNS newFilter))
    by exact (E 0%nat).
  unfold checkPromptInjection. rewrite Hn, Hp, (E n), E0. split; reflexivity.
Qed.

(** After any calls of the filter, [validateInput] returns for a text
    without a template expression what a new filter returns for it, and
    leaves the filter as a new one. *)
Theorem validateInput_repeatable_without_template
    (f : SafetyFilter) (x : jsstring) :
  reachable f ->
  testLit templatePattern false x = false ->
  fst (validateInput f x) = fst (validateInput newFilter x) /\
  snd (validateInput f x) = newFilter.
Proof.
  intros Hr Hx.
  destruct (checkPromptInjection_template_free f x Hr Hx) as [E1 E2].
  assert (E : validateInput f x = validateInput newFilter x)
    by (unfold validateInput, collectIssues; rewrite E1; reflexivity).
  split; [rewrite E; reflexivity|].
  assert (Hreach : reachable (snd (validateInput f x))) by (apply reach_input, Hr).
  pose proof (reachable_PII _ Hreach) as Hp.
  pose proof (INJECTION_validateInput f x) as Hi.
  assert (Hs : snd (execAll (INJECTION_PATTERNS f) x) = INJECTION_PATTERNS newFilter).
  { pose proof E2 as G. unfold checkPromptInjection in G.
    destruct (execAll (INJECTION_PATTERNS f) x) as [found ps]. cbn [snd] in *.
    apply (f_equal INJECTION_PATTERNS) in G. exact G. }
  rewrite Hs in Hi.
  destruct (snd (validateInput f x)) as [pii inj]. cbn [PII_PATTERNS INJECTION_PATTERNS] in *.
  subst. reflexivity.
Qed.

Lemma validateInput_repeatable_without_template_witness :
  fst (validateInput usedFilter (str "what are tides?")) =
  fst (validateInput newFilter (str "what are tides?")) /\
  snd (validateInput usedFilter (str "what are tides?")) = newFilter.
Proof.
  apply (validateInput_repeatable_without_template usedFilter (str "what are tides?")).
  - apply reach_input, reach_new.
  - vm_compute. reflexivity.
Defined.

(** *** The verdict *)

Lemma validateInput_fields (f : SafetyFilter) (x : jsstring) :
  let found := fst (collectIssues f x) in
  let r := fst (validateInput f x) in
  blocked r = existsb blocks found /\
  isValid r = negb (existsb blocks found) && (length found =? 0)%nat /\
  issues r = map (fun i => typeName (type i) ++ str ": " ++ description i) found /\
  overall r = calculateOverallSeverity found /\
  (existsb blocks found = true -> sanitized r = []) /\
  (existsb blocks found = false ->
   sanitized r = fst (sanitizeInput (snd (collectIssues f x)) (truncated x))).
Proof.
  cbn zeta. unfold validateInput.
  destruct (collectIssues f x) as [found f1]. cbn [fst snd].
  destruct (existsb blocks found) eqn:E.
  - cbn [fst blocked isValid issues overall sanitized]. repeat split; trivial.
    discriminate.
  - destruct (sanitizeInput f1 (truncated x)) as [clean f2].
    cbn [fst blocked isValid issues overall sanitized]. repeat split; trivial.
    discriminate.
Qed.

(** The fields of a verdict agree: it is valid exactly when no issue
    was found, and then its severity is low; a verdict of high severity
    is blocked; a blocked verdict is not valid, has a severity above low
    and no sanitized text. *)
Theorem validateInput_verdict (f : SafetyFilter) (x : jsstring) :
  let r := fst (validateInput f x) in
  (isValid r = true <-> issues r = []) /\
  (isValid r = true -> overall r = low /\ blocked r = false) /\
  (overall r = high -> blocked r = true) /\
  (blocked r = true ->
   isValid r = false /\ overall r <> low /\ sanitized r = []).
Proof.
  cbn zeta. destruct (validateInput_fields f x) as (Hb & Hv & Hi & Ho & Hs & _).
  cbn zeta in *. set (found := fst (collectIssues f x)) in *.
  rewrite Hb, Hv, Hi, Ho. clear Hb Hv Hi Ho.
  assert (Hnil : existsb blocks found = true -> found <> [])
    by (intros H ->; discriminate H).
  assert (Hhigh : existsb (fun i => isHigh (severity i)) found = true ->
                  existsb blocks found = true).
  { rewrite !existsb_exists. intros [i [Hin Hh]]. exists i. split; [exact Hin|].
    unfold blocks. rewrite Hh. reflexivity. }
  assert (Hmed : existsb blocks found = true ->
                 existsb (fun i => isHigh (severity i)) found = true \/
                 existsb (fun i => isMedium (severity i)) found = true).
  { rewrite !existsb_exists. intros [i [Hin Hbl]]. unfold blocks in Hbl.
    destruct (severity i) eqn:Es; cbn in Hbl.
    - rewrite andb_false_r in Hbl. discriminate.
    - right. exists i. rewrite Es. auto.
    - left. exists i. rewrite Es. auto. }
  unfold calculateOverallSeverity. split; [|split; [|split]].
  - split.
    + intros H. apply andb_true_iff in H as [_ H]. apply Nat.eqb_eq in H.
      destruct found; [reflexivity | discriminate].
    + intros H. apply map_eq_nil in H. rewrite H. reflexivity.
  - intros H. apply andb_true_iff in H as [H1 H2]. apply Nat.eqb_eq in H2.
    destruct found; [split; reflexivity | discriminate].
  - destruct (existsb (fun i => isHigh (severity i)) found) eqn:E.
    + intros _. apply Hhigh. reflexivity.
    + destruct (existsb (fun i => isMedium (severity i)) found); discriminate.
  - intros H. rewrite H. split; [reflexivity|]. split; [|apply Hs, H].
    destruct (Hmed H) as [E|E]; rewrite E; [discriminate|].
    destruct (existsb (fun i => isHigh (severity i)) found); discriminate.
Qed.

(** *** A valid text is passed on without redaction *)

Lemma replace_go_no_match (ci : bool) (r : regex) (by_ : jsstring)
    (rest : jsstring) : forall prev : option ascii,
  matches_go ci r prev rest 0 = [] -> replace_go ci r by_ prev rest 0 = rest.
Proof.
  induction rest as [|a t IH]; intros prev H; cbn [matches_go replace_go] in *.
  - destruct (match_at _ _ _); [discriminate H | reflexivity].
  - destruct (match_at _ _ _); [discriminate H|]. f_equal. apply IH, H.
Qed.

Lemma replaceAll_no_match (p : RegExp) (s by_ : jsstring) :
  fst (matchAll p s) = None -> fst (replaceAll p s by_) = s.
Proof.
  unfold matchAll, replaceAll. cbn [fst].
  destruct (matches_go _ _ _ _ _) eqn:E; [|discriminate].
  intros _. apply replace_go_no_match, E.
Qed.

Lemma matchEach_none (ps : list RegExp) (s : jsstring) :
  fst (matchEach ps s) = [] -> Forall (fun p => fst (matchAll p s) = None) ps.
Proof.
  induction ps as [|p ps IH]; [constructor|]. cbn [matchEach].
  destruct (matchAll p s) as [m p'] eqn:Em.
  destruct (matchEach ps s) as [found rest'].
  cbn [fst] in *. destruct m; [discriminate|]. intros H.
  constructor; [rewrite Em; reflexivity | exact (IH H)].
Qed.

Lemma replaceEach_none (ps : list RegExp) (s : jsstring) :
  Forall (fun p => fst (matchAll p s) = None) ps -> fst (replaceEach ps s) = s.
Proof.
  induction 1 as [|p ps Hp _ IH]; [reflexivity|]. cbn [replaceEach].
  pose proof (replaceAll_no_match p s (str "[REDACTED]") Hp) as E.
  destruct (replaceAll p s (str "[REDACTED]")) as [s' p']. cbn [fst] in E. subst s'.
  destruct (replaceEach ps s) as [s'' rest']. exact IH.
Qed.

Lemma matchAll_shape (p q : RegExp) (s : jsstring) :
  shape p = shape q -> fst (matchAll p s) = fst (matchAll q s).
Proof.
  unfold shape, matchAll. intros E. injection E as -> -> _.
  destruct (matches_go _ _ _ _ _); reflexivity.
Qed.

(** A text that [validateInput] finds valid has at most
    [MAX_INPUT_LENGTH] code units, and its sanitized text is the text
    itself with every run of white space made one blank, trimmed, and
    without the characters [<], [>], [{] and [}]: nothing is redacted. *)
Theorem validateInput_valid_text (f : SafetyFilter) (x : jsstring) :
  isValid (fst (validateInput f x)) = true ->
  (length x <= MAX_INPUT_LENGTH)%nat /\
  sanitized (fst (validateInput f x)) = stripBrackets (collapseSpaces x).
Proof.
  destruct (validateInput_fields f x) as (_ & Hv & _ & _ & _ & Hs).
  cbn zeta in *. rewrite Hv. intros H. apply andb_true_iff in H as [H1 H2].
  apply negb_true_iff in H1. apply Nat.eqb_eq in H2.
  rewrite (Hs H1). clear Hs Hv.
  unfold collectIssues in *.
  destruct (checkPromptInjection f x) as [inj f1] eqn:E1.
  pose proof (PII_checkPromptInjection f x) as Hpii. rewrite E1 in Hpii.
  cbn [snd] in Hpii.
  unfold checkPII in *.
  pose proof (snd_matchEach (PII_PATTERNS f1) x) as Hsnd.
  pose proof (matchEach_none (PII_PATTERNS f1) x) as Hnone.
  destruct (matchEach (PII_PATTERNS f1) x) as [found ps]. cbn [fst snd] in *.
  apply length_zero_iff_nil in H2.
  apply app_eq_nil in H2 as [Hlen H2]. apply app_eq_nil in H2 as [_ H2].
  apply app_eq_nil in H2 as [_ H2]. apply app_eq_nil in H2 as [Hfound _].
  assert (Hshort : (MAX_INPUT_LENGTH <? length x)%nat = false).
  { destruct (MAX_INPUT_LENGTH <? length x)%nat; [discriminate Hlen | reflexivity]. }
  split; [apply Nat.ltb_ge, Hshort|].
  unfold truncated. rewrite Hshort. unfold sanitizeInput. cbn [PII_PATTERNS].
  assert (Hps : fst (replaceEach ps x) = x).
  { apply replaceEach_none. rewrite Hsnd.
    specialize (Hnone Hfound). apply List.Forall_forall. intros q Hq.
    apply in_map_iff in Hq as [p [<- Hp]]. rewrite List.Forall_forall in Hnone.
    rewrite <- (Hnone p Hp). apply matchAll_shape. reflexivity. }
  destruct (replaceEach ps x) as [s1 qs]. cbn [fst] in *. subst s1. reflexivity.
Qed.

Lemma validateInput_valid_text_witness :
  (length (str "why  are <there> tides?") <= MAX_INPUT_LENGTH)%nat /\
  sanitized (fst (validateInput newFilter (str "why  are <there> tides?"))) =
  stripBrackets (collapseSpaces (str "why  are <there> tides?")).
Proof.
  apply (validateInput_valid_text newFilter (str "why  are <there> tides?")).
  vm_compute. reflexivity.
Defined.

(** *** The three steps of the sanitizer *)
















(** *** The mark of a replacement *)















End SafetyFacts.

(** ** The response cache: which requests share a key *)

Module CacheFacts.
Import Cache StringFacts.

Lemma toLowerChar_space c : isWhiteSpace (toLowerChar c) = isWhiteSpace c.
Proof. destruct c as [[] [] [] [] [] [] [] []]; reflexivity. Qed.

Lemma toLowerCase_app a b : toLowerCase (a ++ b) = toLowerCase a ++ toLowerCase b.
Proof. apply map_app. Qed.

Lemma toLowerCase_blank s : blank s -> blank (toLowerCase s).
Proof.
  unfold blank, toLowerCase. induction 1 as [|c t Hc _ IH]; cbn [map]; constructor.
  - rewrite toLowerChar_space. exact Hc.
  - exact IH.
Qed.

Lemma toLowerCase_caseVariant a b : caseVariant a b -> toLowerCase a = toLowerCase b.
Proof.
  unfold toLowerCase. induction 1 as [|x y a b Hxy _ IH]; cbn [map]; congruence.
Qed.

Lemma hashContent_padding p a q b :
  blank p -> blank q -> caseVariant a b ->
  trim (toLowerCase (p ++ a ++ q)) = trim (toLowerCase b).
Proof.
  intros Hp Hq Hab. rewrite !toLowerCase_app.
  rewrite trim_padding by (apply toLowerCase_blank; assumption).
  rewrite (toLowerCase_caseVariant a b Hab). reflexivity.
Qed.

Lemma caseVariant_refl a : caseVariant a a.
Proof. unfold caseVariant. induction a; constructor; [reflexivity | assumption]. Qed.

Lemma caseVariant_app a b c d :
  caseVariant a b -> caseVariant c d -> caseVariant (a ++ c) (b ++ d).
Proof.
  unfold caseVariant. intros H K.
  induction H as [|x y a b Hxy _ IH]; cbn [app]; [exact K | constructor; assumption].
Qed.

Lemma generateCacheKey_padding (type pre a post b : jsstring) :
  blank pre -> blank post -> caseVariant a b ->
  generateCacheKey type (pre ++ a ++ post) = generateCacheKey type b.
Proof.
  intros H1 H2 Hab. unfold generateCacheKey, hashContent.
  rewrite (hashContent_padding pre a post b H1 H2 Hab). reflexivity.
Qed.

(** C2, as the code has it.  Requests whose serialized contents differ
    by letter case and by white space before and after the content share
    their cache key; for the key of a reply, where the content is the
    model, a colon and the prompt, that is white space before the model
    and after the prompt; and the keys of two contents of one type differ
    exactly when their fingerprints (the first sixteen digits of the
    SHA-256 digest of the lower-cased, trimmed content) differ. *)
Theorem cache_key_case_and_outer_space
    (type pre1 a post1 pre2 b post2 : jsstring) :
  blank pre1 -> blank post1 -> blank pre2 -> blank post2 -> caseVariant a b ->
  generateCacheKey type (pre1 ++ a ++ post1) =
  generateCacheKey type (pre2 ++ b ++ post2)
  /\ (forall model1 model2 prompt1 prompt2 : jsstring,
        caseVariant model1 model2 -> caseVariant prompt1 prompt2 ->
        llmCacheKey (prompt1 ++ post1) (pre1 ++ model1) =
        llmCacheKey (prompt2 ++ post2) (pre2 ++ model2))
  /\ (forall c d : jsstring,
        generateCacheKey type c = generateCacheKey type d <->
        hashContent c = hashContent d).
Proof.
  intros H1 H2 H3 H4 Hab. split; [|split].
  - rewrite (generateCacheKey_padding type pre1 a post1 b H1 H2 Hab).
    rewrite (generateCacheKey_padding type pre2 b post2 b H3 H4 (caseVariant_refl b)).
    reflexivity.
  - intros model1 model2 prompt1 prompt2 Hm Hp. unfold llmCacheKey.
    assert (V : caseVariant (model1 ++ str ":" ++ prompt1) (model2 ++ str ":" ++ prompt2)).
    { apply caseVariant_app; [exact Hm|].
      apply caseVariant_app; [apply caseVariant_refl | exact Hp]. }
    replace ((pre1 ++ model1) ++ str ":" ++ prompt1 ++ post1)
      with (pre1 ++ (model1 ++ str ":" ++ prompt1) ++ post1)
      by (rewrite <- !app_assoc; reflexivity).
    replace ((pre2 ++ model2) ++ str ":" ++ prompt2 ++ post2)
      with (pre2 ++ (model2 ++ str ":" ++ prompt2) ++ post2)
      by (rewrite <- !app_assoc; reflexivity).
    rewrite (generateCacheKey_padding _ pre1 _ post1 _ H1 H2 V).
    rewrite (generateCacheKey_padding _ pre2 _ post2 _ H3 H4
               (caseVariant_refl (model2 ++ str ":" ++ prompt2))).
    reflexivity.
  - intros c d. unfold generateCacheKey. split.
    + intros H. repeat apply app_inv_head in H. exact H.
    + intros ->. reflexivity.
Qed.

Lemma cache_key_case_and_outer_space_witness :
  generateCacheKey (str "llm") (str "  " ++ str "GPT-4o:What is X" ++ str " ") =
  generateCacheKey (str "llm") ([] ++ str "gpt-4o:what is x" ++ []) /\
  llmCacheKey (str "What is X" ++ str " ") (str "  " ++ str "GPT-4o") =
  llmCacheKey (str "what is x" ++ []) ([] ++ str "gpt-4o").
Proof.
  assert (B2 : blank (str "  ")) by (unfold blank; repeat constructor).
  assert (B1 : blank (str " ")) by (unfold blank; repeat constructor).
  assert (B0 : blank []) by constructor.
  assert (V : caseVariant (str "GPT-4o:What is X") (str "gpt-4o:what is x")).
  { unfold caseVariant. repeat (constructor; [reflexivity|]). constructor. }
  assert (Vm : caseVariant (str "GPT-4o") (str "gpt-4o")).
  { unfold caseVariant. repeat (constructor; [reflexivity|]). constructor. }
  assert (Vp : caseVariant (str "What is X") (str "what is x")).
  { unfold caseVariant. repeat (constructor; [reflexivity|]). constructor. }
  destruct (cache_key_case_and_outer_space (str "llm") _ _ _ _ _ _
              B2 B1 B0 B0 V) as (K1 & K2 & _).
  split; [exact K1 | exact (K2 _ _ _ _ Vm Vp)].
Defined.

(** Two requests that differ only by the white space inside the prompt
    (one blank or two between its words) get different keys. *)
Lemma cache_key_inner_space_counterexample :
  ~ (forall type a b : jsstring,
       sameUpToCaseAndSpace a b ->
       generateCacheKey type a = generateCacheKey type b).
Proof.
  intros H.
  assert (E : sameUpToCaseAndSpace (str "gpt-4o:what is x")
                                   (str "gpt-4o:what  is x"))
    by (vm_compute; reflexivity).
  apply (H (str "llm")) in E. vm_compute in E. discriminate E.
Qed.

Local Open Scope Z_scope.

(** *** The fingerprint has sixteen digits *)

Lemma round_length (st : list N) (kw : N * N) :
  length (SHA256.round st kw) = length st.
Proof.
  destruct st as [|a [|b [|c [|d [|e [|f [|g [|h [|i st]]]]]]]]]; reflexivity.
Qed.

Lemma rounds_length (kws : list (N * N)) : forall st : list N,
  length (fold_left SHA256.round kws st) = length st.
Proof.
  induction kws as [|kw kws IH]; intros st; [reflexivity|].
  cbn [fold_left]. rewrite IH. apply round_length.
Qed.

Lemma compress_length (h block : list N) :
  length (SHA256.compress h block) = length h.
Proof.
  unfold SHA256.compress. rewrite length_map, length_combine, rounds_length. lia.
Qed.

Lemma blocks_length (fuel : nat) : forall ws h : list N,
  length (SHA256.blocks fuel ws h) = length h.
Proof.
  induction fuel as [|fuel IH]; intros ws h; [reflexivity|].
  destruct ws as [|w ws]; [reflexivity|]. cbn [SHA256.blocks].
  rewrite IH. apply compress_length.
Qed.

Lemma be_bytes_length (n : nat) (x : N) : length (SHA256.be_bytes n x) = n.
Proof. induction n as [|n IH]; [reflexivity|]. cbn [SHA256.be_bytes length]. rewrite IH. reflexivity. Qed.

Lemma flat_map_length_const {A B} (f : A -> list B) (k : nat) (l : list A) :
  (forall x, length (f x) = k) -> length (flat_map f l) = (k * length l)%nat.
Proof.
  intros H. induction l as [|x l IH]; cbn [flat_map length]; [lia|].
  rewrite length_app, H, IH. lia.
Qed.

Lemma sha256hex_length (s : jsstring) : length (SHA256.sha256hex s) = 64%nat.
Proof.
  unfold SHA256.sha256hex, SHA256.hex, SHA256.digest.
  rewrite (flat_map_length_const _ 2) by reflexivity.
  rewrite (flat_map_length_const _ 4) by (intros; apply be_bytes_length).
  rewrite blocks_length. reflexivity.
Qed.

Lemma hashContent_length (content : jsstring) : length (hashContent content) = 16%nat.
Proof.
  unfold hashContent, substring0. rewrite length_firstn, sha256hex_length. reflexivity.
Qed.

(** Keys are equal only for equal types and equal fingerprints. *)
Lemma generateCacheKey_inj (type1 type2 content1 content2 : jsstring) :
  generateCacheKey type1 content1 = generateCacheKey type2 content2 ->
  type1 = type2 /\ hashContent content1 = hashContent content2.
Proof.
  unfold generateCacheKey. intros E. apply app_inv_head in E.
  apply app_inv_head in E.
  apply app_inj_2 in E as [E1 E2].
  - split; [exact E1|]. apply app_inv_head in E2. exact E2.
  - rewrite !length_app, !hashContent_length. reflexivity.
Qed.

(** *** Entries and their time to live *)

Lemma live_lookup (now : Z) (m : store) (k : list ascii) :
  live now m !! k =
  match m !! k with
  | Some e => if now <? expiresAt e then Some e else None
  | None => None
  end.
Proof.
  unfold live. destruct (m !! k) as [e|] eqn:E.
  - destruct (now <? expiresAt e) eqn:Hn.
    + apply map_lookup_filter_Some. split; [exact E | apply Z.ltb_lt, Hn].
    + apply map_lookup_filter_None. right. intros e' E'. cbn.
      pose proof (eq_trans (eq_sym E) E') as X. injection X as <-.
      apply Z.ltb_ge in Hn. lia.
  - apply map_lookup_filter_None. left. exact E.
Qed.

Lemma readEntry_written (m : store) (k : list ascii) (d : CacheData)
    (seconds maxAge t0 t1 : Z) :
  0 < seconds ->
  fst (readEntry (default m (setEx m t0 k seconds d)) k maxAge t1) =
  if (t1 <? t0 + seconds * 1000) && (t1 - timestampOf d <? maxAge)
  then Some d else None.
Proof.
  intros Hs. unfold setEx.
  replace (seconds <=? 0) with false by (symmetry; apply Z.leb_gt, Hs).
  cbn [default from_option id]. unfold readEntry.
  rewrite live_lookup. unfold store in *. rewrite lookup_insert_eq. cbn [expiresAt].
  destruct (t1 <? t0 + seconds * 1000); [|reflexivity]. cbn [data andb].
  destruct (t1 - timestampOf d <? maxAge); reflexivity.
Qed.

Lemma readEntry_other (m : store) (k k' : list ascii) (d : CacheData)
    (seconds maxAge t0 t1 : Z) :
  k <> k' ->
  fst (readEntry (default m (setEx m t0 k seconds d)) k' maxAge t1) =
  fst (readEntry m k' maxAge t1).
Proof.
  intros Hk. unfold setEx. destruct (seconds <=? 0); [reflexivity|].
  cbn [default from_option id]. unfold readEntry.
  rewrite !live_lookup. unfold store in *. rewrite lookup_insert_ne by exact Hk.
  destruct (m !! k') as [e|]; [|reflexivity].
  destruct (t1 <? expiresAt e); [|reflexivity].
  destruct (t1 - timestampOf (data e) <? maxAge); reflexivity.
Qed.

Lemma fst_getCachedResponse (m : store) (q : jsstring) (now : Z) :
  fst (getCachedResponse m q now) =
  fst (readEntry m (generateCacheKey (str "search") q) 3600000 now) ≫= responseOf.
Proof. unfold getCachedResponse. destruct (readEntry _ _ _ _). reflexivity. Qed.

Lemma fst_getCachedLLMResponse (m : store) (p mo : jsstring) (now : Z) :
  fst (getCachedLLMResponse m p mo now) =
  fst (readEntry m (llmCacheKey p mo) 86400000 now) ≫= responseOf.
Proof. unfold getCachedLLMResponse. destruct (readEntry _ _ _ _). reflexivity. Qed.

Lemma fst_getCachedResourceContent (m : store) (u : jsstring) (now : Z) :
  fst (getCachedResourceContent m u now) =
  fst (readEntry m (generateCacheKey (str "resource") u) 21600000 now) ≫= contentOf.
Proof. unfold getCachedResourceContent. destruct (readEntry _ _ _ _). reflexivity. Qed.

Lemma generateCacheKey_hash (type a b : jsstring) :
  hashContent a = hashContent b -> generateCacheKey type a = generateCacheKey type b.
Proof. unfold generateCacheKey. intros ->. reflexivity. Qed.

(** A search response that has been cached is read back, under every
    query with the same fingerprint, for as long as it is younger than
    both its time to live and one hour: a time to live of more than an
    hour is cut to one hour by the reader. *)
Theorem search_response_read_back
    (m : store) (query response query' : jsstring) (options : CacheOptions)
    (t0 t1 : Z) :
  prefixOf options = str "search" ->
  0 < ttlOf options ->
  hashContent query' = hashContent query ->
  fst (getCachedResponse (cacheResponse m query response options t0) query' t1) =
  if (t1 <? t0 + ttlOf options * 1000) && (t1 - t0 <? 3600000)
  then Some response else None.
Proof.
  intros Hp Ht Hq. rewrite fst_getCachedResponse. unfold cacheResponse.
  rewrite Hp, (generateCacheKey_hash _ query' query Hq).
  rewrite readEntry_written by exact Ht. cbn [timestampOf].
  destruct (_ && _); reflexivity.
Qed.

Lemma search_response_read_back_witness :
  fst (getCachedResponse
         (cacheResponse ∅ (str "tides") (str "twice a day")
                        {| ttl := Some 7200; prefix := None |} 1000)
         (str " Tides ") 3601000) = None /\
  fst (getCachedResponse
         (cacheResponse ∅ (str "tides") (str "twice a day")
                        {| ttl := Some 7200; prefix := None |} 1000)
         (str " Tides ") 3600999) = Some (str "twice a day").
Proof.
  assert (H : hashContent (str " Tides ") = hashContent (str "tides"))
    by (vm_compute; reflexivity).
  split.
  - rewrite (search_response_read_back ∅ (str "tides") (str "twice a day")
               (str " Tides ") {| ttl := Some 7200; prefix := None |} 1000 3601000
               eq_refl eq_refl H).
    reflexivity.
  - rewrite (search_response_read_back ∅ (str "tides") (str "twice a day")
               (str " Tides ") {| ttl := Some 7200; prefix := None |} 1000 3600999
               eq_refl eq_refl H).
    reflexivity.
Defined.

(** A reply of a model that has been cached is read back for the same
    prompt and model exactly while it is less than twenty-four hours
    old. *)
Theorem llm_response_read_back
    (m : store) (prompt response model : jsstring) (t0 t1 : Z) :
  fst (getCachedLLMResponse (cacheLLMResponse m prompt response model t0)
                            prompt model t1) =
  if t1 - t0 <? 86400000 then Some response else None.
Proof.
  rewrite fst_getCachedLLMResponse. unfold cacheLLMResponse.
  rewrite readEntry_written by lia. cbn [timestampOf].
  destruct (t1 - t0 <? 86400000) eqn:E.
  - replace (t1 <? t0 + 86400 * 1000) with true
      by (symmetry; apply Z.ltb_lt; apply Z.ltb_lt in E; lia).
    reflexivity.
  - rewrite andb_false_r. reflexivity.
Qed.

(** The address of a page is a content like any other: what is cached
    for an address is returned, for six hours, for every address that
    differs from it by the case of its letters or by white space around
    it. *)
Theorem resource_content_shared_by_case_variants
    (m : store) (url url' pre post content : jsstring) (t0 t1 : Z) :
  blank pre -> blank post -> caseVariant url' url ->
  fst (getCachedResourceContent (cacheResourceContent m url content t0)
                                (pre ++ url' ++ post) t1) =
  if t1 - t0 <? 21600000 then Some content else None.
Proof.
  intros Hpre Hpost Hv. rewrite fst_getCachedResourceContent.
  unfold cacheResourceContent.
  rewrite (generateCacheKey_padding _ pre url' post url Hpre Hpost Hv).
  rewrite readEntry_written by lia. cbn [timestampOf].
  destruct (t1 - t0 <? 21600000) eqn:E.
  - replace (t1 <? t0 + 21600 * 1000) with true
      by (symmetry; apply Z.ltb_lt; apply Z.ltb_lt in E; lia).
    reflexivity.
  - rewrite andb_false_r. reflexivity.
Qed.

Lemma resource_content_shared_by_case_variants_witness :
  fst (getCachedResourceContent
         (cacheResourceContent ∅ (str "http://x.org/a") (str "page a") 1000)
         ([] ++ str "http://x.org/A" ++ str " ") 2000) = Some (str "page a").
Proof.
  assert (B1 : blank (str " ")) by (unfold blank; repeat constructor).
  assert (B0 : blank []) by constructor.
  assert (V : caseVariant (str "http://x.org/A") (str "http://x.org/a")).
  { unfold caseVariant. repeat (constructor; [reflexivity|]). constructor. }
  rewrite (resource_content_shared_by_case_variants ∅ (str "http://x.org/a")
             (str "http://x.org/A") [] (str " ") (str "page a") 1000 2000 B0 B1 V).
  reflexivity.
Defined.

(** *** What no reader finds *)

Lemma report_key (topic section : jsstring) (type content : jsstring) :
  type = str "search" \/ type = str "llm" \/ type = str "resource" ->
  generateCacheKey (str "report") (topic ++ str ":" ++ section) <>
  generateCacheKey type content.
Proof.
  intros Ht E. apply generateCacheKey_inj in E as [E _].
  destruct Ht as [-> | [-> | ->]]; discriminate E.
Qed.

(** [getCachedResponse] never returns what [cacheResponse] has stored
    under a prefix of its own, and no reader returns a section of a
    report: after such a write every reader answers as before it. *)
Theorem custom_prefix_and_reports_are_not_read
    (m : store) (query response : jsstring) (options : CacheOptions)
    (topic section content : jsstring) (t0 t1 : Z) :
  prefixOf options <> str "search" ->
  (forall q,
     fst (getCachedResponse (cacheResponse m query response options t0) q t1) =
     fst (getCachedResponse m q t1)) /\
  (forall q,
     fst (getCachedResponse (cacheReportSection m topic section content t0) q t1) =
     fst (getCachedResponse m q t1)) /\
  (forall p mo,
     fst (getCachedLLMResponse (cacheReportSection m topic section content t0) p mo t1) =
     fst (getCachedLLMResponse m p mo t1)) /\
  (forall u,
     fst (getCachedResourceContent (cacheReportSection m topic section content t0) u t1) =
     fst (getCachedResourceContent m u t1)).
Proof.
  intros Hp. split; [|split; [|split]].
  - intros q. rewrite !fst_getCachedResponse. unfold cacheResponse.
    rewrite readEntry_other; [reflexivity|].
    intros E. apply generateCacheKey_inj in E as [E _]. exact (Hp E).
  - intros q. rewrite !fst_getCachedResponse. unfold cacheReportSection.
    rewrite readEntry_other; [reflexivity|]. apply report_key. auto.
  - intros p mo. rewrite !fst_getCachedLLMResponse. unfold cacheReportSection.
    rewrite readEntry_other; [reflexivity|]. apply report_key. auto.
  - intros u. rewrite !fst_getCachedResourceContent. unfold cacheReportSection.
    rewrite readEntry_other; [reflexivity|]. apply report_key. auto.
Qed.

Lemma custom_prefix_and_reports_are_not_read_witness :
  fst (getCachedResponse
         (cacheResponse ∅ (str "tides") (str "twice a day")
                        {| ttl := None; prefix := Some (str "notes") |} 1000)
         (str "tides") 2000) =
  fst (getCachedResponse ∅ (str "tides") 2000).
Proof.
  refine (proj1 (custom_prefix_and_reports_are_not_read ∅ (str "tides")
                   (str "twice a day")
                   {| ttl := None; prefix := Some (str "notes") |} [] [] [] 1000 2000 _)
                (str "tides")).
  cbv. discriminate.
Defined.

(** *** Clearing the cache *)

Lemma cache_keys (m : store) (p : jsstring) (k : list ascii) :
  In k (keysWithPrefix m p) <-> is_Some (m !! k) /\ startsWith k p = true.
Proof.
  unfold keysWithPrefix. rewrite filter_In, in_map_iff. split.
  - intros [[[k' e] [E Hin]] Hp]. cbn in E. subst k'. split; [|exact Hp].
    apply list_elem_of_In, elem_of_map_to_list in Hin. eauto.
  - intros [[e He] Hp]. split; [|exact Hp]. exists (k, e). split; [reflexivity|].
    apply list_elem_of_In, elem_of_map_to_list, He.
Qed.

Lemma lookup_deleted (m : store) (ks : list (list ascii)) (k : list ascii) :
  fold_right delete m ks !! k =
  if in_dec (List.list_eq_dec ascii_dec) k ks then None else m !! k.
Proof.
  induction ks as [|j ks IH]; [reflexivity|]. cbn [fold_right].
  unfold store in *.
  destruct (decide (j = k)) as [->|N].
  - rewrite lookup_delete_eq.
    destruct (in_dec _ k (k :: ks)) as [_|H]; [reflexivity|].
    exfalso. apply H. left. reflexivity.
  - rewrite lookup_delete_ne by exact N. rewrite IH.
    destruct (in_dec _ k ks) as [H|H], (in_dec _ k (j :: ks)) as [H'|H'];
      trivial.
    + exfalso. apply H'. right. exact H.
    + destruct H' as [H'|H']; [congruence | contradiction].
Qed.

Lemma cleared_gone (m : store) (p : jsstring) (k : list ascii) (t t' : Z) :
  t <= t' -> startsWith k p = true ->
  live t' (fold_right delete m (keysWithPrefix (live t m) p)) !! k = None.
Proof.
  intros Ht Hk. rewrite live_lookup, lookup_deleted.
  destruct (in_dec _ k _) as [_|Hout]; [reflexivity|].
  destruct (m !! k) as [e|] eqn:E; [|reflexivity].
  destruct (t' <? expiresAt e) eqn:Hl; [|reflexivity].
  exfalso. apply Hout. apply cache_keys. split; [|exact Hk].
  rewrite live_lookup, E.
  replace (t <? expiresAt e) with true
    by (symmetry; apply Z.ltb_lt; apply Z.ltb_lt in Hl; lia).
  eauto.
Qed.

Lemma cleared_kept (m : store) (p : jsstring) (k : list ascii) (t t' : Z) :
  startsWith k p = false ->
  live t' (fold_right delete m (keysWithPrefix (live t m) p)) !! k = live t' m !! k.
Proof.
  intros Hk. rewrite !live_lookup, lookup_deleted.
  destruct (in_dec _ k _) as [Hin|_]; [|reflexivity].
  apply cache_keys in Hin as [_ Hin]. congruence.
Qed.

Lemma readEntry_live (m m' : store) (k : list ascii) (maxAge now : Z) :
  live now m !! k = live now m' !! k ->
  fst (readEntry m k maxAge now) = fst (readEntry m' k maxAge now).
Proof.
  unfold readEntry. intros ->. destruct (live now m' !! k) as [e|]; [|reflexivity].
  destruct (_ <? maxAge); reflexivity.
Qed.

Lemma readEntry_gone (m : store) (k : list ascii) (maxAge now : Z) :
  live now m !! k = None -> fst (readEntry m k maxAge now) = None.
Proof. unfold readEntry. intros ->. reflexivity. Qed.

Lemma key_of_type (type content : jsstring) :
  startsWith (generateCacheKey type content)
             (CACHE_PREFIX ++ str ":" ++ type ++ str ":") = true.
Proof.
  unfold generateCacheKey.
  replace (CACHE_PREFIX ++ str ":" ++ type ++ str ":" ++ hashContent content)
    with ((CACHE_PREFIX ++ str ":" ++ type ++ str ":") ++ hashContent content)
    by (rewrite <- !app_assoc; reflexivity).
  apply startsWith_app.
Qed.

Lemma key_of_cache (type content : jsstring) :
  startsWith (generateCacheKey type content) (CACHE_PREFIX ++ str ":") = true.
Proof.
  unfold generateCacheKey.
  replace (CACHE_PREFIX ++ str ":" ++ type ++ str ":" ++ hashContent content)
    with ((CACHE_PREFIX ++ str ":") ++ type ++ str ":" ++ hashContent content)
    by (rewrite <- !app_assoc; reflexivity).
  apply startsWith_app.
Qed.

Lemma key_of_other_type (content : jsstring) :
  startsWith (generateCacheKey (str "llm") content)
             (CACHE_PREFIX ++ str ":" ++ str "search" ++ str ":") = false /\
  startsWith (generateCacheKey (str "resource") content)
             (CACHE_PREFIX ++ str ":" ++ str "search" ++ str ":") = false.
Proof.
  unfold generateCacheKey. generalize (hashContent content). intros h.
  split; reflexivity.
Qed.

(** After [clearCache('search')], no search response is found, while
    the replies of models and the contents of pages are found as before;
    after [clearCache()] without a type, or with the empty type, nothing
    is found. *)
Theorem clearCache_forgets_the_type (m : store) (t t' : Z) :
  t <= t' ->
  (forall q,
     fst (getCachedResponse (snd (clearCache m (Some (str "search")) t)) q t') = None) /\
  (forall p mo,
     fst (getCachedLLMResponse (snd (clearCache m (Some (str "search")) t)) p mo t') =
     fst (getCachedLLMResponse m p mo t')) /\
  (forall u,
     fst (getCachedResourceContent (snd (clearCache m (Some (str "search")) t)) u t') =
     fst (getCachedResourceContent m u t')) /\
  (forall type, type = None \/ type = Some [] ->
     (forall q, fst (getCachedResponse (snd (clearCache m type t)) q t') = None) /\
     (forall p mo, fst (getCachedLLMResponse (snd (clearCache m type t)) p mo t') = None) /\
     (forall u, fst (getCachedResourceContent (snd (clearCache m type t)) u t') = None)).
Proof.
  intros Ht.
  assert (Es : snd (clearCache m (Some (str "search")) t) =
               fold_right delete m
                 (keysWithPrefix (live t m)
                    (CACHE_PREFIX ++ str ":" ++ str "search" ++ str ":")))
    by reflexivity.
  rewrite Es. split; [|split; [|split]].
  - intros q. rewrite fst_getCachedResponse.
    rewrite readEntry_gone; [reflexivity|].
    apply cleared_gone; [exact Ht | apply key_of_type].
  - intros p mo. rewrite !fst_getCachedLLMResponse.
    f_equal. apply readEntry_live, cleared_kept. apply key_of_other_type.
  - intros u. rewrite !fst_getCachedResourceContent.
    f_equal. apply readEntry_live, cleared_kept. apply key_of_other_type.
  - intros type Htype.
    assert (E : snd (clearCache m type t) =
                fold_right delete m
                  (keysWithPrefix (live t m) (CACHE_PREFIX ++ str ":")))
      by (destruct Htype as [->| ->]; reflexivity).
    rewrite E. split; [|split].
    + intros q. rewrite fst_getCachedResponse.
      rewrite readEntry_gone; [reflexivity|].
      apply cleared_gone; [exact Ht | apply key_of_cache].
    + intros p mo. rewrite fst_getCachedLLMResponse.
      rewrite readEntry_gone; [reflexivity|].
      apply cleared_gone; [exact Ht | apply key_of_cache].
    + intros u. rewrite fst_getCachedResourceContent.
      rewrite readEntry_gone; [reflexivity|].
      apply cleared_gone; [exact Ht | apply key_of_cache].
Qed.

Lemma clearCache_forgets_the_type_witness :
  fst (getCachedResponse
         (snd (clearCache (cacheResponse ∅ (str "tides") (str "twice a day")
                                         {| ttl := None; prefix := None |} 1000)
                          (Some (str "search")) 2000))
         (str "tides") 3000) = None.
Proof.
  refine (proj1 (clearCache_forgets_the_type
                   (cacheResponse ∅ (str "tides") (str "twice a day")
                                  {| ttl := None; prefix := None |} 1000)
                   2000 3000 _) (str "tides")).
  lia.
Defined.

End CacheFacts.

(** ** The token validator: what the chunks keep *)

Module TokenFacts.
Import Token StringFacts.

Local Open Scope Z_scope.

Lemma occursIn_refl x : occursIn x x.
Proof. exists [], []. rewrite app_nil_r. reflexivity. Qed.

Lemma occursIn_nil c : occursIn [] c.
Proof. exists [], c. reflexivity. Qed.

Lemma occursIn_nil_inv x : occursIn x [] -> x = [].
Proof.
  intros [u [v E]]. symmetry in E.
  apply app_eq_nil in E as [_ E]. apply app_eq_nil in E as [E _]. exact E.
Qed.

Lemma occursIn_app_r x c d : occursIn x c -> occursIn x (c ++ d).
Proof.
  intros [u [v ->]]. exists u, (v ++ d). rewrite <- !app_assoc. reflexivity.
Qed.

Lemma occursIn_app_l x c d : occursIn x d -> occursIn x (c ++ d).
Proof.
  intros [u [v ->]]. exists (c ++ u), v. rewrite <- !app_assoc. reflexivity.
Qed.

(** What occurs in a text occurs, trimmed, in the trimmed text. *)
Lemma occursIn_trim x c : occursIn x c -> occursIn (trim x) (trim c).
Proof.
  intros [u [v ->]].
  destruct (trim_split x) as [w1 [w2 [H1 [H2 [E [T1 T2]]]]]].
  destruct (trim x) as [|a y] eqn:Ex; [apply occursIn_nil|].
  rewrite E. set (x' := a :: y) in *.
  replace (u ++ (w1 ++ x' ++ w2) ++ v)
    with ((u ++ w1) ++ (x' ++ (w2 ++ v)))
    by (rewrite <- !app_assoc; reflexivity).
  unfold trim. rewrite trimStart_app_tight by exact T1.
  rewrite app_assoc.
  rewrite trimEnd_app_tight.
  - exists (trimStart (u ++ w1)), (trimEnd (w2 ++ v)).
    rewrite <- app_assoc. reflexivity.
  - apply tight_rev_app; [exact T2 | discriminate].
Qed.

Section Kept.

Variable encode : jsstring -> option nat.
Variable availableTokens : Z.

Lemma kept_pushed (d : list jsstring) cur x :
  occursIn x cur ->
  exists c, In c (d ++ [trim cur]) /\ occursIn (trim x) c.
Proof.
  intros H. exists (trim cur). split.
  - apply in_or_app. right. left. reflexivity.
  - apply occursIn_trim, H.
Qed.

Lemma kept_addSentence st s x :
  kept st x -> kept (addSentence encode availableTokens st s) x.
Proof.
  unfold addSentence, kept.
  destruct (availableTokens <? _); cbn [done currentChunk].
  - intros [[c [Hc Ho]] | Ho].
    + left. exists c. split; [|exact Ho].
      destruct (nonEmpty (currentChunk st)); [apply in_or_app; left|]; exact Hc.
    + destruct (currentChunk st) as [|a cur] eqn:E.
      * apply occursIn_nil_inv in Ho. subst x. right. apply occursIn_nil.
      * left. cbn [nonEmpty]. apply kept_pushed, Ho.
  - intros [H | Ho]; [left; exact H | right]. apply occursIn_app_r, Ho.
Qed.

Lemma kept_addSentence_new st s :
  kept (addSentence encode availableTokens st s) s.
Proof.
  unfold addSentence, kept. right.
  destruct (availableTokens <? _); cbn [currentChunk].
  - apply occursIn_app_r, occursIn_refl.
  - apply occursIn_app_l, occursIn_app_l, occursIn_app_r, occursIn_refl.
Qed.

Lemma kept_sentences ss : forall st x,
  kept st x \/ In x ss ->
  kept (fold_left (addSentence encode availableTokens) ss st) x.
Proof.
  induction ss as [|s ss IH]; intros st x H; cbn [fold_left].
  - destruct H as [H | []]. exact H.
  - apply IH. destruct H as [H | [<- | H]].
    + left. apply kept_addSentence, H.
    + left. apply kept_addSentence_new.
    + right. exact H.
Qed.

Lemma kept_flush st x : kept st x -> kept (flush st) x.
Proof.
  unfold flush, kept. destruct (currentChunk st) as [|a cur] eqn:E; cbn [nonEmpty].
  - rewrite E. trivial.
  - cbn [done currentChunk]. intros [[c [Hc Ho]] | Ho].
    + left. exists c. split; [apply in_or_app; left; exact Hc | exact Ho].
    + left. apply kept_pushed, Ho.
Qed.

Lemma kept_addParagraph st p x :
  kept st x \/ In x (piecesOf encode availableTokens p) ->
  kept (addParagraph encode availableTokens st p) x.
Proof.
  unfold addParagraph, piecesOf.
  destruct (availableTokens <? estimateTokens encode p).
  - intros H. apply kept_sentences. destruct H as [H | H]; [left | right; exact H].
    apply kept_flush, H.
  - destruct (availableTokens <? _); unfold kept; cbn [done currentChunk].
    + intros [[[c [Hc Ho]] | Ho] | [<- | []]].
      * left. exists c. split; [apply in_or_app; left; exact Hc | exact Ho].
      * left. apply kept_pushed, Ho.
      * right. apply occursIn_refl.
    + intros [[H | Ho] | [<- | []]].
      * left. exact H.
      * right. apply occursIn_app_r, Ho.
      * right. apply occursIn_app_l, occursIn_app_l, occursIn_refl.
Qed.

Lemma kept_paragraphs ps : forall st x,
  kept st x \/ (exists p, In p ps /\ In x (piecesOf encode availableTokens p)) ->
  kept (fold_left (addParagraph encode availableTokens) ps st) x.
Proof.
  induction ps as [|q ps IH]; intros st x H; cbn [fold_left].
  - destruct H as [H | [p [[] _]]]. exact H.
  - apply IH. destruct H as [H | [p [[<- | Hp] Hx]]].
    + left. apply kept_addParagraph. left. exact H.
    + left. apply kept_addParagraph. right. exact Hx.
    + right. exists p. split; assumption.
Qed.

End Kept.

(** *** The pieces run through the chunks in their order *)

Lemma threaded_prefix xs s w : threaded xs s -> threaded xs (w ++ s).
Proof.
  destruct 1 as [s|x xs u rest H]; [constructor|].
  rewrite app_assoc. constructor. exact H.
Qed.

Lemma threaded_app xs ys s t :
  threaded xs s -> threaded ys t -> threaded (xs ++ ys) (s ++ t).
Proof.
  induction 1 as [s|x xs u rest H IH]; intros Hy; cbn [app].
  - apply threaded_prefix, Hy.
  - rewrite <- !app_assoc. constructor. apply IH, Hy.
Qed.

Lemma threaded_one x u v : threaded [x] (u ++ x ++ v).
Proof. constructor. constructor. Qed.

Lemma threaded_snoc zs c g x h :
  threaded zs c -> threaded (zs ++ [x]) (c ++ g ++ x ++ h).
Proof.
  intros H. apply threaded_app; [exact H | apply threaded_one].
Qed.

Lemma threaded_nil_inv xs : threaded xs [] -> Forall (fun x => x = []) xs.
Proof.
  assert (G : forall s, threaded xs s -> s = [] -> Forall (fun x => x = []) xs).
  { induction 1 as [s|x xs u rest H IH]; intros E; [constructor|].
    apply app_eq_nil in E as [_ E]. apply app_eq_nil in E as [E1 E2].
    constructor; [exact E1 | apply IH; exact E2]. }
  intros H. exact (G [] H eq_refl).
Qed.

Lemma threaded_empties xs s : Forall (fun x => x = []) xs -> threaded xs s.
Proof.
  induction 1 as [|x xs -> _ IH]; [constructor|].
  apply (threaded_cons [] xs [] s IH).
Qed.

Lemma trimStart_app_cases u y :
  trimStart (u ++ y) =
  match trimStart u with [] => trimStart y | _ => trimStart u ++ y end.
Proof.
  induction u as [|c u IH]; [reflexivity|]. cbn [app trimStart].
  destruct (isWhiteSpace c); [exact IH | reflexivity].
Qed.

Lemma trimEnd_app_cases a b :
  trimEnd (a ++ b) =
  match trimEnd b with [] => trimEnd a | _ => a ++ trimEnd b end.
Proof.
  rewrite !trimEnd_rev, rev_app_distr, trimStart_app_cases.
  destruct (trimStart (rev b)) as [|c t] eqn:E; [reflexivity|].
  rewrite rev_app_distr, rev_involutive.
  destruct (rev (c :: t)) eqn:E2; [|reflexivity].
  cbn [rev] in E2. destruct (rev t); discriminate.
Qed.

Lemma trimStart_tail z : exists w, z = w ++ trimStart z.
Proof. destruct (trimStart_split z) as [w [_ E]]. eauto. Qed.

Lemma trimEnd_head z : exists w, z = trimEnd z ++ w.
Proof. destruct (trimEnd_split z) as [w [_ [E _]]]. eauto. Qed.

(** Trimmed at the start, the pieces still run through the text. *)
Lemma threaded_map_trimStart zs s :
  threaded zs s -> threaded (map trimStart zs) s.
Proof.
  induction 1 as [s|z zs u rest H IH]; cbn [map]; [constructor|].
  destruct (trimStart_tail z) as [w E]. rewrite E at 2.
  rewrite <- app_assoc, app_assoc. constructor. exact IH.
Qed.

Lemma threaded_trimStart zs s :
  threaded zs s -> threaded (map trimStart zs) (trimStart s).
Proof.
  induction 1 as [s|z zs u rest H IH]; cbn [map]; [constructor|].
  rewrite trimStart_app_cases. destruct (trimStart u) as [|c t] eqn:Eu.
  - rewrite trimStart_app_cases. destruct (trimStart z) as [|c t] eqn:Ez.
    + apply (threaded_cons [] _ [] _ IH).
    + apply (threaded_cons (c :: t) _ [] rest).
      apply threaded_map_trimStart, H.
  - destruct (trimStart_tail z) as [w E]. rewrite E at 2.
    rewrite <- app_assoc, app_assoc. constructor.
    apply threaded_map_trimStart, H.
Qed.

Lemma threaded_trimEnd zs s :
  threaded zs s -> threaded (map trimEnd zs) (trimEnd s).
Proof.
  induction 1 as [s|z zs u rest H IH]; cbn [map]; [constructor|].
  rewrite trimEnd_app_cases, trimEnd_app_cases.
  destruct (trimEnd rest) as [|c t] eqn:Er.
  - apply threaded_nil_inv in IH.
    destruct (trimEnd z) as [|c t] eqn:Ez.
    + apply threaded_empties. constructor; [reflexivity | exact IH].
    + rewrite <- (app_nil_r (u ++ c :: t)), <- app_assoc. constructor.
      apply threaded_empties, IH.
  - destruct (z ++ c :: t) as [|c' t'] eqn:E; [destruct z; discriminate|].
    rewrite <- E. destruct (trimEnd_head z) as [w Ew]. rewrite Ew at 2.
    rewrite <- !app_assoc. constructor. apply threaded_prefix, IH.
Qed.

(** Trimmed, the pieces run through the trimmed text. *)
Lemma threaded_trim zs s : threaded zs s -> threaded (map trim zs) (trim s).
Proof.
  intros H. apply threaded_trimStart, threaded_trimEnd in H.
  rewrite map_map in H. exact H.
Qed.

Lemma holdsPieces_push (d : list jsstring) cur cur' (xs zs' : list jsstring) :
  holdsPieces {| done := d; currentChunk := cur; currentTokens := 0 |} xs ->
  threaded zs' cur' ->
  forall n, holdsPieces {| done := d ++ [trim cur]; currentChunk := cur';
                           currentTokens := n |} (xs ++ zs').
Proof.
  intros (ys & zs & -> & Hy & Hz) Hz' n. exists (ys ++ zs), zs'.
  cbn [done currentChunk] in *. repeat split; trivial.
  rewrite concat_app, map_app. cbn [concat]. rewrite app_nil_r.
  apply threaded_app; [exact Hy | apply threaded_trim, Hz].
Qed.

Lemma holdsPieces_state st xs :
  holdsPieces st xs ->
  holdsPieces {| done := done st; currentChunk := currentChunk st;
                 currentTokens := 0 |} xs.
Proof. exact (fun H => H). Qed.

Lemma holdsPieces_extend st xs g x h n :
  holdsPieces st xs ->
  holdsPieces {| done := done st;
                 currentChunk := currentChunk st ++ g ++ x ++ h;
                 currentTokens := n |} (xs ++ [x]).
Proof.
  intros (ys & zs & -> & Hy & Hz). exists ys, (zs ++ [x]).
  cbn [done currentChunk]. rewrite app_assoc. repeat split; trivial.
  apply threaded_snoc, Hz.
Qed.

Lemma holdsPieces_extend0 st xs g x n :
  holdsPieces st xs ->
  holdsPieces {| done := done st;
                 currentChunk := currentChunk st ++ g ++ x;
                 currentTokens := n |} (xs ++ [x]).
Proof.
  intros H. pose proof (holdsPieces_extend st xs g x [] n H) as G.
  rewrite app_nil_r in G. exact G.
Qed.

Lemma threaded_self x : threaded [x] x.
Proof.
  pose proof (threaded_one x [] []) as G. cbn [app] in G.
  rewrite app_nil_r in G. exact G.
Qed.

Section Pieces.

Variable encode : jsstring -> option nat.
Variable availableTokens : Z.

Lemma holdsPieces_addSentence st xs s :
  holdsPieces st xs ->
  holdsPieces (addSentence encode availableTokens st s) (xs ++ [s]).
Proof.
  intros H. unfold addSentence. destruct (availableTokens <? _).
  - destruct (currentChunk st) as [|a cur] eqn:E; cbn [nonEmpty].
    + change (s ++ str ".") with ([] ++ [] ++ s ++ str ".").
      rewrite <- E. apply holdsPieces_extend, H.
    + rewrite <- E. apply holdsPieces_push; [apply holdsPieces_state, H|].
      apply (threaded_one s []).
  - apply holdsPieces_extend, H.
Qed.

Lemma holdsPieces_sentences ss : forall st xs,
  holdsPieces st xs ->
  holdsPieces (fold_left (addSentence encode availableTokens) ss st) (xs ++ ss).
Proof.
  induction ss as [|s ss IH]; intros st xs H; cbn [fold_left].
  - rewrite app_nil_r. exact H.
  - replace (xs ++ s :: ss) with ((xs ++ [s]) ++ ss)
      by (rewrite <- app_assoc; reflexivity).
    apply IH, holdsPieces_addSentence, H.
Qed.

Lemma holdsPieces_flush st xs : holdsPieces st xs -> holdsPieces (flush st) xs.
Proof.
  intros H. unfold flush. destruct (currentChunk st) as [|a cur] eqn:E; cbn [nonEmpty].
  - exact H.
  - rewrite <- E. rewrite <- (app_nil_r xs).
    apply holdsPieces_push; [apply holdsPieces_state, H | constructor].
Qed.

Lemma holdsPieces_addParagraph st xs p :
  holdsPieces st xs ->
  holdsPieces (addParagraph encode availableTokens st p)
              (xs ++ piecesOf encode availableTokens p).
Proof.
  intros H. unfold addParagraph, piecesOf.
  destruct (availableTokens <? estimateTokens encode p).
  - apply holdsPieces_sentences, holdsPieces_flush, H.
  - destruct (availableTokens <? _).
    + apply holdsPieces_push; [apply holdsPieces_state, H | apply threaded_self].
    + apply holdsPieces_extend0, H.
Qed.

Lemma holdsPieces_paragraphs ps : forall st xs,
  holdsPieces st xs ->
  holdsPieces (fold_left (addParagraph encode availableTokens) ps st)
              (xs ++ flat_map (piecesOf encode availableTokens) ps).
Proof.
  induction ps as [|p ps IH]; intros st xs H; cbn [fold_left flat_map].
  - rewrite app_nil_r. exact H.
  - rewrite app_assoc. apply IH, holdsPieces_addParagraph, H.
Qed.

End Pieces.

Lemma paragraphBreak_nonempty : paragraphBreak <> [].
Proof. discriminate. Qed.

Lemma validateAndChunk_cases encode content context :
  validateAndChunk encode content context =
  if estimateTokens encode (content ++ LF ++ join LF context) <=? MAX_TOKENS
  then Returns {| isValid := true;
                  tokenCount := estimateTokens encode (content ++ LF ++ join LF context);
                  chunks := [content]; warnings := [] |}
  else match intelligentChunk encode content context with
       | Throws e => Throws e
       | Returns cs =>
           Returns {| isValid := false;
                      tokenCount := estimateTokens encode (content ++ LF ++ join LF context);
                      chunks := cs;
                      warnings := [str "Content exceeds " ++ showZ MAX_TOKENS ++
                                   str " tokens (" ++
                                   showZ (estimateTokens encode (content ++ LF ++ join LF context)) ++
                                   str "). Chunking required."] |}
       end.
Proof. reflexivity. Qed.




(** C4, as the code has it.  [validateAndChunk] either returns a result
    or throws the context-too-large error, and it throws exactly when the
    estimate of content and context together is above the budget of
    28,000 tokens and the context alone leaves no chunk capacity, that is,
    its estimate reaches the budget less the overlap reserve of 500
    tokens (27,500). *)
Theorem validateAndChunk_throws_iff
    (encode : jsstring -> option nat) (content : jsstring)
    (context : list jsstring) :
  ((exists r, validateAndChunk encode content context = Returns r) \/
   validateAndChunk encode content context = Throws contextTooLarge)
  /\ (validateAndChunk encode content context = Throws contextTooLarge <->
      MAX_TOKENS < estimateTokens encode (content ++ LF ++ join LF context) /\
      MAX_TOKENS - OVERLAP_TOKENS <= estimateTokens encode (join LF context)).
Proof.
  rewrite validateAndChunk_cases. unfold intelligentChunk, availableFor.
  destruct (_ <=? MAX_TOKENS) eqn:E1.
  - apply Z.leb_le in E1. split; [left; eexists; reflexivity|].
    split; [discriminate | lia].
  - apply Z.leb_gt in E1.
    destruct (_ <=? 0) eqn:E2.
    + apply Z.leb_le in E2. split; [right; reflexivity|].
      split; [lia | reflexivity].
    + apply Z.leb_gt in E2. split; [left; eexists; reflexivity|].
      split; [discriminate | lia].
Qed.

(** A context of 27,500 tokens is within the budget, and with a content
    of 500 tokens the call throws. *)
Lemma validateAndChunk_throws_counterexample :
  ~ (forall encode content context,
       validateAndChunk encode content context = Throws contextTooLarge <->
       MAX_TOKENS < estimateTokens encode (join LF context)).
Proof.
  intros H.
  specialize (H noEncoder (chars 2000 "a") [chars 110000 "x"]).
  assert (E : validateAndChunk noEncoder (chars 2000 "a") [chars 110000 "x"]
              = Throws contextTooLarge) by (vm_compute; reflexivity).
  apply H in E. vm_compute in E. discriminate E.
Qed.

(** C3, as the code has it.  When the content is over the budget and
    [validateAndChunk] returns, the content is its paragraphs joined by
    blank lines again, and nothing of a paragraph is dropped: a paragraph
    within the chunk capacity occurs, trimmed, in one of the chunks, and
    so does every sentence of a paragraph above the capacity; and these
    pieces run, trimmed and in the order of the content, through the
    concatenation of the chunks. *)
Theorem validateAndChunk_keeps_paragraphs
    (encode : jsstring -> option nat) (content : jsstring)
    (context : list jsstring) (r : TokenValidationResult) :
  validateAndChunk encode content context = Returns r ->
  isValid r = false ->
  join paragraphBreak (split paragraphBreak content) = content /\
  (forall p x,
     In p (split paragraphBreak content) ->
     In x (piecesOf encode (availableFor encode context) p) ->
     exists c, In c (chunks r) /\ occursIn (trim x) c) /\
  threaded
    (map trim (flat_map (piecesOf encode (availableFor encode context))
                        (split paragraphBreak content)))
    (concat (chunks r)).
Proof.
  rewrite validateAndChunk_cases.
  destruct (_ <=? MAX_TOKENS).
  { intros H. injection H as <-. discriminate. }
  unfold intelligentChunk.
  destruct (availableFor encode context <=? 0); [discriminate|].
  intros H _. injection H as <-. cbn [chunks]. cbv zeta.
  split; [apply join_split, paragraphBreak_nonempty|].
  set (st := fold_left _ _ _).
  set (all := if nonEmpty (trim (currentChunk st)) then _ else _).
  split.
  - intros p x Hp Hx.
    assert (K : kept st x).
    { apply kept_paragraphs. right. exists p. split; assumption. }
    assert (Hall : (exists c, In c all /\ occursIn (trim x) c) \/ trim x = []).
    { subst all. destruct K as [[c [Hc Ho]] | Ho].
      - left. exists c. split; [|exact Ho].
        destruct (nonEmpty _); [apply in_or_app; left|]; exact Hc.
      - apply occursIn_trim in Ho.
        destruct (trim (currentChunk st)) as [|a t] eqn:E; cbn [nonEmpty].
        + right. apply occursIn_nil_inv, Ho.
        + left. exists (a :: t). split; [|exact Ho].
          apply in_or_app. right. left. reflexivity. }
    destruct Hall as [[c [Hc Ho]] | E].
    + exists c. split; [|exact Ho]. destruct all; [destruct Hc | exact Hc].
    + rewrite E. destruct all as [|c0 rest].
      * exists content. split; [left; reflexivity | apply occursIn_nil].
      * exists c0. split; [left; reflexivity | apply occursIn_nil].
  - assert (H : holdsPieces st
                  ([] ++ flat_map (piecesOf encode (availableFor encode context))
                                  (split paragraphBreak content))).
    { apply holdsPieces_paragraphs. exists [], []. repeat split; constructor. }
    cbn [app] in H. destruct H as (ys & zs & -> & Hy & Hz).
    assert (T : threaded (map trim (ys ++ zs)) (concat all)).
    { rewrite map_app.
      replace (concat all) with (concat (done st) ++ trim (currentChunk st)).
      - apply threaded_app; [exact Hy | apply threaded_trim, Hz].
      - subst all. destruct (trim (currentChunk st)) as [|a t]; cbn [nonEmpty].
        + apply app_nil_r.
        + rewrite concat_app. cbn [concat]. rewrite app_nil_r. reflexivity. }
    destruct all as [|c0 rest]; [|exact T].
    apply threaded_empties, threaded_nil_inv, T.
Qed.

Lemma validateAndChunk_twoSentences :
  validateAndChunk noEncoder twoSentences longContext =
  Returns {| isValid := false; tokenCount := 28051;
             chunks := [chars 2100 "a" ++ str "."; chars 2100 "b" ++ str "."];
             warnings := [str "Content exceeds 28000 tokens (28051). Chunking required."] |}.
Proof. vm_compute. reflexivity. Qed.

Lemma validateAndChunk_keeps_paragraphs_witness :
  exists r,
    validateAndChunk noEncoder twoSentences longContext = Returns r /\
    isValid r = false /\
    join paragraphBreak (split paragraphBreak twoSentences) = twoSentences /\
    (forall p x,
       In p (split paragraphBreak twoSentences) ->
       In x (piecesOf noEncoder (availableFor noEncoder longContext) p) ->
       exists c, In c (chunks r) /\ occursIn (trim x) c) /\
    threaded
      (map trim (flat_map (piecesOf noEncoder (availableFor noEncoder longContext))
                          (split paragraphBreak twoSentences)))
      (concat (chunks r)).
Proof.
  eexists. split; [apply validateAndChunk_twoSentences|].
  split; [reflexivity|].
  apply (validateAndChunk_keeps_paragraphs noEncoder twoSentences longContext).
  - apply validateAndChunk_twoSentences.
  - reflexivity.
Defined.

(** The two sentences of [twoSentences] come back with a full stop in
    place of [!] and of [?] and without the blank between them: the
    chunks do not make up the content, whatever is put between them. *)
Lemma validateAndChunk_concat_counterexample :
  ~ (forall encode content context r,
       validateAndChunk encode content context = Returns r ->
       isValid r = false ->
       exists sep, join sep (chunks r) = content).
Proof.
  intros H.
  destruct (H noEncoder twoSentences longContext _ validateAndChunk_twoSentences
              eq_refl) as [sep E].
  cbn [chunks join] in E.
  apply (f_equal (fun s => nth 2100 s " "%char)) in E.
  rewrite app_nth1 in E by (vm_compute; lia).
  vm_compute in E. discriminate E.
Qed.

(** *** The chunks are trimmed *)

Lemma trim_trim (s : jsstring) : trim (trim s) = trim s.
Proof.
  destruct (trim_split s) as (w1 & w2 & _ & _ & _ & T1 & T2).
  unfold trim at 1. rewrite (trimStart_tight _ T1), trimEnd_rev.
  rewrite (trimStart_tight _ T2). apply rev_involutive.
Qed.

Lemma trimmed_snoc (d : list jsstring) (cur : jsstring) :
  Forall trimmed d -> Forall trimmed (d ++ [trim cur]).
Proof.
  intros H. apply Forall_app. split; [exact H|].
  constructor; [apply trim_trim | constructor].
Qed.

Section Trimmed.

Variable encode : jsstring -> option nat.
Variable availableTokens : Z.

Lemma trimmed_addSentence (st : chunking) (s : jsstring) :
  Forall trimmed (done st) ->
  Forall trimmed (done (addSentence encode availableTokens st s)).
Proof.
  intros H. unfold addSentence. cbn zeta.
  destruct (_ <? _); cbn [done]; [|exact H].
  destruct (nonEmpty _); [apply trimmed_snoc, H | exact H].
Qed.

Lemma trimmed_sentences (ss : list jsstring) : forall st : chunking,
  Forall trimmed (done st) ->
  Forall trimmed (done (fold_left (addSentence encode availableTokens) ss st)).
Proof.
  induction ss as [|s ss IH]; intros st H; [exact H|].
  cbn [fold_left]. apply IH, trimmed_addSentence, H.
Qed.

Lemma trimmed_flush (st : chunking) :
  Forall trimmed (done st) -> Forall trimmed (done (flush st)).
Proof.
  intros H. unfold flush. destruct (nonEmpty _); cbn [done];
    [apply trimmed_snoc, H | exact H].
Qed.

Lemma trimmed_addParagraph (st : chunking) (p : jsstring) :
  Forall trimmed (done st) ->
  Forall trimmed (done (addParagraph encode availableTokens st p)).
Proof.
  intros H. unfold addParagraph. cbn zeta.
  destruct (_ <? _); [apply trimmed_sentences, trimmed_flush, H|].
  destruct (_ <? _); cbn [done]; [apply trimmed_snoc, H | exact H].
Qed.

Lemma trimmed_paragraphs (ps : list jsstring) : forall st : chunking,
  Forall trimmed (done st) ->
  Forall trimmed (done (fold_left (addParagraph encode availableTokens) ps st)).
Proof.
  induction ps as [|p ps IH]; intros st H; [exact H|].
  cbn [fold_left]. apply IH, trimmed_addParagraph, H.
Qed.

End Trimmed.

(** The chunks that [validateAndChunk] returns have no white space at
    their ends, unless the content itself is returned as the only
    chunk. *)
Theorem validateAndChunk_chunks_trimmed
    (encode : jsstring -> option nat) (content : jsstring)
    (context : list jsstring) (r : TokenValidationResult) :
  validateAndChunk encode content context = Returns r ->
  chunks r = [content] \/ Forall trimmed (chunks r).
Proof.
  rewrite validateAndChunk_cases. destruct (_ <=? MAX_TOKENS).
  - intros H. injection H as <-. left. reflexivity.
  - unfold intelligentChunk. cbn zeta.
    destruct (availableFor encode context <=? 0); [discriminate|].
    intros H. injection H as <-. cbn [chunks].
    match goal with
    | |- context [fold_left ?f ?ps ?st0] =>
        pose proof (trimmed_paragraphs encode (availableFor encode context) ps st0
                      ltac:(constructor)) as Hd;
        set (st := fold_left f ps st0) in *
    end.
    destruct (nonEmpty (trim (currentChunk st))).
    + right. pose proof (trimmed_snoc (done st) (currentChunk st) Hd) as Hs.
      destruct (done st ++ [trim (currentChunk st)]) eqn:E; [|exact Hs].
      apply app_eq_nil in E as [_ E]. discriminate.
    + destruct (done st); [left; reflexivity | right; exact Hd].
Qed.

Lemma validateAndChunk_chunks_trimmed_witness :
  exists r, validateAndChunk noEncoder twoSentences longContext = Returns r /\
            (chunks r = [twoSentences] \/ Forall trimmed (chunks r)).
Proof.
  eexists. split; [exact validateAndChunk_twoSentences|].
  exact (validateAndChunk_chunks_trimmed noEncoder twoSentences longContext _
           validateAndChunk_twoSentences).
Defined.

(** *** The budget in code units *)

Lemma estimateTokens_fallback (text : jsstring) :
  estimateTokens noEncoder text = (Z.of_nat (length text) + 3) / 4.
Proof. reflexivity. Qed.

(** When the tokenizer fails, four code units count as a token: a
    message with its system prompt is within the budget exactly up to
    112,000 code units, and [validateAndChunk] finds a content valid
    exactly when content, context and the line feeds that join them have
    no more than that together; so a content of 112,000 code units is a
    valid message, and is not valid for [validateAndChunk] even with no
    context at all. *)
Theorem fallback_budget
    (message systemPrompt content : jsstring) (context : list jsstring) :
  (validateMessage noEncoder message systemPrompt = true <->
   Z.of_nat (length message) + Z.of_nat (length systemPrompt) <= 112000) /\
  ((exists r, validateAndChunk noEncoder content context = Returns r /\
              isValid r = true) <->
   Z.of_nat (length content) + 1 + Z.of_nat (length (join LF context)) <= 112000) /\
  (Z.of_nat (length content) = 112000 ->
   validateMessage noEncoder content [] = true /\
   forall r, validateAndChunk noEncoder content [] = Returns r -> isValid r = false).
Proof.
  assert (B : forall n : Z, ((n + 3) / 4 <=? MAX_TOKENS) = true <-> n <= 112000).
  { intros n. rewrite Z.leb_le. unfold MAX_TOKENS.
    split; intros H; Z.to_euclidean_division_equations; lia. }
  assert (L : forall c : list jsstring,
            Z.of_nat (length (content ++ LF ++ join LF c))
            = Z.of_nat (length content) + 1 + Z.of_nat (length (join LF c))).
  { intros c. rewrite !length_app. cbn [length LF]. lia. }
  split; [|split].
  - unfold validateMessage. rewrite estimateTokens_fallback, length_app, Nat2Z.inj_add.
    apply B.
  - rewrite validateAndChunk_cases, !estimateTokens_fallback, L.
    destruct (_ <=? MAX_TOKENS) eqn:E.
    + split; [intros _; apply B, E|]. intros _. eexists. split; reflexivity.
    + split.
      * intros [r [Hr Hv]].
        destruct (intelligentChunk noEncoder content context); [|discriminate].
        injection Hr as <-. discriminate Hv.
      * intros H. apply B in H. congruence.
  - intros Hlen. split.
    + unfold validateMessage.
      rewrite estimateTokens_fallback, length_app, Nat2Z.inj_add. apply B.
      cbn [length]. lia.
    + intros r. rewrite validateAndChunk_cases, !estimateTokens_fallback, L.
      assert (E : ((Z.of_nat (length content) + 1 + Z.of_nat (length (join LF [])) + 3) / 4
                   <=? MAX_TOKENS) = false).
      { destruct (_ <=? MAX_TOKENS) eqn:E; [|reflexivity].
        apply B in E. cbn [length join] in E. lia. }
      rewrite E.
      destruct (intelligentChunk noEncoder content []); [|discriminate].
      intros Hr. injection Hr as <-. reflexivity.
Qed.

End TokenFacts.

(** ** The gateway: failover, cooldown and exhaustion *)

Module GatewayFacts.
Import Token Gateway.

Local Open Scope Z_scope.

(** *** The loop over the available providers *)

Lemma tryProviders_throws call messages ps g :
  result (tryProviders call messages ps g) = Throws allFailed <->
  forall p, In p ps -> failed (call p) = true.
Proof.
  revert g. induction ps as [|p ps IH]; intros g; cbn [tryProviders].
  - split; [intros _ q [] | reflexivity].
  - destruct (call p) as [text t1 t2|t] eqn:E; cbn [result].
    + split; [discriminate|]. intros H. specialize (H p (or_introl eq_refl)).
      rewrite E in H. discriminate.
    + rewrite IH. split.
      * intros H q [<-|Hq]; [rewrite E; reflexivity | auto].
      * intros H q Hq. apply H. right. exact Hq.
Qed.

Lemma tryProviders_throws_only call messages ps g e :
  result (tryProviders call messages ps g) = Throws e ->
  e = allFailed /\ attempts (tryProviders call messages ps g) = ps.
Proof.
  revert g. induction ps as [|p ps IH]; intros g; cbn [tryProviders].
  - cbn. intros H. injection H as <-. auto.
  - destruct (call p) as [text t1 t2|t]; cbn [result attempts]; [discriminate|].
    intros H. apply IH in H as [-> ->]. auto.
Qed.

Lemma tryProviders_returns call messages ps g resp :
  result (tryProviders call messages ps g) = Returns resp ->
  exists before p later text t1 t2,
    ps = before ++ p :: later /\
    attempts (tryProviders call messages ps g) = before ++ [p] /\
    (forall q, In q before -> failed (call q) = true) /\
    call p = Replied text t1 t2 /\
    resp = responseOf p messages text t1 t2.
Proof.
  revert g. induction ps as [|p ps IH]; intros g; cbn [tryProviders].
  - discriminate.
  - destruct (call p) as [text t1 t2|t] eqn:E; cbn [result attempts].
    + intros H. injection H as <-.
      exists [], p, ps, text, t1, t2. repeat split; trivial. intros q [].
    + intros H. apply IH in H
        as (before & q & later & text & t1 & t2 & -> & Ha & Hf & Hc & ->).
      exists (p :: before), q, later, text, t1, t2. cbn [app].
      repeat split; trivial.
      * rewrite Ha. reflexivity.
      * intros x [<-|Hx]; [rewrite E; reflexivity | auto].
Qed.

Lemma tryProviders_first call messages p ps g :
  exists others, attempts (tryProviders call messages (p :: ps) g) = p :: others.
Proof.
  cbn [tryProviders]. destruct (call p); cbn [attempts]; eexists; reflexivity.
Qed.

(** The loop touches the health records of the providers it is given
    only. *)
Lemma tryProviders_frame call messages (k : list ascii) ps : forall g,
  (forall p, In p ps -> keyOf p <> k) ->
  let r := tryProviders call messages ps g in
  providers (after r) = providers g /\
  healthStatus (after r) !! k = healthStatus g !! k /\
  lastHealthCheck (after r) !! k = lastHealthCheck g !! k /\
  (forall p, In p (attempts r) -> In p ps).
Proof.
  induction ps as [|p ps IH]; intros g Hk; cbn [tryProviders].
  - cbn. repeat split; trivial.
  - assert (Hp : keyOf p <> k) by (apply Hk; left; reflexivity).
    destruct (call p) as [text t1 t2|t]; cbn [after attempts providers healthStatus lastHealthCheck].
    + repeat split; trivial.
      * apply lookup_insert_ne, Hp.
      * intros q [<-|[]]. left. reflexivity.
    + match goal with |- context [tryProviders call messages ps ?g'] =>
        destruct (IH g') as (H1 & H2 & H3 & H4) end.
      { intros q Hq. apply Hk. right. exact Hq. }
      cbn [providers healthStatus lastHealthCheck] in *.
      repeat split; trivial.
      * rewrite H2. apply lookup_insert_ne, Hp.
      * rewrite H3. apply lookup_insert_ne, Hp.
      * intros q [<-|Hq]; [left; reflexivity | right; auto].
Qed.

(** *** The providers a call starts with *)

Lemma filterAvailable_subset now checks ps : forall health p,
  In p (fst (filterAvailable now checks ps health)) -> In p ps.
Proof.
  induction ps as [|q ps IH]; intros health p; cbn [filterAvailable]; [trivial|].
  destruct (negb _ && _).
  - specialize (IH (<[keyOf q := true]> health) p).
    destruct (filterAvailable now checks ps _) as [kept health'].
    cbn [fst] in *. intros [<-|H]; [left; reflexivity | right; auto].
  - specialize (IH health p).
    destruct (filterAvailable now checks ps health) as [kept health'].
    cbn [fst] in *. destruct (isHealthy health q); [|right; auto].
    intros [<-|H]; [left; reflexivity | right; auto].
Qed.

Lemma filterAvailable_NoDup now checks ps : forall health,
  List.NoDup (map keyOf ps) ->
  List.NoDup (map keyOf (fst (filterAvailable now checks ps health))).
Proof.
  induction ps as [|q ps IH]; intros health Hnd; cbn [filterAvailable].
  - constructor.
  - cbn [map] in Hnd. apply NoDup_cons_iff in Hnd as [Hq Hnd].
    assert (Hfresh : forall h, ~ In (keyOf q)
              (map keyOf (fst (filterAvailable now checks ps h)))).
    { intros h Hin. apply Hq. apply in_map_iff in Hin as [x [Hx Hin]].
      apply in_map_iff. exists x. split; [exact Hx|].
      eapply filterAvailable_subset, Hin. }
    destruct (negb _ && _).
    + specialize (IH (<[keyOf q := true]> health) Hnd).
      specialize (Hfresh (<[keyOf q := true]> health)).
      destruct (filterAvailable now checks ps _) as [kept health'].
      cbn [fst map] in *. apply NoDup_cons_iff. auto.
    + specialize (IH health Hnd). specialize (Hfresh health).
      destruct (filterAvailable now checks ps health) as [kept health'].
      cbn [fst map] in *. destruct (isHealthy health q); [|exact IH].
      cbn [map]. apply NoDup_cons_iff. auto.
Qed.

(** A provider that is unhealthy and whose failure is at most the
    interval ago is left out, and stays unhealthy. *)
Lemma filterAvailable_cooldown now checks (k : list ascii) t ps : forall health,
  health !! k = Some false ->
  checks !! k = Some t ->
  now - t <= HEALTH_CHECK_INTERVAL ->
  (forall p, In p (fst (filterAvailable now checks ps health)) -> keyOf p <> k) /\
  snd (filterAvailable now checks ps health) !! k = Some false.
Proof.
  induction ps as [|q ps IH]; intros health Hh Hc Ht; cbn [filterAvailable].
  - cbn. split; [intros p [] | exact Hh].
  - destruct (decide (keyOf q = k)) as [E|N].
    + assert (Hq : isHealthy health q = false)
        by (unfold isHealthy; rewrite E, Hh; reflexivity).
      assert (Hl : lastCheck checks q = t)
        by (unfold lastCheck; rewrite E, Hc; reflexivity).
      rewrite Hq, Hl. cbn [negb andb].
      replace (HEALTH_CHECK_INTERVAL <? now - t) with false
        by (symmetry; apply Z.ltb_ge; exact Ht).
      specialize (IH health Hh Hc Ht).
      destruct (filterAvailable now checks ps health) as [kept health'].
      exact IH.
    + destruct (negb _ && _).
      * specialize (IH (<[keyOf q := true]> health)).
        rewrite lookup_insert_ne in IH by exact N.
        specialize (IH Hh Hc Ht).
        destruct (filterAvailable now checks ps _) as [kept health'].
        cbn [fst snd] in *. destruct IH as [IH1 IH2]. split; [|exact IH2].
        intros p [<-|Hp]; [exact N | auto].
      * specialize (IH health Hh Hc Ht).
        destruct (filterAvailable now checks ps health) as [kept health'].
        cbn [fst snd] in *. destruct IH as [IH1 IH2]. split; [|exact IH2].
        destruct (isHealthy health q); [|exact IH1].
        intros p [<-|Hp]; [exact N | auto].
Qed.

(** Once the interval has passed, an unhealthy provider at the head of
    the list is taken again, as the first. *)
Lemma filterAvailable_recovered now checks p ps health t :
  health !! keyOf p = Some false ->
  checks !! keyOf p = Some t ->
  HEALTH_CHECK_INTERVAL < now - t ->
  exists others, fst (filterAvailable now checks (p :: ps) health) = p :: others.
Proof.
  intros Hh Hc Ht. cbn [filterAvailable].
  assert (Hq : isHealthy health p = false)
    by (unfold isHealthy; rewrite Hh; reflexivity).
  assert (Hl : lastCheck checks p = t)
    by (unfold lastCheck; rewrite Hc; reflexivity).
  rewrite Hq, Hl. cbn [negb andb].
  replace (HEALTH_CHECK_INTERVAL <? now - t) with true
    by (symmetry; apply Z.ltb_lt; exact Ht).
  destruct (filterAvailable now checks ps _) as [kept health'].
  exists kept. reflexivity.
Qed.

Lemma generateResponse_unfold g messages now call :
  generateResponse g messages now call =
  tryProviders call messages (fst (getAvailableProviders g now))
               (snd (getAvailableProviders g now)).
Proof.
  unfold generateResponse. destruct (getAvailableProviders g now). reflexivity.
Qed.

Lemma getAvailableProviders_fst g now :
  fst (getAvailableProviders g now) =
  fst (filterAvailable now (lastHealthCheck g) (providers g) (healthStatus g)).
Proof.
  unfold getAvailableProviders. destruct (filterAvailable _ _ _ _). reflexivity.
Qed.

Lemma getAvailableProviders_snd g now :
  snd (getAvailableProviders g now) =
  {| providers := providers g;
     healthStatus := snd (filterAvailable now (lastHealthCheck g) (providers g)
                                          (healthStatus g));
     lastHealthCheck := lastHealthCheck g |}.
Proof.
  unfold getAvailableProviders. destruct (filterAvailable _ _ _ _). reflexivity.
Qed.

(** *** A provider in its cooldown *)

Lemma filterAvailable_other now checks (k : list ascii) ps : forall health,
  (forall p, In p ps -> keyOf p <> k) ->
  snd (filterAvailable now checks ps health) !! k = health !! k.
Proof.
  induction ps as [|q ps IH]; intros health Hk; cbn [filterAvailable]; [reflexivity|].
  assert (Hq : keyOf q <> k) by (apply Hk; left; reflexivity).
  assert (Hps : forall p, In p ps -> keyOf p <> k) by (intros p Hp; apply Hk; right; exact Hp).
  destruct (negb _ && _).
  - specialize (IH (<[keyOf q := true]> health) Hps).
    destruct (filterAvailable now checks ps _) as [kept health'].
    cbn [snd] in *. rewrite IH. apply lookup_insert_ne, Hq.
  - specialize (IH health Hps).
    destruct (filterAvailable now checks ps health) as [kept health'].
    exact IH.
Qed.

Lemma filterAvailable_app now checks xs ys : forall health,
  fst (filterAvailable now checks (xs ++ ys) health) =
  fst (filterAvailable now checks xs health) ++
  fst (filterAvailable now checks ys (snd (filterAvailable now checks xs health))).
Proof.
  induction xs as [|q xs IH]; intros health; cbn [app filterAvailable]; [reflexivity|].
  destruct (negb _ && _).
  - specialize (IH (<[keyOf q := true]> health)).
    destruct (filterAvailable now checks (xs ++ ys) _) as [kept health'].
    destruct (filterAvailable now checks xs _) as [kept1 health1].
    cbn [fst snd app] in *. rewrite IH. reflexivity.
  - specialize (IH health).
    destruct (filterAvailable now checks (xs ++ ys) health) as [kept health'].
    destruct (filterAvailable now checks xs health) as [kept1 health1].
    cbn [fst snd] in *. rewrite IH. destruct (isHealthy health q); reflexivity.
Qed.

Lemma tryProviders_replied call messages p ps g text t1 t2 :
  call p = Replied text t1 t2 ->
  tryProviders call messages (p :: ps) g =
  {| result := Returns (responseOf p messages text t1 t2);
     attempts := [p];
     after := {| providers := providers g;
                 healthStatus := <[keyOf p := true]> (healthStatus g);
                 lastHealthCheck := lastHealthCheck g |} |}.
Proof. intros E. cbn [tryProviders]. rewrite E. reflexivity. Qed.

Lemma tryProviders_failed call messages p ps g t :
  call p = Failed t ->
  tryProviders call messages (p :: ps) g =
  let r := tryProviders call messages ps
             {| providers := providers g;
                healthStatus := <[keyOf p := false]> (healthStatus g);
                lastHealthCheck := <[keyOf p := t]> (lastHealthCheck g) |} in
  {| result := result r; attempts := p :: attempts r; after := after r |}.
Proof. intros E. cbn [tryProviders]. rewrite E. reflexivity. Qed.

(** The providers that fail before one of the list is reached. *)
Lemma tryProviders_after_failures call messages before l : forall g,
  (forall p, In p before -> failed (call p) = true) ->
  exists g',
    providers g' = providers g /\
    tryProviders call messages (before ++ l) g =
    {| result := result (tryProviders call messages l g');
       attempts := before ++ attempts (tryProviders call messages l g');
       after := after (tryProviders call messages l g') |}.
Proof.
  induction before as [|p before IH]; intros g Hf; cbn [app].
  - exists g. split; [reflexivity|]. destruct (tryProviders call messages l g).
    reflexivity.
  - assert (Hp : failed (call p) = true) by (apply Hf; left; reflexivity).
    destruct (call p) as [text t1 t2|t] eqn:E; [discriminate|].
    rewrite (tryProviders_failed _ _ _ _ _ _ E). cbn zeta.
    match goal with |- context [tryProviders call messages (before ++ l) ?g1] =>
      destruct (IH g1) as (g' & Hg & Eq) end.
    { intros q Hq. apply Hf. right. exact Hq. }
    exists g'. split; [exact Hg|]. rewrite Eq. reflexivity.
Qed.

(** A provider that replies ends the call. *)
Lemma tryProviders_stops call messages before l : forall g,
  (exists p, In p before /\ failed (call p) = false) ->
  forall q, In q (attempts (tryProviders call messages (before ++ l) g)) ->
            In q before.
Proof.
  induction before as [|p before IH]; intros g [x [Hx Hfx]]; [destruct Hx|].
  cbn [app tryProviders].
  destruct (call p) as [text t1 t2|t] eqn:E; cbn [attempts].
  - intros q [<-|[]]. left. reflexivity.
  - intros q [<-|Hq]; [left; reflexivity|]. right.
    destruct Hx as [<-|Hx]; [rewrite E in Hfx; discriminate|].
    eapply IH; [exists x; split; eassumption | exact Hq].
Qed.

Lemma down_skipped A tA higher lower messages g now call :
  down A tA higher lower g -> now - tA <= HEALTH_CHECK_INTERVAL ->
  ~ In A (attempts (generateResponse g messages now call)) /\
  down A tA higher lower (after (generateResponse g messages now call)).
Proof.
  intros (Hp & Hh & Hc) Ht. rewrite generateResponse_unfold.
  rewrite getAvailableProviders_fst, getAvailableProviders_snd.
  destruct (filterAvailable_cooldown now (lastHealthCheck g) (keyOf A) tA
              (providers g) (healthStatus g) Hh Hc Ht) as [Hk Hh'].
  match goal with |- context [tryProviders call messages ?l ?g1] =>
    destruct (tryProviders_frame call messages (keyOf A) l g1 Hk)
      as (F1 & F2 & F3 & F4) end.
  cbn [providers healthStatus lastHealthCheck] in *.
  split.
  - intros Hin. apply F4 in Hin. apply Hk in Hin. congruence.
  - unfold down. rewrite F1, F2, F3. auto.
Qed.

Lemma down_series A tA higher lower messages calls : forall g,
  down A tA higher lower g ->
  Forall (fun c => fst c - tA <= HEALTH_CHECK_INTERVAL) calls ->
  Forall (fun r => ~ In A (attempts r)) (generateResponses g messages calls) /\
  down A tA higher lower (afterAll g messages calls).
Proof.
  induction calls as [|[now call] calls IH]; intros g Hd Hw.
  - split; [constructor | exact Hd].
  - apply Forall_cons_iff in Hw as [Hnow Hw]. cbn [fst] in Hnow.
    destruct (down_skipped A tA higher lower messages g now call Hd Hnow) as [Hs Hd'].
    destruct (IH _ Hd' Hw) as [IH1 IH2].
    cbn [generateResponses afterAll fold_left fst snd]. split.
    + constructor; assumption.
    + exact IH2.
Qed.

(** Once the interval has passed, the provider is taken again, in its
    rank: after the providers of higher rank that are taken with it, and
    it is called when these have failed. *)
Lemma down_retried A tA higher lower messages g now call :
  List.NoDup (map keyOf (providers g)) ->
  down A tA higher lower g -> HEALTH_CHECK_INTERVAL < now - tA ->
  exists before later,
    fst (getAvailableProviders g now) = before ++ A :: later /\
    (forall p, In p before -> In p higher) /\
    (forall p, In p later -> In p lower) /\
    (In A (attempts (generateResponse g messages now call)) <->
     forall p, In p before -> failed (call p) = true) /\
    ((forall p, In p before -> failed (call p) = true) ->
     exists others,
       attempts (generateResponse g messages now call) = before ++ A :: others).
Proof.
  intros Hnd (Hp & Hh & Hc) Ht.
  assert (Hkeys : forall p, In p higher -> keyOf p <> keyOf A).
  { rewrite Hp, map_app in Hnd. cbn [map] in Hnd.
    apply List.NoDup_remove_2 in Hnd.
    intros p Hin E. apply Hnd. apply in_or_app. left.
    rewrite <- E. apply in_map, Hin. }
  rewrite generateResponse_unfold, getAvailableProviders_fst, Hp.
  rewrite filterAvailable_app.
  set (health1 := snd (filterAvailable now (lastHealthCheck g) higher (healthStatus g))).
  assert (Hh1 : health1 !! keyOf A = Some false).
  { unfold health1. rewrite filterAvailable_other by exact Hkeys. exact Hh. }
  destruct (filterAvailable_recovered now (lastHealthCheck g) A lower health1 tA
              Hh1 Hc Ht) as [later El].
  assert (Hlater : forall p, In p later -> In p lower).
  { intros p Hin.
    assert (Hin' : In p (fst (filterAvailable now (lastHealthCheck g) (A :: lower) health1)))
      by (rewrite El; right; exact Hin).
    cbn [filterAvailable] in Hin', El.
    destruct (negb _ && _).
    - destruct (filterAvailable now (lastHealthCheck g) lower _) as [kept h'] eqn:Ek.
      cbn [fst] in *. injection El as <-.
      apply (filterAvailable_subset now (lastHealthCheck g) lower
               (<[keyOf A := true]> health1)). rewrite Ek. exact Hin.
    - destruct (filterAvailable now (lastHealthCheck g) lower health1) as [kept h'] eqn:Ek.
      cbn [fst] in *. destruct (isHealthy health1 A).
      + injection El as <-.
        apply (filterAvailable_subset now (lastHealthCheck g) lower health1).
        rewrite Ek. exact Hin.
      + apply (filterAvailable_subset now (lastHealthCheck g) lower health1).
        rewrite Ek, El. right. exact Hin. }
  rewrite El.
  set (before := fst (filterAvailable now (lastHealthCheck g) higher (healthStatus g))).
  assert (Hbefore : forall p, In p before -> In p higher)
    by (intros p; apply filterAvailable_subset).
  exists before, later. split; [reflexivity|]. split; [exact Hbefore|].
  split; [exact Hlater|].
  assert (Hcalled : (forall p, In p before -> failed (call p) = true) ->
            exists others,
              attempts (tryProviders call messages (before ++ A :: later)
                                     (snd (getAvailableProviders g now))) =
              before ++ A :: others).
  { intros Hf.
    destruct (tryProviders_after_failures call messages before (A :: later)
                (snd (getAvailableProviders g now)) Hf) as (g' & _ & E).
    destruct (tryProviders_first call messages A later g') as [others Eo].
    exists others. rewrite E. cbn [attempts]. rewrite Eo. reflexivity. }
  split; [|exact Hcalled]. split.
  - intros Hin p Hb. destruct (failed (call p)) eqn:Ef; [reflexivity|]. exfalso.
    assert (HA : In A before).
    { eapply tryProviders_stops; [exists p; split; eassumption | exact Hin]. }
    apply (Hkeys A (Hbefore A HA)). reflexivity.
  - intros Hf. destruct (Hcalled Hf) as [others ->].
    apply in_or_app. right. left. reflexivity.
Qed.

(** *** One call, event by event *)

Lemma run_app w es1 es2 :
  run w (es1 ++ es2) =
  (fst (run (fst (run w es1)) es2), snd (run w es1) ++ snd (run (fst (run w es1)) es2)).
Proof.
  revert w. induction es1 as [|e es1 IH]; intros w; cbn [app run].
  - cbn. destruct (run w es2). reflexivity.
  - destruct (step w e) as [w1 seen]. rewrite IH.
    destruct (run w1 es1) as [w2 later]. cbn [fst snd].
    rewrite <- app_assoc. reflexivity.
Qed.

Lemma step_settles id a messages p rest g
    (P : gmap nat (list jsstring * list LLMProvider)) :
  step {| gateway := g; pending := <[id := (messages, p :: rest)]> P |} (Settles id a) =
  match a with
  | Replied text startTime endTime =>
      ({| gateway := {| providers := providers g;
                        healthStatus := <[keyOf p := true]> (healthStatus g);
                        lastHealthCheck := lastHealthCheck g |};
          pending := delete id (<[id := (messages, p :: rest)]> P) |},
       [Returned id (responseOf p messages text startTime endTime)])
  | Failed caughtAt =>
      let g' := {| providers := providers g;
                   healthStatus := <[keyOf p := false]> (healthStatus g);
                   lastHealthCheck := <[keyOf p := caughtAt]> (lastHealthCheck g) |} in
      match rest with
      | [] => ({| gateway := g';
                  pending := delete id (<[id := (messages, p :: rest)]> P) |},
               [Threw id allFailed])
      | q :: _ =>
          ({| gateway := g';
              pending := <[id := (messages, rest)]> (<[id := (messages, p :: rest)]> P) |},
           [Calls id q])
      end
  end.
Proof. unfold step. cbn [pending gateway]. rewrite lookup_insert_eq. reflexivity. Qed.

(** The events of the loop of a call that waits for the first of the
    providers [p :: ps]. *)
Lemma run_tryProviders id call messages (P : gmap nat (list jsstring * list LLMProvider)) :
  P !! id = None ->
  forall ps p g,
  run {| gateway := g; pending := <[id := (messages, p :: ps)]> P |}
      (map (fun q => Settles id (call q))
           (attempts (tryProviders call messages (p :: ps) g))) =
  ({| gateway := after (tryProviders call messages (p :: ps) g); pending := P |},
   map (Calls id) (tl (attempts (tryProviders call messages (p :: ps) g))) ++
   [endOf id (tryProviders call messages (p :: ps) g)]).
Proof.
  intros Hid. induction ps as [|q ps IH]; intros p g;
    destruct (call p) as [text t1 t2|t] eqn:E.
  - rewrite (tryProviders_replied _ _ _ _ _ _ _ _ E). cbn [attempts map run after].
    rewrite step_settles, E. rewrite delete_insert_id by exact Hid. reflexivity.
  - rewrite (tryProviders_failed _ _ _ _ _ _ E).
    cbn [tryProviders attempts result after map run].
    rewrite step_settles, E. cbn zeta.
    rewrite delete_insert_id by exact Hid. reflexivity.
  - rewrite (tryProviders_replied _ _ _ _ _ _ _ _ E). cbn [attempts map run after].
    rewrite step_settles, E. rewrite delete_insert_id by exact Hid. reflexivity.
  - rewrite (tryProviders_failed _ _ _ _ _ _ E). cbn zeta.
    set (g1 := {| providers := providers g;
                  healthStatus := <[keyOf p := false]> (healthStatus g);
                  lastHealthCheck := <[keyOf p := t]> (lastHealthCheck g) |}).
    destruct (tryProviders_first call messages q ps g1) as [others Eo].
    cbn [attempts after map run tl]. rewrite step_settles, E. cbn zeta.
    fold g1. rewrite insert_insert_eq. rewrite (IH q g1). rewrite Eo.
    cbn [tl map app]. unfold endOf. cbn [result]. reflexivity.
Qed.

(** A call that nothing interrupts is [generateResponse]: its events
    leave the gateway as [generateResponse] says, after calling the
    providers that it names, with its result. *)
Lemma run_generateResponse id messages now call w :
  pending w !! id = None ->
  let r := generateResponse (gateway w) messages now call in
  run w (eventsOf id (gateway w) messages now call) =
  ({| gateway := after r; pending := pending w |},
   map (Calls id) (attempts r) ++ [endOf id r]).
Proof.
  intros Hid r. subst r. unfold eventsOf. cbn [run step].
  rewrite generateResponse_unfold.
  destruct (getAvailableProviders (gateway w) now) as [available g1]. cbn [fst snd].
  destruct available as [|p ps].
  - reflexivity.
  - rewrite (run_tryProviders id call messages (pending w) Hid ps p g1).
    destruct (tryProviders_first call messages p ps g1) as [others Eo].
    rewrite Eo. reflexivity.
Qed.

(** C6, as the code has it.  The calls of the gateway do not overlap,
    and the providers have keys that differ.  When, in one call, [A]
    fails (the exception is caught at time [tA]) and [B], the next
    available provider, replies, the call returns a response with the
    text of [B], the name and the model of [B], the tokens and the cost
    estimated for [B] and the duration of the call of [B], having called
    [A] and then [B] after the providers that failed before them, and [A]
    is marked unhealthy with [tA] as the time of its failure.  No call
    after that which starts at most five minutes after [tA] calls [A].  A
    call that follows them and starts more than five minutes after [tA]
    takes [A] again, in its rank: after the available providers that rank
    higher and before those that rank lower; it calls [A] exactly when
    the former all fail, and calls [A] first when no provider ranks
    higher than [A]. *)
Theorem failover_then_cooldown
    (g : LLMGateway) (messages : list jsstring) (now : Z)
    (call : LLMProvider -> attempt)
    (A B : LLMProvider) (earlier rest : list LLMProvider)
    (tA : Z) (text : jsstring) (t1 t2 : Z) :
  List.NoDup (map keyOf (providers g)) ->
  fst (getAvailableProviders g now) = earlier ++ A :: B :: rest ->
  (forall p, In p earlier -> failed (call p) = true) ->
  call A = Failed tA ->
  call B = Replied text t1 t2 ->
  let r := generateResponse g messages now call in
  (exists response,
     result r = Returns response /\
     content response = text /\
     provider response = name B /\
     responseModel response = model B /\
     tokensUsed response =
       (Z.of_nat (length (join (str " ") messages ++ text)) + 3) / 4 /\
     cost response = tokensUsed response * costPerToken B /\
     duration response = t2 - t1) /\
  attempts r = earlier ++ [A; B] /\
  (forall (id : nat) (w : world),
     gateway w = g -> pending w !! id = None ->
     run w (eventsOf id g messages now call) =
     ({| gateway := after r; pending := pending w |},
      map (Calls id) (earlier ++ [A; B]) ++ [endOf id r])) /\
  healthStatus (after r) !! keyOf A = Some false /\
  lastHealthCheck (after r) !! keyOf A = Some tA /\
  exists higher lower,
    providers g = higher ++ A :: lower /\
    forall calls : list (Z * (LLMProvider -> attempt)),
      Forall (fun c => fst c - tA <= HEALTH_CHECK_INTERVAL) calls ->
      Forall (fun r' => ~ In A (attempts r'))
             (generateResponses (after r) messages calls) /\
      forall now' call',
        HEALTH_CHECK_INTERVAL < now' - tA ->
        let g' := afterAll (after r) messages calls in
        let r' := generateResponse g' messages now' call' in
        exists before later,
          fst (getAvailableProviders g' now') = before ++ A :: later /\
          (forall p, In p before -> In p higher) /\
          (forall p, In p later -> In p lower) /\
          (In A (attempts r') <-> forall p, In p before -> failed (call' p) = true) /\
          ((forall p, In p before -> failed (call' p) = true) ->
           exists others, attempts r' = before ++ A :: others) /\
          ((exists others, attempts r' = A :: others) <-> before = []) /\
          (higher = [] -> exists others, attempts r' = A :: others).
Proof.
  intros Hnd Hav Hearlier HA HB r. subst r.
  assert (Hrun : forall (id : nat) (w : world),
            gateway w = g -> pending w !! id = None ->
            attempts (generateResponse g messages now call) = earlier ++ [A; B] ->
            run w (eventsOf id g messages now call) =
            ({| gateway := after (generateResponse g messages now call);
                pending := pending w |},
             map (Calls id) (earlier ++ [A; B]) ++
             [endOf id (generateResponse g messages now call)])).
  { intros id w <- Hid Ea.
    rewrite (run_generateResponse id messages now call w Hid). cbn zeta.
    rewrite Ea. reflexivity. }
  revert Hrun.
  assert (Hne : keyOf B <> keyOf A).
  { pose proof (filterAvailable_NoDup now (lastHealthCheck g) (providers g)
                  (healthStatus g) Hnd) as H.
    rewrite <- getAvailableProviders_fst, Hav, map_app in H.
    apply List.NoDup_app_remove_l in H. cbn [map] in H.
    apply NoDup_cons_iff in H as [H _]. intros E. apply H. left. exact E. }
  assert (HinA : In A (providers g)).
  { apply (filterAvailable_subset now (lastHealthCheck g) (providers g) (healthStatus g)).
    rewrite <- getAvailableProviders_fst, Hav. apply in_or_app. right. left. reflexivity. }
  apply in_split in HinA as (higher & lower & Hp).
  rewrite generateResponse_unfold, Hav.
  destruct (tryProviders_after_failures call messages earlier (A :: B :: rest)
              (snd (getAvailableProviders g now)) Hearlier) as (g1 & Hg1 & ->).
  rewrite getAvailableProviders_snd in Hg1. cbn [providers] in Hg1.
  rewrite (tryProviders_failed _ _ _ _ _ _ HA). cbn zeta.
  rewrite (tryProviders_replied _ _ _ _ _ _ _ _ HB).
  cbn [result attempts after providers healthStatus lastHealthCheck].
  set (g2 := {| providers := providers g1;
                healthStatus :=
                  <[keyOf B := true]> (<[keyOf A := false]> (healthStatus g1));
                lastHealthCheck := <[keyOf A := tA]> (lastHealthCheck g1) |}).
  assert (Hd : down A tA higher lower g2).
  { unfold down, g2. cbn [providers healthStatus lastHealthCheck].
    split; [rewrite Hg1; exact Hp|]. split.
    - rewrite lookup_insert_ne by exact Hne. apply lookup_insert_eq.
    - apply lookup_insert_eq. }
  intros Hrun. split.
  { eexists. split; [reflexivity|]. cbn. repeat split; reflexivity. }
  split; [reflexivity|].
  split; [intros id w Hw Hid; apply Hrun; trivial|].
  split; [apply Hd|]. split; [apply Hd|].
  exists higher, lower. split; [exact Hp|].
  intros calls Hw.
  destruct (down_series A tA higher lower messages calls _ Hd Hw) as [Hs Hd'].
  split; [exact Hs|].
  intros now' call' Ht.
  assert (Hnd' : List.NoDup (map keyOf (providers (afterAll g2 messages calls)))).
  { destruct Hd' as [-> _]. rewrite <- Hp. exact Hnd. }
  destruct (down_retried A tA higher lower messages _ now' call' Hnd' Hd' Ht)
    as (before & later & E & Hb & Hl & Hiff & Hc).
  assert (Hkeys : forall p, In p higher -> p <> A).
  { intros p Hin ->. rewrite Hp, map_app in Hnd. cbn [map] in Hnd.
    apply List.NoDup_remove_2 in Hnd. apply Hnd. apply in_or_app. left.
    apply in_map, Hin. }
  exists before, later.
  split; [exact E|]. split; [exact Hb|]. split; [exact Hl|].
  split; [exact Hiff|]. split; [exact Hc|]. split.
  - split.
    + intros [others Eo]. destruct before as [|p before]; [reflexivity|]. exfalso.
      rewrite generateResponse_unfold, E in Eo. cbn [app] in Eo.
      match type of Eo with attempts (tryProviders _ _ (p :: ?l) ?g0) = _ =>
        destruct (tryProviders_first call' messages p l g0) as [others' Eo'] end.
      rewrite Eo' in Eo. injection Eo as Ep _.
      apply (Hkeys p); [apply Hb; left; reflexivity | exact Ep].
    + intros ->. apply Hc. intros p [].
  - intros ->. destruct before as [|p before]; [|destruct (Hb p (or_introl eq_refl))].
    apply Hc. intros p [].
Qed.

Lemma newGateway_keys :
  List.NoDup (map keyOf (providers (newGateway true true true))).
Proof.
  vm_compute.
  repeat (apply List.NoDup_cons; [intros H; cbn in H; intuition discriminate|]).
  apply List.NoDup_nil.
Qed.

(** The scenario on a gateway with all three keys set: gpt-4o fails at
    time 1005, Claude replies. *)
Lemma failover_then_cooldown_witness :
  let g := newGateway true true true in
  let r := generateResponse g [str "q"] 1000 primaryDown in
  (exists response,
     result r = Returns response /\
     content response = str "hi" /\
     provider response = name claude /\
     responseModel response = model claude /\
     tokensUsed response =
       (Z.of_nat (length (join (str " ") [str "q"] ++ str "hi")) + 3) / 4 /\
     cost response = tokensUsed response * costPerToken claude /\
     duration response = 1010 - 1006) /\
  attempts r = [gpt4o; claude] /\
  healthStatus (after r) !! keyOf gpt4o = Some false /\
  lastHealthCheck (after r) !! keyOf gpt4o = Some 1005 /\
  forall calls : list (Z * (LLMProvider -> attempt)),
    Forall (fun c => fst c - 1005 <= HEALTH_CHECK_INTERVAL) calls ->
    Forall (fun r' => ~ In gpt4o (attempts r'))
           (generateResponses (after r) [str "q"] calls) /\
    forall now' call',
      HEALTH_CHECK_INTERVAL < now' - 1005 ->
      exists others,
        attempts (generateResponse (afterAll (after r) [str "q"] calls)
                                   [str "q"] now' call') = gpt4o :: others.
Proof.
  intros g r.
  destruct (failover_then_cooldown (newGateway true true true) [str "q"] 1000
              primaryDown gpt4o claude [] [gpt35; gemini]
              1005 (str "hi") 1006 1010
              newGateway_keys eq_refl (fun p (H : In p []) => match H with end)
              eq_refl eq_refl) as (H1 & H2 & _ & H3 & H4 & higher & lower & Hp & H5).
  split; [exact H1|]. split; [exact H2|]. split; [exact H3|]. split; [exact H4|].
  assert (Hh : higher = []).
  { change (providers (newGateway true true true))
      with [gpt4o; claude; gpt35; gemini] in Hp.
    destruct higher as [|h higher]; [reflexivity|]. exfalso.
    cbn [app] in Hp. injection Hp as _ Hp.
    assert (Hin : In gpt4o [claude; gpt35; gemini])
      by (rewrite Hp; apply in_or_app; right; left; reflexivity).
    cbn in Hin. destruct Hin as [Hin|[Hin|[Hin|[]]]]; discriminate Hin. }
  intros calls Hw. destruct (H5 calls Hw) as [Hs Hlater].
  split; [exact Hs|]. intros now' call' Ht.
  destruct (Hlater now' call' Ht) as (before & later & _ & _ & _ & _ & _ & _ & Hfirst).
  exact (Hfirst Hh).
Defined.

Lemma thirdCall_first :
  fst (getAvailableProviders secondGateway 2000) = [claude; gpt35; gemini] /\
  attempts (generateResponse
              (after (generateResponse secondGateway [str "q"] 2000 claudeDown))
              [str "q"] 400000 primaryDown) = [gpt4o; claude].
Proof. vm_compute. split; reflexivity. Qed.

Lemma overlapping_run :
  snd (run {| gateway := newGateway true true true; pending := ∅ |} overlapping) =
  [Calls 1 gpt4o; Calls 2 gpt4o; Calls 2 claude;
   Returned 2 (responseOf claude [str "q"] (str "hi") 1006 1010);
   Returned 1 (responseOf gpt4o [str "q"] (str "late") 1000 1020);
   Calls 3 gpt4o].
Proof. vm_compute. reflexivity. Qed.

(** The claim as the specification has it fails in two ways.  The
    provider that failed is not called first after its cooldown when a
    provider of higher rank is available again: Claude fails at 2005 in a
    call that gpt-4o, unhealthy since 1005, is left out of, and the call
    at 400000 calls gpt-4o first.  And when calls overlap, a call that
    starts within the cooldown calls the provider that failed: gpt-4o
    throws for call 2 at 1005, then replies to call 1, which marks it
    healthy, and call 3, which starts at 2000, calls it. *)
Lemma failover_overlap_counterexample :
  ~ (forall g messages now call A B rest tA text t1 t2 now' call',
       List.NoDup (map keyOf (providers g)) ->
       fst (getAvailableProviders g now) = A :: B :: rest ->
       call A = Failed tA ->
       call B = Replied text t1 t2 ->
       HEALTH_CHECK_INTERVAL < now' - tA ->
       exists others,
         attempts (generateResponse (after (generateResponse g messages now call))
                                    messages now' call') = A :: others) /\
  (exists before later,
     snd (run {| gateway := newGateway true true true; pending := ∅ |} overlapping) =
     before ++ Calls 2 gpt4o :: Calls 2 claude ::
               Returned 2 (responseOf claude [str "q"] (str "hi") 1006 1010) ::
               later ++ [Calls 3 gpt4o]) /\
  2000 - 1005 <= HEALTH_CHECK_INTERVAL.
Proof.
  split; [|split].
  - intros H. destruct thirdCall_first as [Ea Et].
    assert (Hk : List.NoDup (map keyOf (providers secondGateway))).
    { change (providers secondGateway) with (providers (newGateway true true true)).
      exact newGateway_keys. }
    destruct (H secondGateway [str "q"] 2000 claudeDown claude gpt35 [gemini]
                2005 (str "hi") 2006 2010 400000 primaryDown
                Hk Ea eq_refl eq_refl ltac:(reflexivity)) as [others E].
    rewrite Et in E. discriminate E.
  - exists [Calls 1 gpt4o], [Returned 1 (responseOf gpt4o [str "q"] (str "late") 1000 1020)].
    rewrite overlapping_run. reflexivity.
  - unfold HEALTH_CHECK_INTERVAL. lia.
Qed.

(** C7, as the code has it.  [generateResponse] throws exactly when
    every provider that is available when the call starts (healthy, or
    unhealthy for more than five minutes) fails in the call; it has then
    called all of them, the error is the all-providers-failed error, and
    there is no response.  When it returns, the response is the whole
    reply of the first available provider that did not fail. *)
Theorem generateResponse_throws_iff
    (g : LLMGateway) (messages : list jsstring) (now : Z)
    (call : LLMProvider -> attempt) :
  (result (generateResponse g messages now call) = Throws allFailed <->
   forall p, In p (fst (getAvailableProviders g now)) -> failed (call p) = true)
  /\ (forall e, result (generateResponse g messages now call) = Throws e ->
        e = allFailed /\
        attempts (generateResponse g messages now call) =
          fst (getAvailableProviders g now))
  /\ (forall resp, result (generateResponse g messages now call) = Returns resp ->
        exists before p later text t1 t2,
          fst (getAvailableProviders g now) = before ++ p :: later /\
          attempts (generateResponse g messages now call) = before ++ [p] /\
          (forall q, In q before -> failed (call q) = true) /\
          call p = Replied text t1 t2 /\
          resp = responseOf p messages text t1 t2).
Proof.
  rewrite generateResponse_unfold. split; [|split].
  - apply tryProviders_throws.
  - intros e. apply tryProviders_throws_only.
  - intros resp. apply tryProviders_returns.
Qed.

Lemma secondCall_allDown :
  result (generateResponse secondGateway [str "q"] 5000 allDown) = Throws allFailed /\
  attempts (generateResponse secondGateway [str "q"] 5000 allDown) =
    [claude; gpt35; gemini] /\
  providers secondGateway = [gpt4o; claude; gpt35; gemini].
Proof. vm_compute. repeat split; reflexivity. Qed.

Lemma generateResponse_throws_iff_witness :
  result (generateResponse secondGateway [str "q"] 5000 allDown) = Throws allFailed /\
  attempts (generateResponse secondGateway [str "q"] 5000 allDown) =
    fst (getAvailableProviders secondGateway 5000).
Proof.
  assert (H : result (generateResponse secondGateway [str "q"] 5000 allDown)
              = Throws allFailed).
  { apply (generateResponse_throws_iff secondGateway [str "q"] 5000 allDown).
    intros p _. reflexivity. }
  split; [exact H|].
  destruct (generateResponse_throws_iff secondGateway [str "q"] 5000 allDown)
    as (_ & T & _).
  exact (proj2 (T _ H)).
Defined.

(** With gpt-4o in its cooldown and every other provider failing, the
    call throws although gpt-4o, a provider of the ranked list, has not
    been called. *)
Lemma generateResponse_skipped_counterexample :
  ~ (forall g messages now call,
       result (generateResponse g messages now call) = Throws allFailed <->
       forall p, In p (providers g) ->
         In p (attempts (generateResponse g messages now call)) /\
         failed (call p) = true).
Proof.
  intros H.
  destruct secondCall_allDown as (E & Ea & Ep).
  apply (H secondGateway [str "q"] 5000 allDown) with (p := gpt4o) in E.
  - destruct E as [E _]. rewrite Ea in E.
    destruct E as [E|[E|[E|[]]]]; discriminate E.
  - rewrite Ep. left. reflexivity.
Qed.

(** *** The providers that a call takes *)

Lemma isHealthy_insert_ne (health : gmap (list ascii) bool) (k : list ascii)
    (b : bool) (p : LLMProvider) :
  keyOf p <> k -> isHealthy (<[k := b]> health) p = isHealthy health p.
Proof. intros H. unfold isHealthy. rewrite lookup_insert_ne by congruence. reflexivity. Qed.

Lemma isHealthy_insert (health : gmap (list ascii) bool) (b : bool) (p : LLMProvider) :
  isHealthy (<[keyOf p := b]> health) p = b.
Proof. unfold isHealthy. rewrite lookup_insert_eq. reflexivity. Qed.

Lemma filterAvailable_exact (now : Z) (checks : gmap (list ascii) Z)
    (ps : list LLMProvider) :
  List.NoDup (map keyOf ps) ->
  forall health : gmap (list ascii) bool,
    let taken := fun p => isHealthy health p ||
                          (HEALTH_CHECK_INTERVAL <? now - lastCheck checks p) in
    fst (filterAvailable now checks ps health) = List.filter taken ps /\
    (forall p, In p ps ->
       isHealthy (snd (filterAvailable now checks ps health)) p = taken p) /\
    (forall k : list ascii, ~ In k (map keyOf ps) ->
       snd (filterAvailable now checks ps health) !! k = health !! k).
Proof.
  induction ps as [|p ps IH]; intros Hnd health taken.
  - cbn. repeat split; trivial. intros p [].
  - cbn [map] in Hnd. apply NoDup_cons_iff in Hnd as [Hp Hnd].
    assert (Hne : forall q, In q ps -> keyOf q <> keyOf p).
    { intros q Hq E. apply Hp. rewrite <- E. apply in_map, Hq. }
    cbn [filterAvailable List.filter]. subst taken. cbn beta.
    destruct (isHealthy health p) eqn:Eh; cbn [negb andb orb].
    + destruct (IH Hnd health) as (I1 & I2 & I3).
      destruct (filterAvailable now checks ps health) as [kept health'].
      cbn [fst snd] in *. split; [rewrite I1; reflexivity|]. split.
      * intros q [<-|Hq]; [|apply I2, Hq].
        unfold isHealthy in *. rewrite I3 by exact Hp. rewrite Eh. reflexivity.
      * intros k Hk. apply I3. intros Hin. apply Hk. right. exact Hin.
    + destruct (HEALTH_CHECK_INTERVAL <? now - lastCheck checks p) eqn:Ec.
      * destruct (IH Hnd (<[keyOf p := true]> health)) as (I1 & I2 & I3).
        destruct (filterAvailable now checks ps _) as [kept health'].
        cbn [fst snd] in *. split; [|split].
        -- rewrite I1. f_equal. apply filter_ext_in. intros q Hq.
           rewrite isHealthy_insert_ne by (apply Hne, Hq). reflexivity.
        -- intros q [<-|Hq].
           ++ unfold isHealthy at 1. rewrite I3 by exact Hp.
              rewrite lookup_insert_eq, Eh, Ec. reflexivity.
           ++ rewrite I2 by exact Hq.
              rewrite isHealthy_insert_ne by (apply Hne, Hq). reflexivity.
        -- intros k Hk. rewrite I3 by (intros Hin; apply Hk; right; exact Hin).
           apply lookup_insert_ne. intros E. apply Hk. left. exact E.
      * destruct (IH Hnd health) as (I1 & I2 & I3).
        destruct (filterAvailable now checks ps health) as [kept health'].
        cbn [fst snd] in *. split; [exact I1|]. split.
        -- intros q [<-|Hq]; [|apply I2, Hq].
           unfold isHealthy in *. rewrite I3 by exact Hp. rewrite Eh, Ec. reflexivity.
        -- intros k Hk. apply I3. intros Hin. apply Hk. right. exact Hin.
Qed.

(** [getAvailableProviders] returns, in the order of their ranks, the
    providers that are healthy or whose last failure is more than five
    minutes ago, and marks exactly these as healthy; the list of the
    providers and the times of their failures stay as they are. *)
Theorem getAvailableProviders_takes_and_marks (g : LLMGateway) (now : Z) :
  List.NoDup (map keyOf (providers g)) ->
  fst (getAvailableProviders g now) = List.filter (takenAt now g) (providers g) /\
  (forall p, In p (providers g) ->
     isHealthy (healthStatus (snd (getAvailableProviders g now))) p = takenAt now g p) /\
  providers (snd (getAvailableProviders g now)) = providers g /\
  lastHealthCheck (snd (getAvailableProviders g now)) = lastHealthCheck g.
Proof.
  intros Hnd. rewrite getAvailableProviders_fst, getAvailableProviders_snd.
  cbn [providers healthStatus lastHealthCheck].
  destruct (filterAvailable_exact now (lastHealthCheck g) (providers g) Hnd
              (healthStatus g)) as (H1 & H2 & _).
  repeat split; assumption.
Qed.

Lemma getAvailableProviders_takes_and_marks_witness :
  fst (getAvailableProviders secondGateway 5000) =
  List.filter (takenAt 5000 secondGateway) (providers secondGateway).
Proof.
  apply (getAvailableProviders_takes_and_marks secondGateway 5000).
  vm_compute.
  repeat (apply List.NoDup_cons; [intros H; cbn in H; intuition discriminate|]).
  apply List.NoDup_nil.
Defined.

(** *** The health records after a call *)

Lemma tryProviders_untouched (call : LLMProvider -> attempt)
    (messages : list jsstring) (k : list ascii) (ps : list LLMProvider) :
  forall g : LLMGateway,
    let r := tryProviders call messages ps g in
    (forall p, In p (attempts r) -> keyOf p <> k) ->
    healthStatus (after r) !! k = healthStatus g !! k /\
    lastHealthCheck (after r) !! k = lastHealthCheck g !! k.
Proof.
  induction ps as [|p ps IH]; intros g; cbn [tryProviders].
  - cbn. auto.
  - destruct (call p) as [text t1 t2|t];
      cbn [after attempts healthStatus lastHealthCheck]; intros Hk.
    + split; [|reflexivity]. apply lookup_insert_ne. apply Hk. left. reflexivity.
    + match goal with |- context [tryProviders call messages ps ?g'] =>
        destruct (IH g') as (H1 & H2) end.
      { intros q Hq. apply Hk. right. exact Hq. }
      cbn [healthStatus lastHealthCheck] in *. rewrite H1, H2.
      assert (Hp : keyOf p <> k) by (apply Hk; left; reflexivity).
      split; apply lookup_insert_ne, Hp.
Qed.

Lemma tryProviders_records (call : LLMProvider -> attempt)
    (messages : list jsstring) (ps : list LLMProvider) :
  List.NoDup (map keyOf ps) ->
  forall (g : LLMGateway) (p : LLMProvider),
    let r := tryProviders call messages ps g in
    In p (attempts r) ->
    isHealthy (healthStatus (after r)) p = negb (failed (call p)) /\
    (forall t, call p = Failed t -> lastHealthCheck (after r) !! keyOf p = Some t).
Proof.
  induction ps as [|q ps IH]; intros Hnd g p; cbn [tryProviders].
  - intros [].
  - cbn [map] in Hnd. apply NoDup_cons_iff in Hnd as [Hq Hnd].
    destruct (call q) as [text t1 t2|t] eqn:E;
      cbn [after attempts healthStatus lastHealthCheck].
    + intros [<-|[]]. rewrite E. cbn [failed negb]. split.
      * apply isHealthy_insert.
      * intros t. discriminate.
    + intros [<-|Hp].
      * match goal with |- context [tryProviders call messages ps ?g'] =>
          destruct (tryProviders_frame call messages (keyOf q) ps g')
            as (_ & H2 & H3 & _) end.
        { intros x Hx Ex. apply Hq. rewrite <- Ex. apply in_map, Hx. }
        cbn [healthStatus lastHealthCheck] in *. rewrite E. cbn [failed negb].
        split.
        -- unfold isHealthy. rewrite H2, lookup_insert_eq. reflexivity.
        -- intros t' Et. injection Et as <-. rewrite H3. apply lookup_insert_eq.
      * apply (IH Hnd). exact Hp.
Qed.

Lemma getProviderHealth_lookup (g : LLMGateway) (p : LLMProvider) :
  In p (providers g) ->
  getProviderHealth g !! keyOf p = Some (isHealthy (healthStatus g) p).
Proof.
  unfold getProviderHealth.
  assert (G : forall (ps : list LLMProvider) (acc : gmap (list ascii) bool),
            In p ps \/ acc !! keyOf p = Some (isHealthy (healthStatus g) p) ->
            fold_left (fun health q => <[keyOf q := isHealthy (healthStatus g) q]> health)
                      ps acc !! keyOf p = Some (isHealthy (healthStatus g) p)).
  { induction ps as [|q ps IH]; intros acc H; cbn [fold_left].
    - destruct H as [[]|H]. exact H.
    - apply IH. destruct (decide (keyOf q = keyOf p)) as [E|N].
      + right. rewrite E, lookup_insert_eq. unfold isHealthy. rewrite E. reflexivity.
      + destruct H as [[->|H]|H]; [congruence | left; exact H |].
        right. rewrite lookup_insert_ne by exact N. exact H. }
  intros H. apply G. left. exact H.
Qed.

Lemma keys_differ (ps : list LLMProvider) (p q : LLMProvider) :
  List.NoDup (map keyOf ps) -> In p ps -> In q ps -> p <> q -> keyOf p <> keyOf q.
Proof.
  induction ps as [|x ps IH]; intros Hnd Hp Hq Hne; [destruct Hp|].
  cbn [map] in Hnd. apply NoDup_cons_iff in Hnd as [Hx Hnd].
  destruct Hp as [->|Hp], Hq as [->|Hq].
  - congruence.
  - intros E. apply Hx. rewrite E. apply in_map, Hq.
  - intros E. apply Hx. rewrite <- E. apply in_map, Hp.
  - apply IH; assumption.
Qed.

(** The health records after a call of [generateResponse]: every
    provider that the call has tried is recorded as healthy when it has
    replied and as unhealthy, with the time at which its failure was
    caught, when it has failed; a provider that the call has not tried is
    recorded as healthy exactly when the call would take it, and the time
    of its last failure stays; the list of the providers stays. *)
Theorem generateResponse_records_health
    (g : LLMGateway) (messages : list jsstring) (now : Z)
    (call : LLMProvider -> attempt) :
  List.NoDup (map keyOf (providers g)) ->
  let r := generateResponse g messages now call in
  providers (after r) = providers g /\
  (forall p, In p (attempts r) ->
     In p (providers g) /\
     getProviderHealth (after r) !! keyOf p = Some (negb (failed (call p))) /\
     (forall t, call p = Failed t ->
        lastHealthCheck (after r) !! keyOf p = Some t)) /\
  (forall p, In p (providers g) -> ~ In p (attempts r) ->
     getProviderHealth (after r) !! keyOf p = Some (takenAt now g p) /\
     lastHealthCheck (after r) !! keyOf p = lastHealthCheck g !! keyOf p).
Proof.
  intros Hnd r. subst r. rewrite generateResponse_unfold.
  rewrite getAvailableProviders_fst, getAvailableProviders_snd.
  destruct (filterAvailable_exact now (lastHealthCheck g) (providers g) Hnd
              (healthStatus g)) as (H1 & H2 & _).
  set (available := fst (filterAvailable now (lastHealthCheck g) (providers g)
                                         (healthStatus g))) in *.
  set (g1 := {| providers := providers g;
                healthStatus := snd (filterAvailable now (lastHealthCheck g)
                                       (providers g) (healthStatus g));
                lastHealthCheck := lastHealthCheck g |}).
  assert (Hav : forall p, In p available -> In p (providers g)).
  { intros p Hp. subst available. eapply filterAvailable_subset, Hp. }
  assert (Hnd' : List.NoDup (map keyOf available))
    by apply filterAvailable_NoDup, Hnd.
  destruct (tryProviders_frame call messages [] available g1) as (F1 & _ & _ & F4).
  { intros p _ E. destruct p as [n m pr mt c], n, m; discriminate E. }
  assert (Hp : providers (after (tryProviders call messages available g1))
               = providers g) by exact F1.
  split; [exact Hp|]. split.
  - intros p Hin.
    destruct (tryProviders_records call messages available Hnd' g1 p Hin) as [R1 R2].
    assert (HpIn : In p (providers g)) by (apply Hav, F4, Hin).
    split; [exact HpIn|]. split; [|exact R2].
    rewrite getProviderHealth_lookup by (rewrite Hp; exact HpIn).
    rewrite R1. reflexivity.
  - intros p HpIn Hout.
    destruct (tryProviders_untouched call messages (keyOf p) available g1) as [U1 U2].
    { intros q Hq E. apply (keys_differ (providers g) q p Hnd); trivial.
      - apply Hav, F4, Hq.
      - intros ->. exact (Hout Hq). }
    split.
    + rewrite getProviderHealth_lookup by (rewrite Hp; exact HpIn).
      unfold isHealthy at 1. rewrite U1. cbn [healthStatus g1].
      fold (isHealthy (snd (filterAvailable now (lastHealthCheck g) (providers g)
                                            (healthStatus g))) p).
      rewrite H2 by exact HpIn. reflexivity.
    + rewrite U2. reflexivity.
Qed.

Lemma generateResponse_records_health_witness :
  providers (after (generateResponse (newGateway true true true) [str "q"] 1000
                                     primaryDown))
    = providers (newGateway true true true) /\
  getProviderHealth (after (generateResponse (newGateway true true true) [str "q"]
                                             1000 primaryDown))
    !! keyOf gpt4o = Some (negb (failed (primaryDown gpt4o))) /\
  lastHealthCheck (after (generateResponse (newGateway true true true) [str "q"]
                                           1000 primaryDown))
    !! keyOf gpt4o = Some 1005 /\
  getProviderHealth (after (generateResponse (newGateway true true true) [str "q"]
                                             1000 primaryDown))
    !! keyOf claude = Some (negb (failed (primaryDown claude))).
Proof.
  assert (Ea : attempts (generateResponse (newGateway true true true) [str "q"]
                                          1000 primaryDown) = [gpt4o; claude])
    by (vm_compute; reflexivity).
  destruct (generateResponse_records_health (newGateway true true true) [str "q"]
              1000 primaryDown newGateway_keys) as (H1 & H2 & _).
  rewrite Ea in H2.
  split; [exact H1|].
  destruct (H2 gpt4o (or_introl eq_refl)) as (_ & A1 & A2).
  destruct (H2 claude (or_intror (or_introl eq_refl))) as (_ & B1 & _).
  split; [exact A1|]. split; [exact (A2 1005 eq_refl) | exact B1].
Defined.

(** *** The best provider for a task *)

Lemma insertByCost_Permutation (p : LLMProvider) (l : list LLMProvider) :
  Permutation (insertByCost p l) (p :: l).
Proof.
  induction l as [|q l IH]; cbn [insertByCost]; [reflexivity|].
  destruct (costPerToken q <? costPerToken p); [|reflexivity].
  rewrite IH. apply perm_swap.
Qed.

Lemma sortByCost_Permutation (l : list LLMProvider) : Permutation (sortByCost l) l.
Proof.
  induction l as [|p l IH]; [reflexivity|].
  cbn [sortByCost fold_right]. fold (sortByCost l).
  rewrite insertByCost_Permutation. constructor. exact IH.
Qed.

Lemma insertByCost_sorted (p : LLMProvider) (l : list LLMProvider) :
  StronglySorted (fun a b => costPerToken a <= costPerToken b) l ->
  StronglySorted (fun a b => costPerToken a <= costPerToken b) (insertByCost p l).
Proof.
  induction 1 as [|q l Hs IH Hq]; cbn [insertByCost].
  - repeat constructor.
  - destruct (costPerToken q <? costPerToken p) eqn:E.
    + constructor; [exact IH|]. apply Z.ltb_lt in E.
      apply List.Forall_forall. intros x Hx.
      apply (Permutation_in _ (insertByCost_Permutation p l)) in Hx.
      destruct Hx as [<-|Hx]; [lia|]. rewrite List.Forall_forall in Hq. auto.
    + apply Z.ltb_ge in E. constructor; [constructor; assumption|].
      constructor; [exact E|].
      eapply List.Forall_impl; [|exact Hq]. cbn. intros; lia.
Qed.

Lemma sortByCost_sorted (l : list LLMProvider) :
  StronglySorted (fun a b => costPerToken a <= costPerToken b) (sortByCost l).
Proof.
  induction l as [|p l IH]; [constructor|].
  cbn [sortByCost fold_right]. apply insertByCost_sorted, IH.
Qed.

Lemma sortByCost_head (l : list LLMProvider) (p : LLMProvider) :
  head (sortByCost l) = Some p ->
  In p l /\ forall q, In q l -> costPerToken p <= costPerToken q.
Proof.
  intros H. pose proof (sortByCost_sorted l) as Hs.
  pose proof (sortByCost_Permutation l) as HP.
  destruct (sortByCost l) as [|x rest]; [discriminate|]. injection H as ->.
  split.
  - eapply Permutation_in; [exact HP | left; reflexivity].
  - intros q Hq. apply (Permutation_in _ (Permutation_sym HP)) in Hq.
    apply StronglySorted_cons in Hs as [Hall _].
    rewrite List.Forall_forall in Hall.
    destruct Hq as [<-|Hq]; [lia | auto].
Qed.

Lemma find_default (f : LLMProvider -> bool) (first : LLMProvider)
    (rest : list LLMProvider) :
  let p := default first (List.find f (first :: rest)) in
  In p (first :: rest) /\
  (f p = true \/ forall q, In q (first :: rest) -> f q = false).
Proof.
  cbn zeta. destruct (List.find f (first :: rest)) as [x|] eqn:E; cbn [default from_option id].
  - apply find_some in E as [E1 E2]. auto.
  - split; [left; reflexivity|]. right. intros q Hq. exact (find_none _ _ E q Hq).
Qed.

(** [getBestProvider] answers [null] exactly when no provider is
    available; otherwise it names an available provider: for a search
    one that no available provider is cheaper than, for an analysis or
    for writing one of the most capable models (gpt-4, claude-3) if one
    is available, for a summary a balanced one (gpt-3.5, claude) if one
    is available.  Asking marks the providers as [getAvailableProviders]
    does. *)
Theorem getBestProvider_choice (g : LLMGateway) (task : Task) (now : Z) :
  (fst (getBestProvider g task now) = None <->
   fst (getAvailableProviders g now) = []) /\
  (forall p, fst (getBestProvider g task now) = Some p ->
     In p (fst (getAvailableProviders g now)) /\
     (task = search ->
      forall q, In q (fst (getAvailableProviders g now)) ->
                costPerToken p <= costPerToken q) /\
     (task = analysis \/ task = writing ->
      mostCapable p = true \/
      forall q, In q (fst (getAvailableProviders g now)) -> mostCapable q = false) /\
     (task = summarization ->
      balanced p = true \/
      forall q, In q (fst (getAvailableProviders g now)) -> balanced q = false)) /\
  snd (getBestProvider g task now) = snd (getAvailableProviders g now).
Proof.
  unfold getBestProvider.
  destruct (getAvailableProviders g now) as [available g1]. cbn [fst snd].
  destruct available as [|first rest].
  - split; [tauto|]. split; [discriminate | reflexivity].
  - pose proof (find_default mostCapable first rest) as [C1 C2].
    pose proof (find_default balanced first rest) as [B1 B2].
    cbn zeta in *. split; [|split; [|reflexivity]].
    + split; [|discriminate]. destruct task; try discriminate.
      intros H. pose proof (sortByCost_Permutation (first :: rest)) as HP.
      destruct (sortByCost (first :: rest)); [|discriminate].
      apply Permutation_nil in HP. discriminate.
    + intros p Hp. destruct task.
      * injection Hp as <-. repeat split; trivial; try discriminate.
        intros [H|H]; discriminate.
      * apply sortByCost_head in Hp as [H1 H2].
        repeat split; trivial; try discriminate. intros [H|H]; discriminate.
      * injection Hp as <-. repeat split; trivial; discriminate.
      * injection Hp as <-. repeat split; trivial; discriminate.
      * injection Hp as <-. repeat split; try discriminate.
        -- left. reflexivity.
        -- intros [H|H]; discriminate.
Qed.

(** *** A new gateway *)

(** Whatever keys are set, a new gateway ranks its providers by
    priority, under keys that differ, all of them healthy and without a
    failure on record, so that its first call takes all of them in the
    order of their ranks.  It has no provider exactly when none of the
    three keys is set, and then every call throws at once, without
    calling anyone. *)
Theorem newGateway_starts_healthy
    (openaiKey anthropicKey googleKey : bool) (now : Z)
    (messages : list jsstring) (call : LLMProvider -> attempt) :
  let g := newGateway openaiKey anthropicKey googleKey in
  StronglySorted (fun a b => priority a < priority b) (providers g) /\
  List.NoDup (map keyOf (providers g)) /\
  (forall p, In p (providers g) ->
     healthStatus g !! keyOf p = Some true /\
     lastHealthCheck g !! keyOf p = Some 0) /\
  fst (getAvailableProviders g now) = providers g /\
  (providers g = [] <->
   openaiKey = false /\ anthropicKey = false /\ googleKey = false) /\
  result (generateResponse (newGateway false false false) messages now call)
    = Throws allFailed /\
  attempts (generateResponse (newGateway false false false) messages now call) = [].
Proof.
  cbn zeta. split; [|split; [|split; [|split; [|split; [|split]]]]].
  - destruct openaiKey, anthropicKey, googleKey; vm_compute;
      repeat (constructor; [|repeat (constructor; try reflexivity)]); constructor.
  - destruct openaiKey, anthropicKey, googleKey; vm_compute;
      repeat (apply List.NoDup_cons; [intros H; cbn in H; intuition discriminate|]);
      apply List.NoDup_nil.
  - intros p Hp.
    destruct openaiKey, anthropicKey, googleKey; vm_compute in Hp;
      repeat (destruct Hp as [<-|Hp]; [split; vm_compute; reflexivity|]);
      destruct Hp.
  - destruct openaiKey, anthropicKey, googleKey; vm_compute; reflexivity.
  - destruct openaiKey, anthropicKey, googleKey; vm_compute;
      split; try discriminate; try tauto; intros (H1 & H2 & H3); discriminate.
  - reflexivity.
  - reflexivity.
Qed.

End GatewayFacts.

(** ** The model router: what it recommends and what it selects *)

Module RouterFacts.
Import Token Gateway Router GatewayFacts.

Local Open Scope Z_scope.

Lemma patternMatches_bounds (input : jsstring) : 0 <= patternMatches input <= 4.
Proof.
  unfold patternMatches, complexPatterns. cbn [fold_left].
  repeat match goal with
         | |- context [Safety.testLit ?r true input] =>
             destruct (Safety.testLit r true input)
         end; lia.
Qed.

Lemma lengthScore_bounds (input : jsstring) : 1 <= lengthScore input <= 3.
Proof.
  unfold lengthScore. cbn zeta.
  destruct (_ <? 200); [lia|]. destruct (_ <? 1000); lia.
Qed.

Lemma contextScore_bounds (context : option (list jsstring)) :
  0 <= contextScore context <= 2.
Proof.
  unfold contextScore. cbn zeta.
  destruct (2000 <? _); [lia|]. destruct (500 <? _); lia.
Qed.

Lemma taskScore_bounds (t : TaskType) : 1 <= taskScore t <= 4.
Proof. destruct t; cbn; lia. Qed.

(** The complexity of a task.  The score lies between 2 and 13; an
    analysis is never of low complexity; and a request of less than 200
    code units, with a context of at most 500 and none of the words that
    indicate complexity, is of medium complexity when it is an analysis
    and of low complexity otherwise, never of high complexity. *)
Theorem estimateComplexity_bounds
    (input : jsstring) (t : TaskType) (context : option (list jsstring)) :
  2 <= complexityScore input t context <= 13 /\
  estimateComplexity input analysisTask context <> lowComplexity /\
  ((length input < 200)%nat /\ (length (joined context) <= 500)%nat /\
   patternMatches input = 0 ->
   estimateComplexity input t context =
   match t with analysisTask => mediumComplexity | _ => lowComplexity end).
Proof.
  pose proof (patternMatches_bounds input) as Hp.
  pose proof (lengthScore_bounds input) as Hl.
  pose proof (contextScore_bounds context) as Hc.
  pose proof (taskScore_bounds t) as Ht.
  split; [unfold complexityScore; lia|]. split.
  - unfold estimateComplexity, complexityScore. cbn [taskScore].
    destruct (_ <=? 4) eqn:E; [apply Z.leb_le in E; lia|].
    destruct (_ <=? 7); discriminate.
  - intros (H1 & H2 & H3). unfold estimateComplexity, complexityScore.
    rewrite H3. unfold lengthScore, contextScore. cbn zeta.
    replace (Z.of_nat (length input) <? 200) with true
      by (symmetry; apply Z.ltb_lt; lia).
    replace (2000 <? Z.of_nat (length (joined context))) with false
      by (symmetry; apply Z.ltb_ge; lia).
    replace (500 <? Z.of_nat (length (joined context))) with false
      by (symmetry; apply Z.ltb_ge; lia).
    destruct t; reflexivity.
Qed.

(** *** The providers that are selected *)

Lemma insertBySuitability_Permutation (a : TaskAnalysis) (p : LLMProvider)
    (l : list LLMProvider) :
  Permutation (insertBySuitability a p l) (p :: l).
Proof.
  induction l as [|q l IH]; cbn [insertBySuitability]; [reflexivity|].
  destruct (_ <? _); [|reflexivity]. rewrite IH. apply perm_swap.
Qed.

Lemma sortBySuitability_Permutation (a : TaskAnalysis) (l : list LLMProvider) :
  Permutation (sortBySuitability a l) l.
Proof.
  induction l as [|p l IH]; [reflexivity|].
  cbn [sortBySuitability fold_right]. fold (sortBySuitability a l).
  rewrite insertBySuitability_Permutation. constructor. exact IH.
Qed.

Lemma insertBySuitability_sorted (a : TaskAnalysis) (p : LLMProvider)
    (l : list LLMProvider) :
  StronglySorted (moreSuitable a) l ->
  StronglySorted (moreSuitable a) (insertBySuitability a p l).
Proof.
  induction 1 as [|q l Hs IH Hq]; cbn [insertBySuitability].
  - repeat constructor.
  - destruct (_ <? _) eqn:E.
    + constructor; [exact IH|]. apply Z.ltb_lt in E.
      apply List.Forall_forall. intros x Hx.
      apply (Permutation_in _ (insertBySuitability_Permutation a p l)) in Hx.
      destruct Hx as [<-|Hx]; [unfold moreSuitable; lia|].
      rewrite List.Forall_forall in Hq. auto.
    + apply Z.ltb_ge in E. constructor; [constructor; assumption|].
      constructor; [exact E|].
      eapply List.Forall_impl; [|exact Hq]. unfold moreSuitable. intros; lia.
Qed.

Lemma sortBySuitability_sorted (a : TaskAnalysis) (l : list LLMProvider) :
  StronglySorted (moreSuitable a) (sortBySuitability a l).
Proof.
  induction l as [|p l IH]; [constructor|].
  cbn [sortBySuitability fold_right]. apply insertBySuitability_sorted, IH.
Qed.

Lemma StronglySorted_firstn {A} (R : A -> A -> Prop) (n : nat) (l : list A) :
  StronglySorted R l -> StronglySorted R (firstn n l).
Proof.
  intros H. revert n. induction H as [|x l Hs IH Hx]; intros [|n]; cbn [firstn];
    try constructor; [apply IH|].
  apply List.Forall_forall. intros y Hy. rewrite List.Forall_forall in Hx.
  apply Hx. rewrite <- (firstn_skipn n l). apply in_or_app. left. exact Hy.
Qed.

Lemma fallbacksOf_spec (available : list LLMProvider) (selected : LLMProvider)
    (a : TaskAnalysis) :
  (length (fallbacksOf available selected a) <= 2)%nat /\
  (forall q, In q (fallbacksOf available selected a) ->
             In q available /\ q <> selected) /\
  StronglySorted (moreSuitable a) (fallbacksOf available selected a).
Proof.
  unfold fallbacksOf. split; [rewrite length_firstn; lia|]. split.
  - intros q Hq.
    assert (Hin : In q (sortBySuitability a
                          (List.filter (fun p => negb (bool_decide (p = selected)))
                                       available))).
    { rewrite <- (firstn_skipn 2 (sortBySuitability a _)).
      apply in_or_app. left. exact Hq. }
    apply (Permutation_in _ (sortBySuitability_Permutation a _)) in Hin.
    apply filter_In in Hin as [H1 H2]. split; [exact H1|].
    apply negb_true_iff, bool_decide_eq_false in H2. exact H2.
  - apply StronglySorted_firstn, sortBySuitability_sorted.
Qed.

Lemma bestOf_spec (available : list LLMProvider) (a : TaskAnalysis) :
  (bestOf available a = None <-> available = []) /\
  (forall p, bestOf available a = Some p ->
     In p available /\
     ((exists q, In q available /\ Gateway.model q = recommendedModel a) ->
      Gateway.model p = recommendedModel a) /\
     ((forall q, In q available -> Gateway.model q <> recommendedModel a) ->
      taskType a = searchTask ->
      forall q, In q available -> costPerToken p <= costPerToken q)).
Proof.
  unfold bestOf. destruct available as [|first rest].
  - split; [tauto|]. discriminate.
  - destruct (List.find (hasModel (recommendedModel a)) (first :: rest))
      as [preferred|] eqn:Ef.
    + split; [split; discriminate|]. intros p Hp. injection Hp as <-.
      apply find_some in Ef as [E1 E2]. apply bool_decide_eq_true in E2.
      split; [exact E1|]. split; [intros _; exact E2|].
      intros Hnone. exfalso. exact (Hnone preferred E1 E2).
    + assert (Hnone : forall q, In q (first :: rest) ->
                                Gateway.model q <> recommendedModel a).
      { intros q Hq. pose proof (find_none _ _ Ef q Hq) as H.
        apply bool_decide_eq_false in H. exact H. }
      pose proof (find_default mostCapable first rest) as [C1 _].
      pose proof (find_default creative first rest) as [W1 _].
      pose proof (find_default balancedChoice first rest) as [B1 _].
      cbn zeta in *. split.
      * split; [|discriminate]. destruct (taskType a); try discriminate.
        intros H. pose proof (sortByCost_Permutation (first :: rest)) as HP.
        destruct (sortByCost (first :: rest)); [|discriminate].
        apply Permutation_nil in HP. discriminate.
      * intros p Hp.
        assert (Hin : In p (first :: rest) /\
                      (taskType a = searchTask ->
                       forall q, In q (first :: rest) ->
                                 costPerToken p <= costPerToken q)).
        { destruct (taskType a).
          - injection Hp as <-. split; [exact B1 | discriminate].
          - apply sortByCost_head in Hp as [H1 H2]. split; [exact H1|].
            intros _. exact H2.
          - injection Hp as <-. split; [exact W1 | discriminate].
          - injection Hp as <-. split; [exact C1 | discriminate].
          - injection Hp as <-. split; [left; reflexivity | discriminate]. }
        destruct Hin as [H1 H2]. split; [exact H1|]. split.
        -- intros [q [Hq Eq]]. exfalso. exact (Hnone q Hq Eq).
        -- intros _. exact H2.
Qed.

Lemma selectModel_unfold (encode : jsstring -> option nat) (g : LLMGateway)
    (task input : jsstring) (context : option (list jsstring)) (now1 now2 : Z) :
  let a := analyzeTask encode task input context in
  let available := fst (getAvailableProviders g now1) in
  let g1 := snd (getAvailableProviders g now1) in
  fst (selectModel encode g task input context now1 now2) =
  match bestOf available a with
  | None => None
  | Some p =>
      Some {| provider := p;
              selectionReasoning :=
                str "Selected " ++ name p ++ str ":" ++ Gateway.model p ++
                str " for " ++ taskTypeName (taskType a) ++
                str " task with " ++ complexityName (complexity a) ++
                str " complexity. " ++ reasoning a;
              selectionCost := estimatedCost a;
              fallbackOptions :=
                fallbacksOf (fst (getAvailableProviders g1 now2)) p a |}
  end.
Proof.
  cbn zeta. unfold selectModel.
  destruct (getAvailableProviders g now1) as [available g1]. cbn [fst snd].
  destruct (bestOf available _) as [p|]; [|reflexivity].
  destruct (getAvailableProviders g1 now2) as [available2 g2]. reflexivity.
Qed.

(** [selectModel] answers [null] exactly when no provider is available.
    Otherwise it selects an available provider: one with the recommended
    model whenever one is available, and for a search, when none is, one
    that no available provider is cheaper than.  Its fallback options are
    at most two, providers that are available and are not the selected
    one, the more suitable first. *)
Theorem selectModel_choice
    (encode : jsstring -> option nat) (g : LLMGateway)
    (task input : jsstring) (context : option (list jsstring)) (now1 now2 : Z) :
  let a := analyzeTask encode task input context in
  let available := fst (getAvailableProviders g now1) in
  let g1 := snd (getAvailableProviders g now1) in
  (fst (selectModel encode g task input context now1 now2) = None <->
   available = []) /\
  (forall sel, fst (selectModel encode g task input context now1 now2) = Some sel ->
     In (provider sel) available /\
     ((exists q, In q available /\ Gateway.model q = recommendedModel a) ->
      Gateway.model (provider sel) = recommendedModel a) /\
     ((forall q, In q available -> Gateway.model q <> recommendedModel a) ->
      taskType a = searchTask ->
      forall q, In q available -> costPerToken (provider sel) <= costPerToken q) /\
     (length (fallbackOptions sel) <= 2)%nat /\
     (forall q, In q (fallbackOptions sel) ->
        In q (fst (getAvailableProviders g1 now2)) /\ q <> provider sel) /\
     StronglySorted (moreSuitable a) (fallbackOptions sel)).
Proof.
  cbn zeta. rewrite selectModel_unfold. cbn zeta.
  set (a := analyzeTask encode task input context).
  set (available := fst (getAvailableProviders g now1)).
  destruct (bestOf_spec available a) as [N S].
  destruct (bestOf available a) as [p|] eqn:E.
  - split; [split; [discriminate|]|].
    + intros H. apply N in H. discriminate.
    + intros sel Hsel. injection Hsel as <-. cbn [provider fallbackOptions].
      destruct (S p eq_refl) as (S1 & S2 & S3).
      destruct (fallbacksOf_spec
                  (fst (getAvailableProviders (snd (getAvailableProviders g now1)) now2))
                  p a) as (F1 & F2 & F3).
      repeat split; trivial; apply F2; assumption.
  - split; [|discriminate]. split; [intros _; apply N; reflexivity | reflexivity].
Qed.

End RouterFacts.


(** ** The checkpoint store: which checkpoints a write keeps *)

Module CheckpointFacts.
Import Checkpoint StringFacts DecimalFacts.

Local Open Scope Z_scope.

(** *** Keys *)

Lemma split_colon_last a : forall acc,
  colonFree a -> split_go (str ":") a 0 acc = [rev acc ++ a].
Proof.
  induction a as [|c a IH]; intros acc H.
  - cbn. rewrite reverse_rev, app_nil_r. reflexivity.
  - apply Forall_cons_iff in H as [Hc Ha].
    cbn [split_go]. cbn [str list_ascii_of_string startsWith]. rewrite Hc. cbn [andb].
    rewrite IH by exact Ha. cbn [rev]. rewrite <- app_assoc. reflexivity.
Qed.

Lemma split_colon_field a rest : forall acc,
  colonFree a ->
  split_go (str ":") (a ++ ":"%char :: rest) 0 acc =
  (rev acc ++ a) :: split_go (str ":") rest 0 [].
Proof.
  induction a as [|c a IH]; intros acc H.
  - cbn [app split_go]. cbn [str list_ascii_of_string startsWith].
    rewrite eqc_refl. replace (startsWith rest []) with true by (destruct rest; reflexivity).
    cbn [andb length Nat.sub].
    rewrite reverse_rev, app_nil_r. reflexivity.
  - apply Forall_cons_iff in H as [Hc Ha].
    cbn [app split_go]. cbn [str list_ascii_of_string startsWith]. rewrite Hc. cbn [andb].
    rewrite IH by exact Ha. cbn [rev]. rewrite <- app_assoc. reflexivity.
Qed.

Lemma plainId_colonFree T : plainId T -> colonFree T.
Proof.
  unfold plainId, colonFree. apply List.Forall_impl. intros c Hc.
  destruct (eqc ":" c) eqn:E; [|reflexivity].
  apply eqc_eq in E. subst c. exfalso. apply Hc. left. reflexivity.
Qed.

Lemma digits_colonFree ds : Forall (fun c => isDigit c = true) ds -> colonFree ds.
Proof. apply List.Forall_impl. intros c Hc. apply digit_plain, Hc. Qed.

Lemma keyAt_fields T t :
  plainId T -> 0 <= t ->
  split (str ":") (keyAt T t) = [str "checkpoint"; T; showZ t].
Proof.
  intros HT Ht. unfold split, keyAt, prefixOf.
  change (str "checkpoint:") with (str "checkpoint" ++ [":"%char]).
  change (str ":") with [":"%char].
  rewrite <- !app_assoc. cbn [app].
  change [":"%char] with (str ":").
  rewrite split_colon_field by (unfold colonFree; repeat constructor).
  rewrite split_colon_field by (apply plainId_colonFree, HT).
  rewrite split_colon_last by (apply digits_colonFree, showZ_digits, Ht).
  reflexivity.
Qed.

Lemma timestampOf_keyAt T t : plainId T -> 0 <= t -> timestampOf (keyAt T t) = Some t.
Proof.
  intros HT Ht. unfold timestampOf. rewrite keyAt_fields by assumption.
  cbn [nth_error]. apply parseInt_showZ, Ht.
Qed.

Lemma keyAt_inj T t u :
  plainId T -> 0 <= t -> 0 <= u -> keyAt T t = keyAt T u -> t = u.
Proof.
  intros HT Ht Hu E. apply (f_equal timestampOf) in E.
  rewrite !timestampOf_keyAt in E by assumption. congruence.
Qed.

Lemma keyAt_prefix T t : startsWith (keyAt T t) (prefixOf T) = true.
Proof. apply startsWith_app. Qed.

Lemma latestKey_prefix T U : startsWith (latestKey T) (prefixOf U) = false.
Proof. reflexivity. Qed.

Lemma latestKey_keyAt T U t : latestKey T <> keyAt U t.
Proof. discriminate. Qed.

(** *** Sorting the keys of a thread sorts their times *)

Lemma compareKeys_keyAt T t u :
  plainId T -> 0 <= t -> 0 <= u -> compareKeys (keyAt T t) (keyAt T u) = u - t.
Proof.
  intros HT Ht Hu. unfold compareKeys. rewrite !timestampOf_keyAt by assumption.
  reflexivity.
Qed.

Lemma insertKey_keyAt T t l :
  plainId T -> 0 <= t -> Forall (fun u => 0 <= u) l ->
  insertKey (keyAt T t) (map (keyAt T) l) = map (keyAt T) (insertDesc t l).
Proof.
  intros HT Ht. induction 1 as [|u l Hu _ IH]; [reflexivity|].
  cbn [map insertKey insertDesc]. rewrite compareKeys_keyAt by assumption.
  destruct (0 <? u - t); [|reflexivity]. cbn [map]. rewrite IH. reflexivity.
Qed.

Lemma insertDesc_nonneg t l :
  0 <= t -> Forall (fun u => 0 <= u) l -> Forall (fun u => 0 <= u) (insertDesc t l).
Proof.
  intros Ht. induction 1 as [|u l Hu Hl IH]; cbn [insertDesc].
  - repeat constructor. exact Ht.
  - destruct (0 <? u - t); repeat constructor; trivial.
Qed.

Lemma sortDesc_nonneg l :
  Forall (fun u => 0 <= u) l -> Forall (fun u => 0 <= u) (sortDesc l).
Proof.
  induction 1 as [|u l Hu Hl IH]; [constructor|].
  cbn [sortDesc fold_right]. apply insertDesc_nonneg; assumption.
Qed.

Lemma sortKeys_keyAt T l :
  plainId T -> Forall (fun u => 0 <= u) l ->
  sortKeys (map (keyAt T) l) = map (keyAt T) (sortDesc l).
Proof.
  intros HT. induction 1 as [|u l Hu Hl IH]; [reflexivity|].
  cbn [map sortKeys sortDesc fold_right]. fold (sortKeys (map (keyAt T) l)).
  fold (sortDesc l). rewrite IH. apply insertKey_keyAt; trivial.
  apply sortDesc_nonneg, Hl.
Qed.

Lemma insertDesc_Permutation t l : Permutation (insertDesc t l) (t :: l).
Proof.
  induction l as [|u l IH]; cbn [insertDesc]; [reflexivity|].
  destruct (0 <? u - t); [|reflexivity].
  rewrite IH. apply perm_swap.
Qed.

Lemma sortDesc_Permutation l : Permutation (sortDesc l) l.
Proof.
  induction l as [|u l IH]; [reflexivity|].
  cbn [sortDesc fold_right]. fold (sortDesc l).
  rewrite insertDesc_Permutation. constructor. exact IH.
Qed.

Lemma insertDesc_sorted t l :
  StronglySorted laterFirst l -> StronglySorted laterFirst (insertDesc t l).
Proof.
  induction 1 as [|u l Hs IH Hu]; cbn [insertDesc].
  - repeat constructor.
  - destruct (0 <? u - t) eqn:E.
    + constructor; [exact IH|].
      apply Z.ltb_lt in E.
      apply List.Forall_forall. intros x Hx.
      apply (Permutation_in _ (insertDesc_Permutation t l)) in Hx.
      destruct Hx as [<-|Hx]; [unfold laterFirst; lia|].
      rewrite List.Forall_forall in Hu. auto.
    + apply Z.ltb_ge in E. constructor; [constructor; assumption|].
      constructor; [unfold laterFirst; lia|].
      eapply List.Forall_impl; [|exact Hu]. unfold laterFirst. intros; lia.
Qed.

Lemma sortDesc_sorted l : StronglySorted laterFirst (sortDesc l).
Proof.
  induction l as [|u l IH]; [constructor|].
  cbn [sortDesc fold_right]. apply insertDesc_sorted, IH.
Qed.

Lemma falling_laterFirst l : falling l -> StronglySorted laterFirst l.
Proof.
  induction 1 as [|u l Hs IH Hu]; constructor; trivial.
  eapply List.Forall_impl; [|exact Hu]. unfold laterFirst. intros; lia.
Qed.

Lemma sortDesc_falling l L : falling L -> Permutation l L -> sortDesc l = L.
Proof.
  intros HL HP. apply (StronglySorted_unique_strong laterFirst).
  - unfold laterFirst. intros; lia.
  - apply sortDesc_sorted.
  - apply falling_laterFirst, HL.
  - rewrite sortDesc_Permutation. exact HP.
Qed.


(** *** The store *)

Lemma map_fmap {A B} (f : A -> B) (l : list A) : map f l = f <$> l.
Proof. induction l as [|x l IH]; [reflexivity|]. cbn. rewrite IH. reflexivity. Qed.

Lemma In_keysWithPrefix (m : gmap (list ascii) entry) p k :
  In k (keysWithPrefix m p) <-> is_Some (m !! k) /\ startsWith k p = true.
Proof.
  unfold keysWithPrefix. rewrite filter_In, in_map_iff. split.
  - intros [[[k' e] [E Hin]] Hp]. cbn in E. subst k'. split; [|exact Hp].
    apply list_elem_of_In, elem_of_map_to_list in Hin. eauto.
  - intros [[e He] Hp]. split; [|exact Hp]. exists (k, e). split; [reflexivity|].
    apply list_elem_of_In, elem_of_map_to_list, He.
Qed.

Lemma NoDup_keysWithPrefix (m : gmap (list ascii) entry) p :
  List.NoDup (keysWithPrefix m p).
Proof.
  unfold keysWithPrefix. apply List.NoDup_filter.
  rewrite map_fmap. apply NoDup_ListNoDup, NoDup_fst_map_to_list.
Qed.

Lemma lookup_del_in (m : gmap (list ascii) entry) ks k :
  In k ks -> del m ks !! k = None.
Proof.
  induction ks as [|j ks IH]; intros H; [destruct H|]. cbn [del fold_right].
  destruct (decide (j = k)) as [->|N]; [apply lookup_delete_eq|].
  rewrite lookup_delete_ne by exact N. apply IH.
  destruct H as [H|H]; [congruence | exact H].
Qed.

Lemma lookup_del_out (m : gmap (list ascii) entry) ks k :
  ~ In k ks -> del m ks !! k = m !! k.
Proof.
  induction ks as [|j ks IH]; intros H; [reflexivity|]. cbn [del fold_right].
  rewrite lookup_delete_ne by (intros ->; apply H; left; reflexivity).
  apply IH. intros Hin. apply H. right. exact Hin.
Qed.

Lemma lookup_live (now : Z) (m : gmap (list ascii) entry) (k : list ascii) (e : entry) :
  live now m !! k = Some e <-> m !! k = Some e /\ now < expiresAt e.
Proof. unfold live. rewrite map_lookup_filter_Some. reflexivity. Qed.

(** *** One write *)

Lemma NoDup_app_disjoint (a b : list Z) x :
  List.NoDup (a ++ b) -> In x a -> In x b -> False.
Proof.
  induction a as [|y a IH]; intros Hd Ha Hb; [destruct Ha|].
  cbn in Hd. apply NoDup_cons_iff in Hd as [Hy Hd].
  destruct Ha as [->|Ha]; [|exact (IH Hd Ha Hb)].
  apply Hy. apply in_or_app. right. exact Hb.
Qed.

Lemma falling_NoDup L : falling L -> List.NoDup L.
Proof.
  induction 1 as [|u L Hs IH Hu]; constructor; trivial.
  intros Hin. rewrite List.Forall_forall in Hu. specialize (Hu u Hin). lia.
Qed.

Lemma keyAt_NoDup T L :
  plainId T -> Forall (fun u => 0 <= u) L -> List.NoDup L ->
  List.NoDup (map (keyAt T) L).
Proof.
  intros HT Hn Hd. induction Hd as [|u L Hu Hd IH]; cbn [map]; constructor.
  - apply Forall_cons_iff in Hn as [H0 Hn]. rewrite List.Forall_forall in Hn.
    intros Hin. apply in_map_iff in Hin as [x [E Hx]].
    apply keyAt_inj in E; auto. subst x. exact (Hu Hx).
  - apply IH. apply Forall_cons_iff in Hn as [_ Hn]. exact Hn.
Qed.

Lemma holds_keys (T : jsstring) (m : gmap (list ascii) entry) (L : list Z) :
  plainId T -> holds T m L -> Forall (fun u => 0 <= u) L -> List.NoDup L ->
  Permutation (keysWithPrefix m (prefixOf T)) (map (keyAt T) L).
Proof.
  intros HT [H1 H2] Hn Hd. apply NoDup_Permutation.
  - apply NoDup_ListNoDup, NoDup_keysWithPrefix.
  - apply NoDup_ListNoDup, keyAt_NoDup; assumption.
  - intros k. rewrite !list_elem_of_In, In_keysWithPrefix, in_map_iff. split.
    + intros [Hs Hp]. destruct (H1 k Hp Hs) as [u [Hu ->]]. eauto.
    + intros [u [<- Hu]]. split; [|apply keyAt_prefix].
      destruct (H2 u Hu) as [v ->]. eauto.
Qed.

Lemma holds_live (T : jsstring) (m : gmap (list ascii) entry) (L : list Z) (t : Z) :
  holds T m L -> holds T (live t m) (List.filter (fun u => t <? u + TTL_MS) L).
Proof.
  intros [H1 H2]. split.
  - intros k Hp [e He]. apply lookup_live in He as [He Ht].
    destruct (H1 k Hp (ex_intro _ e He)) as [u [Hu ->]].
    exists u. split; [|reflexivity]. apply filter_In. split; [exact Hu|].
    destruct (H2 u Hu) as [v Hv]. rewrite Hv in He. injection He as <-.
    cbn in Ht. apply Z.ltb_lt, Ht.
  - intros u Hu. apply filter_In in Hu as [Hu Ht]. apply Z.ltb_lt in Ht.
    destruct (H2 u Hu) as [v Hv]. exists v. apply lookup_live. split; [exact Hv|].
    exact Ht.
Qed.

Lemma holds_write (T : jsstring) (m : gmap (list ascii) entry) (L : list Z) (t : Z) (v : stored) :
  plainId T -> 0 <= t -> Forall (fun u => 0 <= u < t) L ->
  holds T m L ->
  holds T (setEx m t (keyAt T t) CHECKPOINT_TTL v) (t :: L).
Proof.
  intros HT Ht Hb [H1 H2]. unfold setEx. split.
  - intros k Hp Hs. destruct (decide (keyAt T t = k)) as [<-|N].
    + exists t. split; [left|]; reflexivity.
    + rewrite lookup_insert_ne in Hs by exact N.
      destruct (H1 k Hp Hs) as [u [Hu ->]]. exists u. split; [right|]; trivial.
  - intros u [<-|Hu].
    + exists v. rewrite lookup_insert_eq. reflexivity.
    + rewrite List.Forall_forall in Hb. specialize (Hb u Hu).
      rewrite lookup_insert_ne; [apply H2, Hu|].
      intros E. apply keyAt_inj in E; trivial; lia.
Qed.

Lemma holds_latest (T : jsstring) (m : gmap (list ascii) entry) (L : list Z) (t : Z) (v : stored) :
  holds T m L -> holds T (setEx m t (latestKey T) CHECKPOINT_TTL v) L.
Proof.
  intros [H1 H2]. unfold setEx. split.
  - intros k Hp Hs. destruct (decide (latestKey T = k)) as [<-|N].
    + rewrite latestKey_prefix in Hp. discriminate.
    + rewrite lookup_insert_ne in Hs by exact N. auto.
  - intros u Hu. rewrite lookup_insert_ne by apply latestKey_keyAt. auto.
Qed.

Lemma holds_cleanup (T : jsstring) (m : gmap (list ascii) entry) (L : list Z) :
  plainId T -> holds T m L -> falling L -> Forall (fun u => 0 <= u) L ->
  holds T (cleanupOldCheckpoints m T) (firstn MAX_CHECKPOINTS L).
Proof.
  intros HT Hh Hf Hn. pose proof (falling_NoDup L Hf) as Hd.
  pose proof (holds_keys T m L HT Hh Hn Hd) as HP.
  unfold cleanupOldCheckpoints.
  rewrite (Permutation_length HP), length_map.
  destruct (MAX_CHECKPOINTS <? length L)%nat eqn:E.
  - apply Permutation_map_inv in HP as [l3 [E3 HP3]].
    assert (Hn3 : Forall (fun u => 0 <= u) l3).
    { apply List.Forall_forall. intros x Hx.
      rewrite List.Forall_forall in Hn. apply Hn.
      eapply Permutation_in; [apply Permutation_sym, HP3 | exact Hx]. }
    rewrite E3, sortKeys_keyAt by trivial.
    rewrite (sortDesc_falling l3 L Hf (Permutation_sym HP3)).
    rewrite skipn_map.
    destruct Hh as [H1 H2]. rewrite List.Forall_forall in Hn.
    assert (Hcut : L = firstn MAX_CHECKPOINTS L ++ skipn MAX_CHECKPOINTS L)
      by (symmetry; apply firstn_skipn).
    split.
    + intros k Hp [e He].
      destruct (in_dec (List.list_eq_dec ascii_dec) k
                  (map (keyAt T) (skipn MAX_CHECKPOINTS L))) as [Hin|Hout].
      * rewrite lookup_del_in in He by exact Hin. discriminate.
      * rewrite lookup_del_out in He by exact Hout.
        destruct (H1 k Hp (ex_intro _ e He)) as [u [Hu ->]].
        exists u. split; [|reflexivity].
        rewrite Hcut in Hu. apply in_app_or in Hu as [Hu|Hu]; [exact Hu|].
        exfalso. apply Hout. apply in_map, Hu.
    + intros u Hu.
      assert (HuL : In u L) by (rewrite Hcut; apply in_or_app; left; exact Hu).
      rewrite lookup_del_out; [apply H2, HuL|].
      intros Hin. apply in_map_iff in Hin as [x [Ex Hx]].
      assert (HxL : In x L) by (rewrite Hcut; apply in_or_app; right; exact Hx).
      apply keyAt_inj in Ex; auto. subst x.
      rewrite Hcut in Hd. exact (NoDup_app_disjoint _ _ u Hd Hu Hx).
  - apply Nat.ltb_ge in E. rewrite firstn_all2 by exact E. exact Hh.
Qed.

Lemma Forall_filter_keep (P : Z -> Prop) f (L : list Z) :
  Forall P L -> Forall P (List.filter f L).
Proof.
  intros H. apply List.Forall_forall. intros x Hx. apply filter_In in Hx as [Hx _].
  rewrite List.Forall_forall in H. auto.
Qed.

Lemma firstn_In (n : nat) (L : list Z) x : In x (firstn n L) -> In x L.
Proof.
  intros H. rewrite <- (firstn_skipn n L). apply in_or_app. left. exact H.
Qed.

Lemma Forall_firstn_keep (P : Z -> Prop) n (L : list Z) :
  Forall P L -> Forall P (firstn n L).
Proof.
  intros H. apply List.Forall_forall. intros x Hx. apply firstn_In in Hx.
  rewrite List.Forall_forall in H. auto.
Qed.

Lemma falling_filter f L : falling L -> falling (List.filter f L).
Proof.
  induction 1 as [|u L Hs IH Hu]; cbn [List.filter]; [constructor|].
  destruct (f u); [|exact IH]. constructor; [exact IH|].
  apply Forall_filter_keep, Hu.
Qed.

Lemma falling_firstn n L : falling L -> falling (firstn n L).
Proof.
  intros H. revert n. induction H as [|u L Hs IH Hu]; intros [|n]; cbn [firstn];
    try constructor; [apply IH|]. apply Forall_firstn_keep, Hu.
Qed.

Lemma save_step (T : jsstring) (m : gmap (list ascii) entry) (L : list Z)
    (s : AgentState) (t : Z) :
  plainId T -> 0 <= t -> falling L -> Forall (fun u => 0 <= u < t) L ->
  holds T m L ->
  holds T (saveCheckpoint m T s t) (keptAfter L t) /\
  falling (keptAfter L t) /\
  Forall (fun u => 0 <= u <= t) (keptAfter L t).
Proof.
  intros HT Ht Hf Hb Hh.
  set (L0 := List.filter (fun u => t <? u + TTL_MS) L).
  assert (Hb0 : Forall (fun u => 0 <= u < t) L0) by apply Forall_filter_keep, Hb.
  assert (Hf0 : falling (t :: L0)).
  { constructor; [apply falling_filter, Hf|].
    eapply List.Forall_impl; [|exact Hb0]. cbn. intros; lia. }
  assert (Hn0 : Forall (fun u => 0 <= u <= t) (t :: L0)).
  { constructor; [lia|]. eapply List.Forall_impl; [|exact Hb0]. cbn. intros; lia. }
  unfold saveCheckpoint, keptAfter. fold L0. split; [|split].
  - apply holds_cleanup; trivial.
    + apply holds_latest, holds_write; trivial. apply holds_live, Hh.
    + eapply List.Forall_impl; [|exact Hn0]. cbn. intros; lia.
  - apply falling_firstn, Hf0.
  - apply Forall_firstn_keep, Hn0.
Qed.

(** *** A write of another thread *)

Lemma colon_first (a b x y : jsstring) :
  colonFree a -> colonFree b -> a ++ ":"%char :: x = b ++ ":"%char :: y -> a = b.
Proof.
  revert b. induction a as [|c a IH]; intros b Ha Hb E.
  - destruct b as [|d b]; [reflexivity|]. cbn in E. injection E as <- _.
    apply Forall_cons_iff in Hb as [Hd _]. rewrite eqc_refl in Hd. discriminate.
  - apply Forall_cons_iff in Ha as [Hc Ha]. destruct b as [|d b].
    + cbn in E. injection E as -> _. rewrite eqc_refl in Hc. discriminate.
    + cbn in E. injection E as -> E. apply Forall_cons_iff in Hb as [_ Hb].
      f_equal. exact (IH b Ha Hb E).
Qed.

Lemma prefix_exclusive (T U k : jsstring) :
  plainId T -> plainId U -> U <> T ->
  startsWith k (prefixOf U) = true -> startsWith k (prefixOf T) = false.
Proof.
  intros HT HU Hne HkU. destruct (startsWith k (prefixOf T)) eqn:HkT; [|reflexivity].
  exfalso. apply Hne.
  apply startsWith_inv in HkU as [r ->]. apply startsWith_inv in HkT as [r' E].
  unfold prefixOf in E. rewrite <- !app_assoc in E. apply app_inv_head in E.
  cbn [str list_ascii_of_string app] in E.
  apply (colon_first U T r r'); auto using plainId_colonFree.
Qed.

Lemma holds_insert_other (T : jsstring) (m : gmap (list ascii) entry)
    (L : list Z) (k : list ascii) (e : entry) :
  startsWith k (prefixOf T) = false -> holds T m L -> holds T (<[k := e]> m) L.
Proof.
  intros Hk [H1 H2]. split.
  - intros k' Hp Hs. rewrite lookup_insert_ne in Hs by congruence. auto.
  - intros u Hu. rewrite lookup_insert_ne; [auto|].
    intros ->. rewrite keyAt_prefix in Hk. discriminate.
Qed.

Lemma holds_del_other (T : jsstring) (m : gmap (list ascii) entry)
    (L : list Z) (ks : list (list ascii)) :
  Forall (fun k => startsWith k (prefixOf T) = false) ks ->
  holds T m L -> holds T (del m ks) L.
Proof.
  intros Hks [H1 H2]. rewrite List.Forall_forall in Hks. split.
  - intros k Hp [e He].
    destruct (in_dec (List.list_eq_dec ascii_dec) k ks) as [Hin|Hout].
    + rewrite lookup_del_in in He by exact Hin. discriminate.
    + rewrite lookup_del_out in He by exact Hout. eauto.
  - intros u Hu. rewrite lookup_del_out; [auto|].
    intros Hin. apply Hks in Hin. rewrite keyAt_prefix in Hin. discriminate.
Qed.

Lemma insertKey_In k j ks : In j (insertKey k ks) -> j = k \/ In j ks.
Proof.
  induction ks as [|i ks IH]; cbn [insertKey].
  - intros [<-|[]]. left. reflexivity.
  - destruct (0 <? compareKeys k i).
    + intros [<-|H]; [right; left; reflexivity|].
      destruct (IH H) as [->|H']; [left; reflexivity | right; right; exact H'].
    + intros [<-|H]; [left; reflexivity | right; exact H].
Qed.

Lemma sortKeys_In j ks : In j (sortKeys ks) -> In j ks.
Proof.
  induction ks as [|k ks IH]; [trivial|]. cbn [sortKeys fold_right].
  intros H. apply insertKey_In in H as [->|H]; [left; reflexivity | right; auto].
Qed.

Lemma skipn_In (n : nat) (l : list (list ascii)) x : In x (skipn n l) -> In x l.
Proof.
  intros H. rewrite <- (firstn_skipn n l). apply in_or_app. right. exact H.
Qed.

Lemma holds_cleanup_other (T U : jsstring) (m : gmap (list ascii) entry) (L : list Z) :
  plainId T -> plainId U -> U <> T ->
  holds T m L -> holds T (cleanupOldCheckpoints m U) L.
Proof.
  intros HT HU Hne Hh. unfold cleanupOldCheckpoints.
  destruct (_ <? _)%nat; [|exact Hh].
  apply holds_del_other; [|exact Hh].
  apply List.Forall_forall. intros k Hk.
  apply skipn_In, sortKeys_In, In_keysWithPrefix in Hk as [_ Hk].
  exact (prefix_exclusive T U k HT HU Hne Hk).
Qed.

Lemma keyAt_other_prefix (T U : jsstring) (t : Z) :
  plainId T -> plainId U -> U <> T ->
  startsWith (keyAt U t) (prefixOf T) = false.
Proof.
  intros HT HU Hne. apply (prefix_exclusive T U); trivial. apply keyAt_prefix.
Qed.

Lemma save_other (T U : jsstring) (m : gmap (list ascii) entry) (L : list Z)
    (s : AgentState) (t : Z) :
  plainId T -> plainId U -> U <> T -> holds T m L ->
  holds T (saveCheckpoint m U s t) (List.filter (fun u => t <? u + TTL_MS) L).
Proof.
  intros HT HU Hne Hh. unfold saveCheckpoint, setEx.
  apply holds_cleanup_other; trivial.
  apply holds_insert_other; [apply latestKey_prefix|].
  apply holds_insert_other; [apply keyAt_other_prefix; trivial|].
  apply holds_live, Hh.
Qed.

Lemma sameThread_true T U : sameThread T U = true -> T = U.
Proof. unfold sameThread. destruct (List.list_eq_dec ascii_dec T U); [trivial | discriminate]. Qed.

Lemma sameThread_false T U : sameThread T U = false -> T <> U.
Proof. unfold sameThread. destruct (List.list_eq_dec ascii_dec T U); [discriminate | trivial]. Qed.

(** *** A series of writes *)

Lemma save_series (T : jsstring) (s : AgentState) (writes : list (jsstring * Z)) :
  plainId T ->
  forall (b : Z) (m : gmap (list ascii) entry) (L : list Z),
    Forall (fun w => plainId (fst w)) writes ->
    increasing (b :: map snd writes) -> -1 <= b ->
    Forall (fun u => 0 <= u <= b) L -> falling L -> holds T m L ->
    holds T (saveCheckpoints m s writes) (fold_left (keptStep T) writes L).
Proof.
  intros HT. induction writes as [|[U t] writes IH]; intros b m L Hp Hi Hb HL Hf Hh.
  - exact Hh.
  - apply Forall_cons_iff in Hp as [HU Hp]. cbn [fst] in HU.
    cbn [map snd] in Hi. apply StronglySorted_cons in Hi as [Hbt Hi].
    apply Forall_cons_iff in Hbt as [Hbt _].
    assert (HL' : Forall (fun u => 0 <= u < t) L)
      by (eapply List.Forall_impl; [|exact HL]; cbn; intros; lia).
    cbn [saveCheckpoints fold_left fst snd]. unfold keptStep at 2. cbn [fst snd].
    destruct (sameThread U T) eqn:E.
    + apply sameThread_true in E. subst U.
      destruct (save_step T m L s t HT ltac:(lia) Hf HL' Hh) as (H1 & H2 & H3).
      apply (IH t); trivial. lia.
    + apply sameThread_false in E.
      apply (IH t); trivial; [lia| |apply falling_filter, Hf|].
      * apply Forall_filter_keep.
        eapply List.Forall_impl; [|exact HL]. cbn. intros; lia.
      * apply save_other; trivial.
Qed.

(** *** The times kept by a series of writes *)

Lemma filter_none (f : Z -> bool) L :
  Forall (fun u => f u = false) L -> List.filter f L = [].
Proof.
  induction 1 as [|u L Hu _ IH]; [reflexivity|]. cbn. rewrite Hu. exact IH.
Qed.

Lemma filter_all (f : Z -> bool) L :
  Forall (fun u => f u = true) L -> List.filter f L = L.
Proof.
  induction 1 as [|u L Hu _ IH]; [reflexivity|]. cbn. rewrite Hu, IH. reflexivity.
Qed.

Lemma filter_firstn_falling (c : Z) L : falling L -> forall n,
  List.filter (fun u => c <? u + TTL_MS) (firstn n L) =
  firstn n (List.filter (fun u => c <? u + TTL_MS) L).
Proof.
  induction 1 as [|x L Hs IH Hx]; intros [|n]; cbn [firstn List.filter]; trivial.
  destruct (c <? x + TTL_MS) eqn:E.
  - cbn [firstn]. rewrite IH. reflexivity.
  - apply Z.ltb_ge in E.
    assert (Hnone : Forall (fun u => (c <? u + TTL_MS) = false) L).
    { eapply List.Forall_impl; [|exact Hx]. cbn. intros u Hu.
      apply Z.ltb_ge. lia. }
    rewrite (filter_none _ L Hnone).
    rewrite filter_none; [destruct n; reflexivity|].
    apply List.Forall_forall. intros u Hu. apply firstn_In in Hu.
    rewrite List.Forall_forall in Hnone. auto.
Qed.

Lemma filter_later (c d : Z) L :
  c <= d ->
  List.filter (fun u => d <? u + TTL_MS) (List.filter (fun u => c <? u + TTL_MS) L) =
  List.filter (fun u => d <? u + TTL_MS) L.
Proof.
  intros Hcd. induction L as [|x L IH]; [reflexivity|]. cbn [List.filter].
  destruct (c <? x + TTL_MS) eqn:Ec; cbn [List.filter].
  - rewrite IH. reflexivity.
  - rewrite IH. apply Z.ltb_ge in Ec.
    replace (d <? x + TTL_MS) with false by (symmetry; apply Z.ltb_ge; lia).
    reflexivity.
Qed.

Lemma increasing_rev l : increasing l -> falling (rev l).
Proof.
  induction 1 as [|x l Hs IH Hx]; [constructor|]. cbn [rev].
  apply StronglySorted_app_2.
  - intros a b Ha Hb. apply list_elem_of_In in Ha, Hb. destruct Hb as [<-|[]].
    apply in_rev in Ha. rewrite List.Forall_forall in Hx. apply Hx, Ha.
  - exact IH.
  - repeat constructor.
Qed.

Lemma increasing_snoc l t :
  increasing (l ++ [t]) -> increasing l /\ (l = [] \/ List.last l 0 < t).
Proof.
  intros H. apply StronglySorted_app in H as (H1 & H2 & _). split; [exact H2|].
  destruct l as [|x l] using rev_ind; [left; reflexivity|]. right.
  rewrite last_last. apply H1.
  - apply list_elem_of_In, in_or_app. right. left. reflexivity.
  - apply list_elem_of_In. left. reflexivity.
Qed.

Lemma timesOf_increasing T writes :
  increasing (map snd writes) -> increasing (timesOf T writes).
Proof.
  unfold timesOf. induction writes as [|w writes IH]; cbn [map List.filter]; intros H.
  - constructor.
  - apply StronglySorted_cons in H as [Hw H].
    destruct (sameThread (fst w) T); [|exact (IH H)].
    cbn [map]. constructor; [exact (IH H)|].
    apply List.Forall_forall. intros x Hx. rewrite List.Forall_forall in Hw.
    apply Hw. apply in_map_iff in Hx as [y [<- Hy]]. apply filter_In in Hy as [Hy _].
    apply in_map, Hy.
Qed.

Lemma timesOf_snoc T writes w :
  timesOf T (writes ++ [w]) =
  timesOf T writes ++ (if sameThread (fst w) T then [snd w] else []).
Proof.
  unfold timesOf. rewrite List.filter_app, map_app. cbn [List.filter].
  destruct (sameThread (fst w) T); reflexivity.
Qed.

Lemma lastOf_snoc writes w : lastOf (writes ++ [w]) = snd w.
Proof. unfold lastOf. rewrite map_app. apply last_last. Qed.

(** A series of writes at growing times keeps, for a thread, the latest
    ten of its writes that are less than the time to live before the last
    write of the series. *)
Lemma kept_series T writes :
  increasing (map snd writes) ->
  fold_left (keptStep T) writes [] = latestLive T writes.
Proof.
  induction writes as [|w writes IH] using rev_ind; intros Hi; [reflexivity|].
  rewrite map_app in Hi. cbn [map] in Hi.
  apply increasing_snoc in Hi as [Hi Hlast].
  rewrite fold_left_app. cbn [fold_left]. rewrite (IH Hi).
  pose proof (increasing_rev _ (timesOf_increasing T writes Hi)) as Hf.
  unfold latestLive, keptStep, keptAfter.
  rewrite lastOf_snoc, timesOf_snoc.
  assert (Hrest : forall n,
            List.filter (fun u => snd w <? u + TTL_MS)
              (firstn n (List.filter (fun u => lastOf writes <? u + TTL_MS)
                                     (rev (timesOf T writes)))) =
            firstn n (List.filter (fun u => snd w <? u + TTL_MS)
                                  (rev (timesOf T writes)))).
  { intros n. destruct Hlast as [Hnil|Hlast].
    - apply map_eq_nil in Hnil. subst writes. cbn. destruct n; reflexivity.
    - rewrite filter_firstn_falling by (apply falling_filter, Hf).
      rewrite filter_later; [reflexivity|]. unfold lastOf. lia. }
  destruct (sameThread (fst w) T).
  - rewrite rev_unit. cbn [List.filter].
    replace (snd w <? snd w + TTL_MS) with true
      by (symmetry; apply Z.ltb_lt; unfold TTL_MS, CHECKPOINT_TTL; lia).
    change MAX_CHECKPOINTS with 10%nat. cbn [firstn]. f_equal.
    rewrite (Hrest 10%nat), firstn_firstn. reflexivity.
  - rewrite app_nil_r. apply Hrest.
Qed.

Lemma Forall_filter_pass (f : Z -> bool) L :
  Forall (fun u => f u = true) (List.filter f L).
Proof. apply List.Forall_forall. intros x Hx. apply filter_In in Hx. tauto. Qed.

Lemma firstn_filter_all (f : Z -> bool) n : forall R,
  Forall (fun u => f u = true) (firstn n R) ->
  firstn n (List.filter f R) = firstn n R.
Proof.
  induction n as [|n IH]; intros [|x R] H; cbn [firstn List.filter]; trivial.
  cbn [firstn] in H. apply Forall_cons_iff in H as [Hx H]. rewrite Hx.
  cbn [firstn]. rewrite IH by exact H. reflexivity.
Qed.

Lemma latestLive_falling T writes :
  increasing (map snd writes) -> falling (latestLive T writes).
Proof.
  intros H. apply falling_firstn, falling_filter, increasing_rev.
  apply timesOf_increasing, H.
Qed.

Lemma latestLive_nonneg T writes :
  Forall (fun w => 0 <= snd w) writes -> Forall (fun t => 0 <= t) (latestLive T writes).
Proof.
  intros H. apply Forall_firstn_keep, Forall_filter_keep.
  apply List.Forall_forall. intros x Hx. apply in_rev in Hx.
  unfold timesOf in Hx. apply in_map_iff in Hx as [w [<- Hw]].
  apply filter_In in Hw as [Hw _]. rewrite List.Forall_forall in H. auto.
Qed.

(** C8, as the code has it.  Thread identifiers have no [:] and none of
    the special characters of Redis patterns, the checkpoints (of any
    threads) are written at growing times, and the store has no checkpoint
    of the thread [T] at first.  Then, after the last write, the
    checkpoints stored for [T] are those of its (at most ten) latest
    writes that are less than the time to live of one hour before the last
    write: there are never more than [MAX_CHECKPOINTS], and when the ten
    latest writes of [T] all lie within that hour there are exactly
    [MAX_CHECKPOINTS], those of its ten latest writes. *)
Theorem checkpoints_kept
    (T : jsstring) (m0 : gmap (list ascii) entry) (s : AgentState)
    (writes : list (jsstring * Z)) :
  plainId T ->
  Forall (fun w => plainId (fst w)) writes ->
  (forall k, startsWith k (prefixOf T) = true -> m0 !! k = None) ->
  increasing (map snd writes) ->
  Forall (fun w => 0 <= snd w) writes ->
  Permutation (checkpointsOf (saveCheckpoints m0 s writes) T (lastOf writes))
              (map (keyAt T) (latestLive T writes)) /\
  (length (checkpointsOf (saveCheckpoints m0 s writes) T (lastOf writes))
   <= MAX_CHECKPOINTS)%nat /\
  ((MAX_CHECKPOINTS <= length (timesOf T writes))%nat ->
   Forall (fun t => lastOf writes < t + TTL_MS)
          (firstn MAX_CHECKPOINTS (rev (timesOf T writes))) ->
   latestLive T writes = firstn MAX_CHECKPOINTS (rev (timesOf T writes)) /\
   length (checkpointsOf (saveCheckpoints m0 s writes) T (lastOf writes))
   = MAX_CHECKPOINTS).
Proof.
  intros HT Hp Hfresh Hi Hn.
  assert (H0 : holds T m0 []).
  { split; [|intros u []]. intros k Hk [e He]. rewrite (Hfresh k Hk) in He.
    discriminate. }
  assert (Hi' : increasing (-1 :: map snd writes)).
  { constructor; [exact Hi|]. apply List.Forall_forall. intros x Hx.
    apply in_map_iff in Hx as [w [<- Hw]]. rewrite List.Forall_forall in Hn.
    specialize (Hn w Hw). lia. }
  pose proof (save_series T s writes HT (-1) m0 [] Hp Hi' ltac:(lia)
                ltac:(constructor) ltac:(constructor) H0) as Hh.
  rewrite (kept_series T writes Hi) in Hh.
  apply (holds_live _ _ _ (lastOf writes)) in Hh.
  rewrite filter_all in Hh.
  2:{ unfold latestLive.
      apply (Forall_firstn_keep (fun u => (lastOf writes <? u + TTL_MS) = true)).
      apply Forall_filter_pass. }
  assert (HP : Permutation
                 (checkpointsOf (saveCheckpoints m0 s writes) T (lastOf writes))
                 (map (keyAt T) (latestLive T writes))).
  { apply holds_keys; trivial.
    - apply latestLive_nonneg, Hn.
    - apply falling_NoDup, latestLive_falling, Hi. }
  assert (HL : length (checkpointsOf (saveCheckpoints m0 s writes) T (lastOf writes))
               = length (latestLive T writes)).
  { rewrite (Permutation_length HP). apply length_map. }
  split; [exact HP|]. split.
  - rewrite HL. unfold latestLive. rewrite length_take. lia.
  - intros Hlen Hall.
    assert (E : latestLive T writes = firstn MAX_CHECKPOINTS (rev (timesOf T writes))).
    { unfold latestLive. apply firstn_filter_all.
      eapply List.Forall_impl; [|exact Hall]. cbn. intros u Hu. apply Z.ltb_lt, Hu. }
    split; [exact E|]. rewrite HL, E, length_take, length_rev. lia.
Qed.

Lemma plain_threads : plainId threadOne /\ plainId threadTwo.
Proof.
  unfold plainId, threadOne, threadTwo.
  split; repeat (constructor; [intros H; cbn in H; intuition discriminate|]);
    constructor.
Qed.

Lemma increasing_list (l : list Z) :
  forallb (fun p => fst p <? snd p) (combine l (tl l)) = true -> increasing l.
Proof.
  induction l as [|x l IH]; [constructor|]. intros H.
  assert (Hl : increasing l).
  { apply IH. destruct l as [|y l]; [reflexivity|]. cbn in H.
    apply andb_true_iff in H as [_ H]. exact H. }
  constructor; [exact Hl|].
  destruct l as [|y l]; [constructor|]. cbn in H. apply andb_true_iff in H as [Hxy _].
  apply Z.ltb_lt in Hxy. apply StronglySorted_cons in Hl as [Hy _].
  constructor; [exact Hxy|]. eapply List.Forall_impl; [|exact Hy]. cbn. intros; lia.
Qed.

(** Two threads write in turn, eleven checkpoints each, one a second:
    the ten latest checkpoints of the first thread remain. *)
Lemma checkpoints_kept_witness :
  Permutation (checkpointsOf (saveCheckpoints ∅ emptyState inTurn) threadOne
                             (lastOf inTurn))
              (map (keyAt threadOne) (latestLive threadOne inTurn)) /\
  latestLive threadOne inTurn =
    [11000; 10000; 9000; 8000; 7000; 6000; 5000; 4000; 3000; 2000] /\
  length (checkpointsOf (saveCheckpoints ∅ emptyState inTurn) threadOne
                        (lastOf inTurn)) = MAX_CHECKPOINTS.
Proof.
  destruct plain_threads as [P1 P2].
  assert (Hp : Forall (fun w => plainId (fst w)) inTurn).
  { unfold inTurn. cbn [flat_map app]. repeat (constructor; [assumption|]). constructor. }
  assert (Hi : increasing (map snd inTurn)) by (apply increasing_list; reflexivity).
  assert (Hn : Forall (fun w => 0 <= snd w) inTurn).
  { unfold inTurn. cbn [flat_map app]. repeat (constructor; [cbn; lia|]). constructor. }
  destruct (checkpoints_kept threadOne ∅ emptyState inTurn
              P1 Hp (fun k _ => lookup_empty k) Hi Hn) as (HP & _ & H10).
  split; [exact HP|]. split; [reflexivity|].
  apply H10.
  - apply Nat.leb_le. reflexivity.
  - apply List.Forall_forall. intros t Ht.
    assert (G : forallb (fun t => lastOf inTurn <? t + TTL_MS)
                        (firstn MAX_CHECKPOINTS (rev (timesOf threadOne inTurn))) = true)
      by reflexivity.
    rewrite forallb_forall in G. apply Z.ltb_lt, G, Ht.
Defined.

(** Eleven writes of one thread, one every ten minutes: the first five
    have expired by the time of the last one, and six checkpoints
    remain. *)
Lemma checkpoints_expire_counterexample :
  ~ (forall (T : jsstring) (m0 : gmap (list ascii) entry) (s : AgentState)
            (writes : list (jsstring * Z)),
       plainId T ->
       Forall (fun w => plainId (fst w)) writes ->
       (forall k, startsWith k (prefixOf T) = true -> m0 !! k = None) ->
       increasing (map snd writes) ->
       Forall (fun w => 0 <= snd w) writes ->
       (MAX_CHECKPOINTS < length (timesOf T writes))%nat ->
       length (checkpointsOf (saveCheckpoints m0 s writes) T (lastOf writes))
       = MAX_CHECKPOINTS).
Proof.
  intros H. destruct plain_threads as [P1 _].
  assert (Hp : Forall (fun w => plainId (fst w)) everyTenMinutes).
  { unfold everyTenMinutes. cbn [map]. repeat (constructor; [assumption|]). constructor. }
  assert (Hi : increasing (map snd everyTenMinutes))
    by (apply increasing_list; reflexivity).
  assert (Hn : Forall (fun w => 0 <= snd w) everyTenMinutes).
  { unfold everyTenMinutes. cbn [map]. repeat (constructor; [cbn; lia|]). constructor. }
  specialize (H threadOne ∅ emptyState everyTenMinutes
                P1 Hp (fun k _ => lookup_empty k) Hi Hn
                ltac:(apply Nat.ltb_lt; reflexivity)).
  assert (E : length (checkpointsOf (saveCheckpoints ∅ emptyState everyTenMinutes)
                                    threadOne (lastOf everyTenMinutes)) = 6%nat)
    by (vm_compute; reflexivity).
  rewrite E in H. discriminate H.
Qed.

Lemma last_skip (l : list Z) (x a : Z) : List.last (x :: l) a = List.last l x.
Proof.
  revert x a. induction l as [|y l IH]; intros x a; [reflexivity|].
  change (List.last (x :: y :: l) a) with (List.last (y :: l) a).
  rewrite IH. symmetry. apply IH.
Qed.

Lemma saveAll_holds (T : jsstring) (writes : list (jsstring * AgentState * Z)) :
  plainId T ->
  forall (b : Z) (m : gmap (list ascii) entry) (L : list Z),
    Forall (fun w => plainId (fst (fst w))) writes ->
    increasing (b :: map snd writes) -> -1 <= b ->
    Forall (fun u => 0 <= u <= b) L -> falling L -> holds T m L ->
    holds T (saveAll m writes) (fold_left (keptStep T) (stamps writes) L).
Proof.
  intros HT. induction writes as [|[[U s] t] writes IH]; intros b m L Hp Hi Hb HL Hf Hh.
  - exact Hh.
  - apply Forall_cons_iff in Hp as [HU Hp]. cbn [fst] in HU.
    cbn [map snd] in Hi. apply StronglySorted_cons in Hi as [Hbt Hi].
    apply Forall_cons_iff in Hbt as [Hbt _].
    assert (HL' : Forall (fun u => 0 <= u < t) L)
      by (eapply List.Forall_impl; [|exact HL]; cbn; intros; lia).
    cbn [saveAll stamps map fold_left fst snd]. unfold keptStep at 2. cbn [fst snd].
    destruct (sameThread U T) eqn:E.
    + apply sameThread_true in E. subst U.
      destruct (save_step T m L s t HT ltac:(lia) Hf HL' Hh) as (H1 & H2 & H3).
      apply (IH t); trivial. lia.
    + apply sameThread_false in E.
      apply (IH t); trivial; [lia| |apply falling_filter, Hf|].
      * apply Forall_filter_keep.
        eapply List.Forall_impl; [|exact HL]. cbn. intros; lia.
      * apply save_other; trivial.
Qed.


(** *** What the checkpoints hold *)

Lemma recorded_subset (T : jsstring) (writes : list (jsstring * AgentState * Z)) (m m' : gmap (list ascii) entry) :
  (forall k e, m' !! k = Some e -> m !! k = Some e) ->
  recorded T writes m -> recorded T writes m'.
Proof. intros Hs Hr k e Hk He. apply (Hr k e Hk), Hs, He. Qed.

Lemma recorded_more (T : jsstring) (writes more : list (jsstring * AgentState * Z)) (m : gmap (list ascii) entry) :
  recorded T writes m -> recorded T (writes ++ more) m.
Proof.
  intros Hr k e Hk He. destruct (Hr k e Hk He) as (s & t & Hin & H).
  exists s, t. split; [apply in_or_app; left; exact Hin | exact H].
Qed.

Lemma recorded_insert_other (T : jsstring) (writes : list (jsstring * AgentState * Z)) (m : gmap (list ascii) entry)
    (k : list ascii) (e : entry) :
  startsWith k (prefixOf T) = false ->
  recorded T writes m -> recorded T writes (<[k := e]> m).
Proof.
  intros Hk Hr k' e' Hk' He'. rewrite lookup_insert_ne in He' by congruence.
  exact (Hr k' e' Hk' He').
Qed.

Lemma recorded_insert (T : jsstring) (writes : list (jsstring * AgentState * Z)) (m : gmap (list ascii) entry)
    (s : AgentState) (t : Z) :
  In (T, s, t) writes -> recorded T writes m ->
  recorded T writes (setEx m t (keyAt T t) CHECKPOINT_TTL (Json (checkpointOf s t))).
Proof.
  intros Hin Hr k e Hk He. unfold setEx in He.
  destruct (decide (keyAt T t = k)) as [<-|N].
  - rewrite lookup_insert_eq in He. injection He as <-.
    exists s, t. repeat split; trivial.
  - rewrite lookup_insert_ne in He by exact N. exact (Hr k e Hk He).
Qed.

Lemma del_subset (m : gmap (list ascii) entry) (ks : list (list ascii)) (k : list ascii) (e : entry) :
  del m ks !! k = Some e -> m !! k = Some e.
Proof.
  intros H. destruct (in_dec (List.list_eq_dec ascii_dec) k ks) as [Hin|Hout].
  - rewrite lookup_del_in in H by exact Hin. discriminate.
  - rewrite lookup_del_out in H by exact Hout. exact H.
Qed.

Lemma cleanup_subset (m : gmap (list ascii) entry) (U : jsstring) (k : list ascii) (e : entry) :
  cleanupOldCheckpoints m U !! k = Some e -> m !! k = Some e.
Proof.
  unfold cleanupOldCheckpoints. destruct (_ <? _)%nat; [apply del_subset | trivial].
Qed.

Lemma live_subset (now : Z) (m : gmap (list ascii) entry) (k : list ascii) (e : entry) :
  live now m !! k = Some e -> m !! k = Some e.
Proof. intros H. apply lookup_live in H. tauto. Qed.

Lemma recorded_save (T U : jsstring) (writes : list (jsstring * AgentState * Z)) (m : gmap (list ascii) entry)
    (s : AgentState) (t : Z) :
  plainId T -> plainId U -> recorded T writes m ->
  recorded T (writes ++ [(U, s, t)]) (saveCheckpoint m U s t).
Proof.
  intros HT HU Hr. unfold saveCheckpoint.
  eapply recorded_subset; [apply cleanup_subset|].
  unfold setEx at 1. apply recorded_insert_other; [apply latestKey_prefix|].
  destruct (List.list_eq_dec ascii_dec U T) as [->|N].
  - apply recorded_insert; [apply in_or_app; right; left; reflexivity|].
    apply recorded_more. eapply recorded_subset; [apply live_subset | exact Hr].
  - unfold setEx. apply recorded_insert_other; [apply keyAt_other_prefix; trivial|].
    apply recorded_more. eapply recorded_subset; [apply live_subset | exact Hr].
Qed.

Lemma saveAll_recorded (T : jsstring) (writes : list (jsstring * AgentState * Z)) :
  plainId T -> forall (before : list (jsstring * AgentState * Z)) (m : gmap (list ascii) entry),
  Forall (fun w => plainId (fst (fst w))) writes ->
  recorded T before m -> recorded T (before ++ writes) (saveAll m writes).
Proof.
  intros HT. induction writes as [|[[U s] t] writes IH]; intros before m Hp Hr.
  - rewrite app_nil_r. exact Hr.
  - apply Forall_cons_iff in Hp as [HU Hp]. cbn [fst] in HU.
    cbn [saveAll fold_left fst snd].
    replace (before ++ (U, s, t) :: writes) with ((before ++ [(U, s, t)]) ++ writes)
      by (rewrite <- app_assoc; reflexivity).
    apply IH; [exact Hp|]. apply recorded_save; trivial.
Qed.

(** *** The reference to the latest checkpoint *)

Lemma lastWrite_snoc (T : jsstring) (writes : list (jsstring * AgentState * Z)) (U : jsstring)
    (s : AgentState) (t : Z) :
  lastWrite T (writes ++ [(U, s, t)]) =
  if sameThread U T then Some (s, t) else lastWrite T writes.
Proof.
  unfold lastWrite, writesOf. rewrite List.filter_app. cbn [List.filter fst].
  destruct (sameThread U T).
  - rewrite !map_app. cbn [map fst snd]. apply last_last.
  - rewrite app_nil_r. reflexivity.
Qed.

Lemma latestKey_inj (T U : jsstring) : latestKey T = latestKey U -> T = U.
Proof. unfold latestKey. apply app_inv_head. Qed.

Lemma cleanup_latest (m : gmap (list ascii) entry) (U T : jsstring) :
  cleanupOldCheckpoints m U !! latestKey T = m !! latestKey T.
Proof.
  unfold cleanupOldCheckpoints. destruct (_ <? _)%nat; [|reflexivity].
  apply lookup_del_out. intros Hin.
  apply skipn_In, sortKeys_In, In_keysWithPrefix in Hin as [_ Hin].
  rewrite latestKey_prefix in Hin. discriminate.
Qed.

Lemma lookup_live_cases (now : Z) (m : gmap (list ascii) entry) (k : list ascii) :
  live now m !! k =
  match m !! k with
  | Some e => if now <? expiresAt e then Some e else None
  | None => None
  end.
Proof.
  destruct (m !! k) as [e|] eqn:E.
  - destruct (now <? expiresAt e) eqn:Hn.
    + apply lookup_live. split; [exact E | apply Z.ltb_lt, Hn].
    + destruct (live now m !! k) as [e'|] eqn:E'; [|reflexivity].
      apply lookup_live in E' as [E1 E2]. rewrite E in E1. injection E1 as <-.
      apply Z.ltb_ge in Hn. lia.
  - destruct (live now m !! k) as [e'|] eqn:E'; [|reflexivity].
    apply lookup_live in E' as [E1 _]. congruence.
Qed.

Lemma latest_save (T U : jsstring) (m : gmap (list ascii) entry)
    (writes : list (jsstring * AgentState * Z)) (s : AgentState) (t b : Z) :
  b < t ->
  m !! latestKey T = latestEntry T writes b ->
  saveCheckpoint m U s t !! latestKey T = latestEntry T (writes ++ [(U, s, t)]) t.
Proof.
  intros Hb Hm. unfold saveCheckpoint. rewrite cleanup_latest. unfold setEx.
  unfold latestEntry. rewrite lastWrite_snoc.
  destruct (sameThread U T) eqn:E.
  - apply sameThread_true in E. subst U. rewrite lookup_insert_eq.
    replace (t <? t + TTL_MS) with true
      by (symmetry; apply Z.ltb_lt; unfold TTL_MS, CHECKPOINT_TTL; lia).
    reflexivity.
  - apply sameThread_false in E.
    rewrite lookup_insert_ne by (intros H; apply latestKey_inj in H; congruence).
    rewrite lookup_insert_ne by (intros H; symmetry in H; revert H; apply latestKey_keyAt).
    rewrite lookup_live_cases, Hm. unfold latestEntry.
    destruct (lastWrite T writes) as [[s0 t0]|]; [|reflexivity].
    destruct (b <? t0 + TTL_MS) eqn:Hb0; cbn [expiresAt].
    + reflexivity.
    + apply Z.ltb_ge in Hb0.
      replace (t <? t0 + TTL_MS) with false by (symmetry; apply Z.ltb_ge; lia).
      reflexivity.
Qed.

Lemma saveAll_latest (T : jsstring) (writes : list (jsstring * AgentState * Z)) :
  forall (before : list (jsstring * AgentState * Z)) (m : gmap (list ascii) entry) (b : Z),
  increasing (b :: map snd writes) ->
  m !! latestKey T = latestEntry T before b ->
  saveAll m writes !! latestKey T =
  latestEntry T (before ++ writes) (List.last (map snd writes) b).
Proof.
  induction writes as [|[[U s] t] writes IH]; intros before m b Hi Hm.
  - rewrite app_nil_r. exact Hm.
  - cbn [map snd] in Hi. apply StronglySorted_cons in Hi as [Hbt Hi].
    apply Forall_cons_iff in Hbt as [Hbt _].
    cbn [saveAll fold_left fst snd].
    replace (before ++ (U, s, t) :: writes) with ((before ++ [(U, s, t)]) ++ writes)
      by (rewrite <- app_assoc; reflexivity).
    replace (List.last (map snd ((U, s, t) :: writes)) b)
      with (List.last (map snd writes) t).
    + apply IH; [exact Hi|]. apply (latest_save T U m before s t b Hbt Hm).
    + cbn [map snd]. symmetry. apply last_skip.
Qed.


(** *** The last write of a thread *)

Lemma timesOf_stamps (T : jsstring) (writes : list (jsstring * AgentState * Z)) :
  timesOf T (stamps writes) = map snd (writesOf T writes).
Proof.
  unfold timesOf, writesOf, stamps.
  induction writes as [|[[U s] t] writes IH]; [reflexivity|].
  cbn [map List.filter fst snd]. destruct (sameThread U T); cbn [map snd]; rewrite IH; reflexivity.
Qed.

Lemma map_snd_stamps (writes : list (jsstring * AgentState * Z)) :
  map snd (stamps writes) = map snd writes.
Proof. unfold stamps. rewrite map_map. reflexivity. Qed.

Lemma writesOf_In (T : jsstring) (writes : list (jsstring * AgentState * Z))
    (s : AgentState) (t : Z) :
  In (s, t) (writesOf T writes) <-> In (T, s, t) writes.
Proof.
  unfold writesOf. rewrite in_map_iff. split.
  - intros [[[U s'] t'] [E H]]. cbn in E. injection E as -> ->.
    apply filter_In in H as [H HU]. cbn in HU. apply sameThread_true in HU.
    subst U. exact H.
  - intros H. exists (T, s, t). split; [reflexivity|]. apply filter_In.
    split; [exact H|]. cbn. unfold sameThread.
    destruct (List.list_eq_dec ascii_dec T T); [reflexivity | congruence].
Qed.

Lemma last_Some {A} (l : list A) (x : A) :
  List.last (map Some l) None = Some x -> exists l', l = l' ++ [x].
Proof.
  destruct l as [|a l] using rev_ind; [discriminate|].
  rewrite map_app. cbn [map]. rewrite last_last. intros E. injection E as ->.
  eauto.
Qed.

Lemma lastWrite_newest (T : jsstring) (writes : list (jsstring * AgentState * Z))
    (s : AgentState) (t : Z) :
  lastWrite T writes = Some (s, t) ->
  In (T, s, t) writes /\
  exists older, rev (writesOf T writes) = (s, t) :: older.
Proof.
  unfold lastWrite. intros H. apply last_Some in H as [l' E]. split.
  - apply writesOf_In. rewrite E. apply in_or_app. right. left. reflexivity.
  - exists (rev l'). rewrite E, rev_unit. reflexivity.
Qed.

Lemma times_unique (l : list (jsstring * AgentState * Z)) x y :
  increasing (map snd l) -> In x l -> In y l -> snd x = snd y -> x = y.
Proof.
  induction l as [|w l IH]; intros Hi Hx Hy E; [destruct Hx|].
  cbn [map] in Hi. apply StronglySorted_cons in Hi as [Hw Hi].
  rewrite List.Forall_forall in Hw.
  assert (Hlt : forall z, In z l -> snd w < snd z)
    by (intros z Hz; apply Hw, in_map, Hz).
  destruct Hx as [<-|Hx], Hy as [<-|Hy]; trivial.
  - specialize (Hlt y Hy). lia.
  - specialize (Hlt x Hx). lia.
  - auto.
Qed.

Lemma last_bounds (l : list Z) (b now : Z) :
  b <= now -> Forall (fun t => t <= now) l -> increasing (b :: l) ->
  b <= List.last l b <= now /\ Forall (fun t => t <= List.last l b) l.
Proof.
  revert b. induction l as [|x l IH]; intros b Hb Hl Hi.
  - cbn. split; [lia | constructor].
  - apply Forall_cons_iff in Hl as [Hx Hl].
    apply StronglySorted_cons in Hi as [Hbx Hi].
    apply Forall_cons_iff in Hbx as [Hbx _].
    destruct (IH x Hx Hl Hi) as [[H1 H2] H3].
    rewrite last_skip. split; [lia|]. constructor; [lia | exact H3].
Qed.

Lemma readable_store (T : jsstring) (m0 : gmap (list ascii) entry)
    (writes : list (jsstring * AgentState * Z)) (now : Z) :
  readable T m0 writes now ->
  let b := List.last (map snd writes) (-1) in
  let m := saveAll m0 writes in
  -1 <= b <= now /\
  m !! latestKey T = latestEntry T writes b /\
  recorded T writes m /\
  holds T m (latestLive T (stamps writes)) /\
  (writes <> [] -> lastOf (stamps writes) = b).
Proof.
  intros (HT & Hp & Hfresh & Hlat & Hi & Hn & Hnow0). cbn zeta.
  assert (Hi' : increasing (-1 :: map snd writes)).
  { constructor; [exact Hi|]. apply List.Forall_forall. intros x Hx.
    apply in_map_iff in Hx as [w [<- Hw]]. rewrite List.Forall_forall in Hn.
    specialize (Hn w Hw). lia. }
  assert (Hnow : Forall (fun t => t <= now) (map snd writes)).
  { apply List.Forall_forall. intros x Hx.
    apply in_map_iff in Hx as [w [<- Hw]]. rewrite List.Forall_forall in Hn.
    specialize (Hn w Hw). lia. }
  assert (H0 : holds T m0 []).
  { split; [|intros u []]. intros k Hk [e He].
    discriminate (eq_trans (eq_sym He) (Hfresh k Hk)). }
  assert (R0 : recorded T [] m0).
  { intros k e Hk He. discriminate (eq_trans (eq_sym He) (Hfresh k Hk)). }
  split; [|split; [|split; [|split]]].
  - destruct (last_bounds (map snd writes) (-1) now) as [Hb _]; trivial; lia.
  - apply (saveAll_latest T writes [] m0 (-1) Hi'). rewrite Hlat. reflexivity.
  - apply (saveAll_recorded T writes HT [] m0 Hp R0).
  - rewrite <- (kept_series T (stamps writes)) by (rewrite map_snd_stamps; exact Hi).
    exact (saveAll_holds T writes HT (-1) m0 [] Hp Hi' ltac:(lia)
             ltac:(constructor) ltac:(constructor) H0).
  - intros Hw. unfold lastOf. rewrite map_snd_stamps.
    destruct writes as [|w writes]; [congruence|]. cbn [map].
    rewrite !last_skip. reflexivity.
Qed.


Lemma newest_kept (T : jsstring) (writes : list (jsstring * AgentState * Z))
    (s : AgentState) (t : Z) :
  lastWrite T writes = Some (s, t) ->
  lastOf (stamps writes) < t + TTL_MS ->
  exists rest, latestLive T (stamps writes) = t :: rest.
Proof.
  intros EL Hb. destruct (lastWrite_newest T writes s t EL) as [_ [older Ho]].
  unfold latestLive. rewrite timesOf_stamps, <- map_rev, Ho.
  cbn [map snd List.filter].
  replace (lastOf (stamps writes) <? t + TTL_MS) with true
    by (symmetry; apply Z.ltb_lt, Hb).
  change MAX_CHECKPOINTS with 10%nat. cbn [firstn]. eauto.
Qed.

Lemma readable_nonneg (T : jsstring) (m0 : gmap (list ascii) entry)
    (writes : list (jsstring * AgentState * Z)) (now : Z) (s : AgentState) (t : Z) :
  readable T m0 writes now -> In (T, s, t) writes -> 0 <= t <= now.
Proof.
  intros (_ & _ & _ & _ & _ & Hn & _) Hin. rewrite List.Forall_forall in Hn.
  exact (Hn _ Hin).
Qed.

(** The checkpoint that a store holds for a write of the series. *)
Lemma recorded_at (T : jsstring) (m0 : gmap (list ascii) entry)
    (writes : list (jsstring * AgentState * Z)) (now : Z) (s : AgentState) (t : Z)
    (e : entry) :
  readable T m0 writes now -> In (T, s, t) writes ->
  saveAll m0 writes !! keyAt T t = Some e ->
  e = {| value := Json (checkpointOf s t); expiresAt := t + TTL_MS |}.
Proof.
  intros Hr Hin He.
  destruct (readable_store T m0 writes now Hr) as (_ & _ & HR & _ & _).
  cbn zeta in HR.
  destruct (HR _ _ (keyAt_prefix T t) He) as (s' & t' & Hin' & Ek & ->).
  pose proof (readable_nonneg _ _ _ _ _ _ Hr Hin) as Ht.
  pose proof (readable_nonneg _ _ _ _ _ _ Hr Hin') as Ht'.
  destruct Hr as (HT & _ & _ & _ & Hi & _).
  apply keyAt_inj in Ek; [|exact HT|lia|lia]. subst t'.
  pose proof (times_unique writes (T, s, t) (T, s', t) Hi Hin Hin' eq_refl) as E.
  injection E as <-. reflexivity.
Qed.

Lemma getLastCheckpoint_series (T : jsstring) (m0 : gmap (list ascii) entry)
    (writes : list (jsstring * AgentState * Z)) (now : Z) :
  readable T m0 writes now ->
  getLastCheckpoint (saveAll m0 writes) T now =
  match lastWrite T writes with
  | Some (s, t) => if now <? t + TTL_MS then Some (checkpointOf s t) else None
  | None => None
  end.
Proof.
  intros Hr.
  destruct (readable_store T m0 writes now Hr) as (Hb & HL & _ & HH & Hlast).
  cbn zeta in *. unfold getLastCheckpoint. rewrite lookup_live_cases, HL.
  unfold latestEntry.
  destruct (lastWrite T writes) as [[s t]|] eqn:EL; [|reflexivity].
  destruct (lastWrite_newest _ _ _ _ EL) as [Hin _].
  assert (Hw : writes <> []) by (intros ->; destruct Hin).
  specialize (Hlast Hw).
  destruct (List.last (map snd writes) (-1) <? t + TTL_MS) eqn:E1.
  - cbn [expiresAt]. destruct (now <? t + TTL_MS) eqn:E2; [|reflexivity].
    rewrite lookup_live_cases.
    apply Z.ltb_lt in E1. rewrite <- Hlast in E1.
    destruct (newest_kept T writes s t EL E1) as [rest Ek].
    destruct HH as [_ H2]. destruct (H2 t) as [v Hv]; [rewrite Ek; left; reflexivity|].
    rewrite Hv.
    pose proof (recorded_at T m0 writes now s t _ Hr Hin Hv) as E.
    injection E as ->. cbn [expiresAt]. rewrite E2. reflexivity.
  - apply Z.ltb_ge in E1.
    replace (now <? t + TTL_MS) with false by (symmetry; apply Z.ltb_ge; lia).
    reflexivity.
Qed.


(** *** The history of a thread *)

Lemma timestamp_insertCheckpoint (c : ConversationCheckpoint)
    (l : list ConversationCheckpoint) :
  map timestamp (insertCheckpoint c l) = insertDesc (timestamp c) (map timestamp l).
Proof.
  induction l as [|d l IH]; [reflexivity|]. cbn [insertCheckpoint map insertDesc].
  destruct (0 <? timestamp d - timestamp c); [|reflexivity].
  cbn [map]. rewrite IH. reflexivity.
Qed.

Lemma timestamp_sortCheckpoints (cs : list ConversationCheckpoint) :
  map timestamp (sortCheckpoints cs) = sortDesc (map timestamp cs).
Proof.
  induction cs as [|c cs IH]; [reflexivity|].
  cbn [sortCheckpoints sortDesc fold_right map].
  fold (sortCheckpoints cs). fold (sortDesc (map timestamp cs)).
  rewrite timestamp_insertCheckpoint, IH. reflexivity.
Qed.

Lemma insertCheckpoint_In (c d : ConversationCheckpoint)
    (l : list ConversationCheckpoint) :
  In d (insertCheckpoint c l) -> d = c \/ In d l.
Proof.
  induction l as [|e l IH]; cbn [insertCheckpoint].
  - intros [<-|[]]. left. reflexivity.
  - destruct (0 <? timestamp e - timestamp c).
    + intros [<-|H]; [right; left; reflexivity|].
      destruct (IH H) as [->|H']; [left; reflexivity | right; right; exact H'].
    + intros [<-|H]; [left; reflexivity | right; exact H].
Qed.

Lemma sortCheckpoints_In (d : ConversationCheckpoint)
    (cs : list ConversationCheckpoint) :
  In d (sortCheckpoints cs) -> In d cs.
Proof.
  induction cs as [|c cs IH]; [trivial|]. cbn [sortCheckpoints fold_right].
  intros H. apply insertCheckpoint_In in H as [->|H]; [left; reflexivity | right; auto].
Qed.

(** Reading keys that all hold checkpoints of the series. *)
Lemma readCheckpoints_recorded (T : jsstring)
    (writes : list (jsstring * AgentState * Z)) (m : gmap (list ascii) entry)
    (keys : list (list ascii)) :
  recorded T writes m ->
  Forall (fun k => startsWith k (prefixOf T) = true /\ is_Some (m !! k)) keys ->
  exists cs, readCheckpoints m keys = Some cs /\
             map (keyAt T) (map timestamp cs) = keys /\
             Forall (fun c => exists s, In (T, s, timestamp c) writes /\
                                        c = checkpointOf s (timestamp c)) cs.
Proof.
  intros HR. induction 1 as [|k keys [Hk [e He]] _ (cs & E1 & E2 & E3)].
  - exists []. repeat split. constructor.
  - destruct (HR k e Hk He) as (s & t & Hin & -> & ->).
    exists (checkpointOf s t :: cs). cbn [readCheckpoints].
    unfold jsstring in *. rewrite He, E1.
    cbn [map timestamp checkpointOf]. rewrite E2. repeat split.
    constructor; [|exact E3]. exists s. split; [exact Hin | reflexivity].
Qed.

Lemma map_keyAt_inj (T : jsstring) (l1 l2 : list Z) :
  plainId T -> Forall (fun u => 0 <= u) l1 -> Forall (fun u => 0 <= u) l2 ->
  map (keyAt T) l1 = map (keyAt T) l2 -> l1 = l2.
Proof.
  intros HT H1. revert l2. induction H1 as [|x l1 Hx _ IH]; intros l2 H2 E.
  - destruct l2; [reflexivity | discriminate].
  - destruct l2 as [|y l2]; [discriminate|]. cbn [map] in E.
    assert (Exy : keyAt T x = keyAt T y) by congruence.
    assert (E' : map (keyAt T) l1 = map (keyAt T) l2) by congruence.
    apply Forall_cons_iff in H2 as [Hy H2].
    apply keyAt_inj in Exy; trivial. subst y. f_equal. apply IH; assumption.
Qed.

(** Two lists of checkpoints of the series with the same times are the
    same list. *)
Lemma same_checkpoints (T : jsstring) (writes : list (jsstring * AgentState * Z))
    (l1 l2 : list ConversationCheckpoint) :
  increasing (map snd writes) ->
  Forall (fun c => exists s, In (T, s, timestamp c) writes /\
                             c = checkpointOf s (timestamp c)) l1 ->
  Forall (fun c => exists s, In (T, s, timestamp c) writes /\
                             c = checkpointOf s (timestamp c)) l2 ->
  map timestamp l1 = map timestamp l2 -> l1 = l2.
Proof.
  intros Hi H1. revert l2. induction H1 as [|c l1 (s & Hs & Ec) _ IH]; intros l2 H2 E.
  - destruct l2; [reflexivity | discriminate].
  - destruct l2 as [|d l2]; [discriminate|]. cbn [map] in E. injection E as Ecd E.
    apply Forall_cons_iff in H2 as [(s' & Hs' & Ed) H2].
    f_equal; [|apply IH; assumption].
    rewrite <- Ecd in Hs', Ed.
    pose proof (times_unique writes _ _ Hi Hs Hs' eq_refl) as Eq.
    injection Eq as <-. congruence.
Qed.

Lemma map_filter_snd {A} (f : Z -> bool) (l : list (A * Z)) :
  map snd (List.filter (fun w => f (snd w)) l) = List.filter f (map snd l).
Proof.
  induction l as [|w l IH]; [reflexivity|]. cbn [List.filter map].
  destruct (f (snd w)); cbn [map]; rewrite IH; reflexivity.
Qed.

Lemma recentWrites_times (T : jsstring) (writes : list (jsstring * AgentState * Z))
    (now : Z) :
  increasing (map snd writes) -> lastOf (stamps writes) <= now ->
  map snd (recentWrites T writes now) =
  List.filter (fun u => now <? u + TTL_MS) (latestLive T (stamps writes)).
Proof.
  intros Hi Hb. unfold recentWrites, latestLive.
  rewrite (map_filter_snd (fun u => now <? u + TTL_MS)).
  rewrite <- firstn_map, map_rev, <- timesOf_stamps.
  assert (Hf : falling (rev (timesOf T (stamps writes)))).
  { apply increasing_rev, timesOf_increasing. rewrite map_snd_stamps. exact Hi. }
  rewrite !filter_firstn_falling by (try apply falling_filter; exact Hf).
  rewrite filter_later by exact Hb. reflexivity.
Qed.

Lemma recentWrites_recorded (T : jsstring) (writes : list (jsstring * AgentState * Z))
    (now : Z) :
  Forall (fun c => exists s, In (T, s, timestamp c) writes /\
                             c = checkpointOf s (timestamp c))
         (map (fun w => checkpointOf (fst w) (snd w)) (recentWrites T writes now)).
Proof.
  apply List.Forall_forall. intros c Hc. apply in_map_iff in Hc as [[s t] [<- Hw]].
  cbn [fst snd checkpointOf timestamp]. exists s. split; [|reflexivity].
  unfold recentWrites in Hw. apply filter_In in Hw as [Hw _].
  apply writesOf_In, in_rev.
  rewrite <- (firstn_skipn MAX_CHECKPOINTS (rev (writesOf T writes))).
  apply in_or_app. left. exact Hw.
Qed.

Lemma getConversationHistory_series (T : jsstring) (m0 : gmap (list ascii) entry)
    (writes : list (jsstring * AgentState * Z)) (now : Z) :
  readable T m0 writes now ->
  getConversationHistory (saveAll m0 writes) T now =
  map (fun w => checkpointOf (fst w) (snd w)) (recentWrites T writes now).
Proof.
  intros Hr. pose proof Hr as (HT & Hp & Hfresh & Hlat & Hi & Hn & Hnow0).
  destruct (readable_store T m0 writes now Hr) as (Hb & _ & HR & HH & Hlast).
  cbn zeta in *.
  assert (Hbn : lastOf (stamps writes) <= now).
  { destruct writes as [|w ws] eqn:Ew; [unfold lastOf; cbn; lia|].
    rewrite Hlast by discriminate. lia. }
  set (m := saveAll m0 writes) in *.
  set (L := List.filter (fun u => now <? u + TTL_MS) (latestLive T (stamps writes))).
  assert (HL : holds T (live now m) L) by apply holds_live, HH.
  assert (HLn : Forall (fun u => 0 <= u) L).
  { apply Forall_filter_keep, latestLive_nonneg.
    unfold stamps. apply List.Forall_forall. intros w Hw.
    apply in_map_iff in Hw as [x [<- Hx]]. cbn [snd].
    rewrite List.Forall_forall in Hn. specialize (Hn x Hx). lia. }
  assert (HLf : falling L).
  { apply falling_filter, latestLive_falling. rewrite map_snd_stamps. exact Hi. }
  pose proof (holds_keys T (live now m) L HT HL HLn (falling_NoDup L HLf)) as HP.
  fold (checkpointsOf m T now) in HP.
  assert (HRl : recorded T writes (live now m))
    by (eapply recorded_subset; [apply live_subset | exact HR]).
  destruct (readCheckpoints_recorded T writes (live now m) (checkpointsOf m T now) HRl)
    as (cs & E1 & E2 & E3).
  { apply List.Forall_forall. intros k Hk. unfold checkpointsOf in Hk.
    apply In_keysWithPrefix in Hk. tauto. }
  unfold getConversationHistory. rewrite E1.
  assert (Hcn : Forall (fun u => 0 <= u) (map timestamp cs)).
  { apply List.Forall_forall. intros u Hu. apply in_map_iff in Hu as [c [<- Hc]].
    rewrite List.Forall_forall in E3. destruct (E3 c Hc) as (s & Hs & _).
    rewrite List.Forall_forall in Hn. specialize (Hn _ Hs). cbn in Hn. lia. }
  assert (HPt : Permutation (map timestamp cs) L).
  { rewrite <- E2 in HP. apply Permutation_map_inv in HP as (l3 & E & HP3).
    assert (Hl3 : Forall (fun u => 0 <= u) l3).
    { apply List.Forall_forall. intros x Hx. rewrite List.Forall_forall in HLn.
      apply HLn. eapply Permutation_in; [apply Permutation_sym, HP3 | exact Hx]. }
    apply (map_keyAt_inj T _ _ HT Hcn Hl3) in E. rewrite E.
    apply Permutation_sym, HP3. }
  apply (same_checkpoints T writes); trivial.
  - apply List.Forall_forall. intros c Hc. apply sortCheckpoints_In in Hc.
    rewrite List.Forall_forall in E3. auto.
  - apply recentWrites_recorded.
  - rewrite timestamp_sortCheckpoints, (sortDesc_falling _ L HLf HPt).
    rewrite map_map. cbn [timestamp checkpointOf].
    change (map (fun x => snd x) (recentWrites T writes now))
      with (map snd (recentWrites T writes now)).
    rewrite recentWrites_times; trivial.
Qed.


(** *** The recovery log *)

Lemma firstn_app_firstn {A} (n p : nat) (a b : list A) :
  (n <= length a + p)%nat -> firstn n (a ++ firstn p b) = firstn n (a ++ b).
Proof.
  revert n. induction a as [|x a IH]; intros n Hn; cbn [app length] in *.
  - rewrite firstn_firstn. f_equal. lia.
  - destruct n as [|n]; [reflexivity|]. cbn [firstn]. f_equal. apply IH. lia.
Qed.

Lemma recoverAll_entries
    (calls : list (gmap (list ascii) entry * jsstring * Error * Z)) :
  forall logs : list RecoveryLog,
    (length logs <= 100)%nat ->
    recoverAll logs calls = firstn 100 (rev (recoveryEntries calls) ++ logs).
Proof.
  induction calls as [|[[[m T] err] now] calls IH]; intros logs Hl.
  - cbn. symmetry. apply firstn_all2, Hl.
  - change (recoverAll logs ((m, T, err, now) :: calls))
      with (recoverAll (snd (recoverFromError m logs T err now)) calls).
    change (recoveryEntries ((m, T, err, now) :: calls))
      with (match getLastCheckpoint m T now with
            | Some checkpoint =>
                [{| logThreadId := T; logError := message err;
                    checkpointTimestamp := timestamp checkpoint;
                    recoveryTimestamp := now; logStack := stack err |}]
            | None => []
            end ++ recoveryEntries calls).
    unfold recoverFromError.
    destruct (getLastCheckpoint m T now) as [c|]; cbn [snd app].
    + unfold logRecovery. rewrite IH by (rewrite length_firstn; lia).
      rewrite firstn_app_firstn by lia.
      cbn [rev]. rewrite <- app_assoc. reflexivity.
    + apply IH, Hl.
Qed.

(** The thread that is read and the threads that are written have
    identifiers without [:] and without the characters [*], [?], [[] and
    [\] of the patterns of Redis; the writes are made at times that are
    not negative, grow strictly and are not after the reading; the store
    holds no key of a checkpoint of the thread at first, and no pointer
    to its latest.  Then, after the series of writes, the last checkpoint
    of the thread is the one of its last write, with the state saved
    then, its time, the last ten of its messages and its model (or
    [unknown]), for as long as that write is less than the time to live of
    an hour old; there is no last checkpoint before the first write of
    the thread, nor from an hour after its last one. *)
Theorem getLastCheckpoint_reads_last_write
    (T : jsstring) (m0 : gmap (list ascii) entry)
    (writes : list (jsstring * AgentState * Z)) (now : Z) :
  readable T m0 writes now ->
  getLastCheckpoint (saveAll m0 writes) T now =
  match lastWrite T writes with
  | Some (s, t) => if now <? t + TTL_MS then Some (checkpointOf s t) else None
  | None => None
  end /\
  forall c, getLastCheckpoint (saveAll m0 writes) T now = Some c ->
    exists s t,
      lastWrite T writes = Some (s, t) /\ now < t + 3600000 /\
      state c = s /\ timestamp c = t /\
      context c = skipn (length (messages s) - 10) (messages s) /\
      modelUsed c = match model s with
                    | Some (a :: m) => a :: m
                    | _ => str "unknown"
                    end.
Proof.
  intros Hr. rewrite (getLastCheckpoint_series T m0 writes now Hr).
  split; [reflexivity|]. intros c.
  destruct (lastWrite T writes) as [[s t]|]; [|discriminate].
  destruct (now <? t + TTL_MS) eqn:E; [|discriminate].
  intros H. injection H as <-. exists s, t.
  apply Z.ltb_lt in E. unfold TTL_MS, CHECKPOINT_TTL in E.
  split; [reflexivity|]. split; [lia|]. repeat split.
Qed.

Lemma threeWrites_readable (now : Z) :
  3000 <= now -> readable threadOne ∅ threeWrites now.
Proof.
  intros Hn. destruct plain_threads as [P1 P2]. unfold readable, threeWrites.
  split; [exact P1|]. split; [repeat (constructor; [assumption|]); constructor|].
  split; [intros k _; apply lookup_empty|]. split; [apply lookup_empty|].
  split; [apply increasing_list; reflexivity|].
  split; [repeat (constructor; [cbn; lia|]); constructor | lia].
Qed.

Lemma getLastCheckpoint_reads_last_write_witness :
  getLastCheckpoint (saveAll ∅ threeWrites) threadOne 5000 =
  Some (checkpointOf (talk "tides" ["hello"; "why are there tides?"]) 3000).
Proof.
  rewrite (proj1 (getLastCheckpoint_reads_last_write threadOne ∅ threeWrites 5000
                    (threeWrites_readable 5000 ltac:(lia)))).
  reflexivity.
Defined.

(** Under the same conditions, the history of a thread after a series
    of writes: the checkpoints of its ten latest writes that are less
    than an hour old, each with the state saved then and its time, the
    latest first; never more than ten. *)
Theorem getConversationHistory_lists_recent_writes
    (T : jsstring) (m0 : gmap (list ascii) entry)
    (writes : list (jsstring * AgentState * Z)) (now : Z) :
  readable T m0 writes now ->
  getConversationHistory (saveAll m0 writes) T now =
    map (fun w => checkpointOf (fst w) (snd w)) (recentWrites T writes now) /\
  map (fun c => (state c, timestamp c))
      (getConversationHistory (saveAll m0 writes) T now) =
    recentWrites T writes now /\
  (length (getConversationHistory (saveAll m0 writes) T now) <= 10)%nat.
Proof.
  intros Hr. rewrite (getConversationHistory_series T m0 writes now Hr).
  split; [reflexivity|]. split.
  - rewrite map_map. cbn [state timestamp checkpointOf].
    rewrite <- (map_id (recentWrites T writes now)) at 2.
    apply map_ext. intros [s t]. reflexivity.
  - rewrite length_map. unfold recentWrites.
    etransitivity; [apply filter_length_le|]. rewrite length_firstn.
    unfold MAX_CHECKPOINTS. lia.
Qed.

Lemma getConversationHistory_lists_recent_writes_witness :
  getConversationHistory (saveAll ∅ threeWrites) threadOne 5000 =
  [checkpointOf (talk "tides" ["hello"; "why are there tides?"]) 3000;
   checkpointOf (talk "tides" ["hello"]) 1000].
Proof.
  rewrite (proj1 (getConversationHistory_lists_recent_writes threadOne ∅ threeWrites
                    5000 (threeWrites_readable 5000 ltac:(lia)))).
  reflexivity.
Defined.

Lemma recentMessages_length (s : AgentState) :
  (length (recentMessages s) <= 10)%nat.
Proof. unfold recentMessages. rewrite length_skipn. lia. Qed.

(** Recovery after a series of writes, under the same conditions.
    While the last write of the thread is less than an hour old, [recoverFromError] returns the state
    of that write with its messages replaced by the last ten of them and
    one notice of the recovery (eleven messages at most), and puts one
    entry, with the time of that write, at the head of the recovery log,
    which it cuts to a hundred entries; otherwise it returns nothing and
    leaves the log as it is. *)
Theorem recoverFromError_restores_last_write
    (T : jsstring) (m0 : gmap (list ascii) entry)
    (writes : list (jsstring * AgentState * Z)) (now : Z)
    (logs : list RecoveryLog) (error : Error) :
  readable T m0 writes now ->
  recoverFromError (saveAll m0 writes) logs T error now =
    match lastWrite T writes with
    | Some (s, t) =>
        if now <? t + TTL_MS
        then (Some {| model := model s;
                      research_question := research_question s;
                      report := report s; resources := resources s;
                      messages :=
                        skipn (length (messages s) - 10) (messages s) ++
                        [str "Recovered from error: " ++ message error ++
                         str ". Continuing conversation..."] |},
              firstn 100 ({| logThreadId := T; logError := message error;
                             checkpointTimestamp := t; recoveryTimestamp := now;
                             logStack := stack error |} :: logs))
        else (None, logs)
    | None => (None, logs)
    end /\
  forall r, fst (recoverFromError (saveAll m0 writes) logs T error now) = Some r ->
            (length (messages r) <= 11)%nat.
Proof.
  intros Hr. unfold recoverFromError.
  rewrite (getLastCheckpoint_series T m0 writes now Hr).
  destruct (lastWrite T writes) as [[s t]|]; [|split; [reflexivity | discriminate]].
  destruct (now <? t + TTL_MS); [|split; [reflexivity | discriminate]].
  split; [reflexivity|]. cbn [fst]. intros r E. injection E as <-.
  cbn [messages context checkpointOf]. rewrite length_app. cbn [length].
  pose proof (recentMessages_length s). lia.
Qed.

Lemma recoverFromError_restores_last_write_witness :
  recoverFromError (saveAll ∅ threeWrites) [] threadOne timeout 5000 =
  (Some {| model := Some (str "openai"); research_question := str "tides";
           report := []; resources := [];
           messages := [str "hello"; str "why are there tides?";
                        str "Recovered from error: timeout. Continuing conversation..."] |},
   [{| logThreadId := threadOne; logError := str "timeout";
       checkpointTimestamp := 3000; recoveryTimestamp := 5000;
       logStack := None |}]).
Proof.
  rewrite (proj1 (recoverFromError_restores_last_write threadOne ∅ threeWrites 5000
                    [] timeout (threeWrites_readable 5000 ltac:(lia)))).
  reflexivity.
Defined.

(** The recovery log holds the entries of the recoveries that found a
    checkpoint, the latest first, and never more than a hundred of them:
    the total that [getRecoveryStats] reports is the number of those
    recoveries up to a hundred, and a hundred from then on; the recent
    recoveries it reports are the ten latest. *)
Theorem recovery_log_capped
    (calls : list (gmap (list ascii) entry * jsstring * Error * Z)) :
  recoverAll [] calls = firstn 100 (rev (recoveryEntries calls)) /\
  fst (getRecoveryStats (recoverAll [] calls)) =
    Nat.min 100 (length (recoveryEntries calls)) /\
  snd (getRecoveryStats (recoverAll [] calls)) =
    firstn 10 (rev (recoveryEntries calls)).
Proof.
  assert (E : recoverAll [] calls = firstn 100 (rev (recoveryEntries calls))).
  { rewrite recoverAll_entries by (cbn; lia). rewrite app_nil_r. reflexivity. }
  rewrite E. unfold getRecoveryStats. cbn [fst snd].
  split; [reflexivity|]. split.
  - rewrite length_firstn, length_rev. reflexivity.
  - rewrite firstn_firstn. reflexivity.
Qed.

End CheckpointFacts.

(** ** The feature flags: buckets and rollout *)

Module FlagsFacts.
Import Flags.

Local Open Scope Z_scope.

Lemma toInt32_range (x : Z) : - 2 ^ 31 <= toInt32 x < 2 ^ 31.
Proof.
  unfold toInt32. pose proof (Z.mod_pos_bound (x + 2 ^ 31) (2 ^ 32) ltac:(lia)). lia.
Qed.

Lemma hash_range (s : jsstring) : forall h : Z,
  - 2 ^ 31 <= h < 2 ^ 31 -> - 2 ^ 31 <= fold_left hashStep s h < 2 ^ 31.
Proof.
  induction s as [|c s IH]; intros h Hh; [exact Hh|].
  cbn [fold_left]. apply IH. unfold hashStep. apply toInt32_range.
Qed.

(** The hash of a text is a number from 0 to 2^31, and the bucket of a
    user for a flag a number from 0 to 99, whatever the name of the flag
    and the identifier of the user. *)
Theorem getUserBucket_range (flag : jsstring) (userId : option jsstring) :
  0 <= simpleHash (flag ++ str ":" ++ default (str "anonymous") (truthy userId))
    <= 2 ^ 31 /\
  0 <= getUserBucket flag userId < 100.
Proof.
  split.
  - unfold simpleHash.
    match goal with |- context [fold_left hashStep ?s 0] =>
      pose proof (hash_range s 0 ltac:(lia)) end.
    lia.
  - unfold getUserBucket. cbn zeta. apply Z.mod_pos_bound. lia.
Qed.

Lemma evaluateFlag_on (localCache : gmap (list ascii) FeatureFlag)
    (env : option jsstring) (now : Z) (flag : jsstring)
    (userId : option jsstring) (f : FeatureFlag) :
  localCache !! flag = Some f ->
  isEnabled localCache env now flag userId =
  enabled f && environmentAllows f env && dateAllows f now &&
  (whitelisted f userId || (100 <=? rolloutPercentage f) ||
   (getUserBucket flag userId <? rolloutPercentage f)).
Proof.
  intros H. unfold isEnabled, evaluateFlag. rewrite H.
  destruct (enabled f); [|reflexivity].
  destruct (environmentAllows f env); [|reflexivity].
  destruct (dateAllows f now); [|reflexivity].
  destruct (whitelisted f userId); [reflexivity|]. cbn [negb andb orb].
  destruct (rolloutPercentage f <? 100) eqn:E; cbn [isOn].
  - replace (100 <=? rolloutPercentage f) with false
      by (symmetry; apply Z.leb_gt; apply Z.ltb_lt in E; lia).
    reflexivity.
  - replace (100 <=? rolloutPercentage f) with true
      by (symmetry; apply Z.leb_le; apply Z.ltb_ge in E; lia).
    reflexivity.
Qed.



(** Raising the percentage of the rollout of a flag never turns the
    flag off for a user for whom it was on; from a hundred per cent on,
    the flag is on for every user in an allowed environment and within
    the range of dates. *)
Theorem rollout_is_monotone
    (localCache : gmap (list ascii) FeatureFlag) (env : option jsstring)
    (now : Z) (flag : jsstring) (userId : option jsstring) (f : FeatureFlag)
    (percentage : Z) :
  localCache !! flag = Some f ->
  rolloutPercentage f <= percentage ->
  (isEnabled localCache env now flag userId = true ->
   isEnabled (<[flag := withRollout f percentage]> localCache) env now flag userId
   = true) /\
  (100 <= percentage ->
   isEnabled (<[flag := withRollout f percentage]> localCache) env now flag userId
   = enabled f && environmentAllows f env && dateAllows f now).
Proof.
  intros H Hp.
  rewrite (evaluateFlag_on _ _ _ _ _ f H).
  rewrite (evaluateFlag_on _ _ _ _ _ (withRollout f percentage)
             (lookup_insert_eq _ _ _)).
  change (enabled (withRollout f percentage)) with (enabled f).
  change (environmentAllows (withRollout f percentage) env)
    with (environmentAllows f env).
  change (dateAllows (withRollout f percentage) now) with (dateAllows f now).
  change (whitelisted (withRollout f percentage) userId) with (whitelisted f userId).
  cbn [rolloutPercentage withRollout]. split.
  - intros E. apply andb_true_iff in E as [E1 E2]. rewrite E1. cbn [andb].
    apply orb_true_iff in E2 as [E2|E2].
    + apply orb_true_iff in E2 as [E2|E2].
      * rewrite E2. reflexivity.
      * apply Z.leb_le in E2.
        replace (100 <=? percentage) with true by (symmetry; apply Z.leb_le; lia).
        apply orb_true_r || (rewrite orb_true_r; reflexivity).
    + apply Z.ltb_lt in E2.
      replace (getUserBucket flag userId <? percentage) with true
        by (symmetry; apply Z.ltb_lt; lia).
      apply orb_true_r.
  - intros H100.
    replace (100 <=? percentage) with true by (symmetry; apply Z.leb_le; lia).
    rewrite orb_true_r. cbn [orb]. rewrite andb_true_r. reflexivity.
Qed.

Lemma rollout_is_monotone_witness :
  isEnabled (<[str "enable_model_routing" := withRollout modelRouting 100]>
               {[ str "enable_model_routing" := modelRouting ]})
            None 1000 (str "enable_model_routing") (Some (str "ada"))
  = enabled modelRouting && environmentAllows modelRouting None &&
    dateAllows modelRouting 1000.
Proof.
  refine (proj2 (rollout_is_monotone {[ str "enable_model_routing" := modelRouting ]}
                   None 1000 (str "enable_model_routing") (Some (str "ada"))
                   modelRouting 100 _ _) _).
  - apply lookup_singleton_eq.
  - cbn. lia.
  - lia.
Defined.

End FlagsFacts.
